(** * Cohort-component population projection (src/ccmpp.h)

    A shallow embedding of the projection kernel of ccmpp.h and the
    properties of its two computation paths:

    - [make_leslie_matrix] and [ccmpp_leslie], the matrix-form projector;
    - [PopulationProjection], [step_projection] and [ccmpp], the
      direct-recurrence projector.

    The C++ code is a template over the scalar [Type].  The development
    instantiates it with exact rational arithmetic ([Qc], the canonical
    rationals of the standard library), so every equation below is an
    equation of exact arithmetic; rounding of a floating-point
    instantiation is not modelled.

    Eigen checks sizes and indices with assertions and leaves the
    behaviour undefined when they are violated.  The embedding is total:
    every operation returns a [result], and a violated Eigen precondition
    (an index out of range, operands of different sizes, inserting a
    sparse coefficient that already exists) or a division by zero is an
    explicit [Err]. *)

From Stdlib Require Import ZArith QArith Qcanon Lia.
From stdpp Require Import base option list gmap.

Local Open Scope Z_scope.
Local Open Scope Qc_scope.

(** ** Scalars *)

(** The literal [0.5]. *)
Definition half : Qc := Q2Qc (1 # 2).

#[global] Instance Qc_eq_decision : EqDecision Qc := Qc_eq_dec.

(** ** Results of fallible operations *)

Inductive error : Set :=
  | DivisionByZero   (* a scalar division whose denominator is 0 *)
  | IndexOutOfRange  (* coefficient, column or block outside the object *)
  | SizeMismatch     (* coefficient-wise operation or assignment on different sizes *)
  | ElementExists.   (* SparseMatrix::insert on a coefficient already stored *)

Inductive result (A : Type) : Type :=
  | Ok (a : A)
  | Err (e : error).
Arguments Ok {A} a.
Arguments Err {A} e.

#[global] Instance result_ret : MRet result := @Ok.
#[global] Instance result_bind : MBind result := fun A B f r =>
  match r with
  | Ok a => f a
  | Err e => Err e
  end.

(** [x / y] on scalars. *)
Definition sdiv (x y : Qc) : result Qc :=
  if decide (y = 0) then Err DivisionByZero else Ok (x / y).

(** A [for] loop whose index runs through the list [idxs], threading the
    loop state and stopping at the first error. *)
Fixpoint for_each {St : Type} (idxs : list Z) (body : Z → St → result St) (s : St)
    : result St :=
  match idxs with
  | [] => Ok s
  | i :: rest => s' ← body i s; for_each rest body s'
  end.

(** ** Dense vectors: [Eigen::Array<Type, Dynamic, 1>] and its maps *)

Abbreviation vec := (list Qc).

(** [v.size()], [v.rows()] *)
Definition vsize (v : vec) : Z := Z.of_nat (length v).

Definition in_range (i len : Z) : bool := bool_decide (0 ≤ i < len)%Z.

(** [v(i)], [v[i]] *)
Definition vcoeff (v : vec) (i : Z) : result Qc :=
  if in_range i (vsize v) then
    match v !! Z.to_nat i with
    | Some x => Ok x
    | None => Err IndexOutOfRange
    end
  else Err IndexOutOfRange.

(** [v(i) = x] *)
Definition vset (v : vec) (i : Z) (x : Qc) : result vec :=
  if in_range i (vsize v) then Ok (<[Z.to_nat i := x]> v)
  else Err IndexOutOfRange.

(** [v.segment(start, n)], [v.block(start, 0, n, 1)] read as a value *)
Definition segment (v : vec) (start n : Z) : result vec :=
  if bool_decide (0 ≤ start ∧ 0 ≤ n ∧ start + n ≤ vsize v)%Z then
    Ok (take (Z.to_nat n) (drop (Z.to_nat start) v))
  else Err IndexOutOfRange.

(** [v.segment(start, n) = rhs] *)
Definition segment_assign (v : vec) (start n : Z) (rhs : vec) : result vec :=
  if bool_decide (0 ≤ start ∧ 0 ≤ n ∧ start + n ≤ vsize v)%Z then
    if bool_decide (vsize rhs = n) then
      Ok (take (Z.to_nat start) v ++ rhs ++ drop (Z.to_nat (start + n)) v)
    else Err SizeMismatch
  else Err IndexOutOfRange.

(** Coefficient-wise binary operation; Eigen requires equal sizes. *)
Definition cwise (op : Qc → Qc → Qc) (u v : vec) : result vec :=
  if bool_decide (length u = length v) then Ok (zip_with op u v)
  else Err SizeMismatch.

(** [dst = rhs] where [dst] is a map or a column: no resizing. *)
Definition assign (dst rhs : vec) : result vec :=
  if bool_decide (length dst = length rhs) then Ok rhs else Err SizeMismatch.

(** [c * v], [c - v] with a scalar [c] *)
Definition scale (c : Qc) (v : vec) : vec := (fun x => c * x) <$> v.
Definition scalar_minus (c : Qc) (v : vec) : vec := (fun x => c - x) <$> v.

(** [v.sum()] *)
Definition vsum (v : vec) : Qc := foldr Qcplus 0 v.

Definition zeros (n : nat) : vec := replicate n 0.

(** ** Dense tables: [Eigen::Array/Matrix<Type, Dynamic, Dynamic>]

    Eigen stores them column by column; the model keeps the list of the
    columns and the number of rows (which a table without columns still
    has). *)

Record matrix : Type := Matrix { nrows : nat; columns : list vec }.

(** [m.rows()], [m.cols()] *)
Definition mat_rows (m : matrix) : Z := Z.of_nat (nrows m).
Definition mat_cols (m : matrix) : Z := Z.of_nat (length (columns m)).

(** [m.col(j)] *)
Definition col (m : matrix) (j : Z) : result vec :=
  if in_range j (mat_cols m) then
    match columns m !! Z.to_nat j with
    | Some c => Ok c
    | None => Err IndexOutOfRange
    end
  else Err IndexOutOfRange.

(** Writing a whole column back: [m.col(j) = v]. *)
Definition set_col (m : matrix) (j : Z) (v : vec) : result matrix :=
  if in_range j (mat_cols m) then
    if bool_decide (length v = nrows m) then
      Ok (Matrix (nrows m) (<[Z.to_nat j := v]> (columns m)))
    else Err SizeMismatch
  else Err IndexOutOfRange.

(** [Map<Array>(m.col(j).data(), n)]: a view of [n] coefficients starting
    at the head of column [j].  On a table with [n] rows this is the
    column itself; other row counts are outside the validated shapes (the
    view would stop short of the column or run into the next one) and are
    reported as a size mismatch. *)
Definition col_map (m : matrix) (j : Z) (n : Z) : result vec :=
  c ← col m j;
  if bool_decide (vsize c = n) then Ok c else Err SizeMismatch.

(** [Matrix(rows, cols)]; the C++ storage starts uninitialised, the model
    starts it at 0. *)
Definition new_matrix (rows cols : Z) : result matrix :=
  if bool_decide (0 ≤ rows ∧ 0 ≤ cols)%Z then
    Ok (Matrix (Z.to_nat rows) (replicate (Z.to_nat cols) (zeros (Z.to_nat rows))))
  else Err IndexOutOfRange.

(** ** Sparse matrices: [Eigen::SparseMatrix<Type>] *)

Record sparse : Type := Sparse {
  sp_rows : Z;
  sp_cols : Z;
  sp_entries : gmap (Z * Z) Qc   (* the stored coefficients *)
}.

(** [SparseMatrix(rows, cols)] *)
Definition sp_new (rows cols : Z) : result sparse :=
  if bool_decide (0 ≤ rows ∧ 0 ≤ cols)%Z then Ok (Sparse rows cols ∅)
  else Err IndexOutOfRange.

(** [m.insert(i, j) = x]: the coefficient must be inside the matrix and
    must not be stored yet. *)
Definition sp_insert (m : sparse) (i j : Z) (x : Qc) : result sparse :=
  if in_range i (sp_rows m) && in_range j (sp_cols m) then
    match sp_entries m !! (i, j) with
    | Some _ => Err ElementExists
    | None => Ok (Sparse (sp_rows m) (sp_cols m) (<[(i, j) := x]> (sp_entries m)))
    end
  else Err IndexOutOfRange.

(** [m.coeff(i, j)]: a coefficient that is not stored is 0. *)
Definition sp_coeff (m : sparse) (i j : Z) : Qc :=
  default 0 (sp_entries m !! (i, j)).

(** Stored coefficients of column [j]. *)
Definition sp_col_stored (m : sparse) (j : Z) : list Z :=
  filter (fun i => is_Some (sp_entries m !! (i, j))) (seqZ 0 (sp_rows m)).

(** Row [i] of the product [m * x]. *)
Definition sp_row_dot (m : sparse) (x : vec) (i : Z) : Qc :=
  vsum ((fun j => sp_coeff m i j * default 0 (x !! Z.to_nat j)) <$> seqZ 0 (sp_cols m)).

(** [m * x] *)
Definition sp_mul (m : sparse) (x : vec) : result vec :=
  if bool_decide (sp_cols m = vsize x) then
    Ok (sp_row_dot m x <$> seqZ 0 (sp_rows m))
  else Err SizeMismatch.

(** ** The Leslie-matrix builder *)

(** [v.segment(start, n) += rhs] *)
Definition segment_add (v : vec) (start n : Z) (rhs : vec) : result vec :=
  cur ← segment v start n;
  sum ← cwise Qcplus cur rhs;
  segment_assign v start n sum.

(** [make_leslie_matrix(sx, fx, srb, age_span, fx_idx)] *)
Definition make_leslie_matrix (sx fx : vec) (srb age_span : Qc) (fx_idx : Z)
    : result sparse :=
  sx0 ← vcoeff sx 0;
  fert_k ← sdiv (sx0 * half * age_span) (1 + srb);
  let fxd := vsize fx in
  let fert_leslie := zeros (Z.to_nat (fxd + 1)) in
  sx_blk ← segment sx fx_idx fxd;
  prod ← cwise Qcmult fx sx_blk;
  fert_leslie ← segment_add fert_leslie 0 fxd prod;
  fert_leslie ← segment_add fert_leslie 1 fxd fx;
  let fert_leslie := (fun x => x * fert_k) <$> fert_leslie in
  let dim := (vsize sx - 1)%Z in
  leslie ← sp_new dim dim;
  leslie ← for_each (seqZ 0 (fxd + 1)) (fun i leslie =>
              x ← vcoeff fert_leslie i;
              sp_insert leslie 0 (fx_idx + i - 1) x) leslie;
  leslie ← for_each (seqZ 1 (dim - 1)) (fun i leslie =>
              x ← vcoeff sx i;
              sp_insert leslie i (i - 1) x) leslie;
  x ← vcoeff sx dim;
  sp_insert leslie (dim - 1) (dim - 1) x.

(** ** The matrix-form projector *)

(** One iteration of the loop of [ccmpp_leslie]. *)
Definition leslie_step (sx fx gx : matrix) (srb : vec) (age_span : Qc)
    (fx_idx : Z) (step : Z) (population : matrix) : result matrix :=
  pop_col ← col population step;
  gx_col ← col gx step;
  migrants ← cwise Qcmult pop_col gx_col;
  sx_col ← col sx step;
  fx_col ← col fx step;
  srb_step ← vcoeff srb step;
  leslie ← make_leslie_matrix sx_col fx_col srb_step age_span fx_idx;
  exposed ← cwise Qcplus pop_col (scale half migrants);
  aged ← sp_mul leslie exposed;
  next ← cwise Qcplus aged (scale half migrants);
  set_col population (step + 1) next.

(** [ccmpp_leslie(basepop, sx, fx, gx, srb, age_span, fx_idx)] *)
Definition ccmpp_leslie (basepop : vec) (sx fx gx : matrix) (srb : vec)
    (age_span : Qc) (fx_idx : Z) : result matrix :=
  let nsteps := mat_cols sx in
  population ← new_matrix (vsize basepop) (nsteps + 1);
  population ← set_col population 0 basepop;
  for_each (seqZ 0 nsteps) (leslie_step sx fx gx srb age_span fx_idx) population.

(** ** The direct-recurrence projector *)

Record PopulationProjection : Type := {
  n_ages : Z;
  n_steps : Z;
  n_fx : Z;      (* number of age groups eligible for fertility *)
  fx_idx : Z;    (* first age index eligible for fertility *)
  age_span : Qc;
  sx : matrix;
  fx : matrix;
  gx : matrix;
  srb : vec;
  population : matrix;
  deaths : matrix;
  births : matrix;
  infants : vec;
  migrations : matrix
}.

(** The constructor. *)
Definition new_projection (n_ages n_steps n_fx fx_idx : Z) (age_span : Qc)
    (basepop : vec) (sx fx gx : matrix) (srb : vec)
    : result PopulationProjection :=
  population ← new_matrix n_ages (n_steps + 1);
  deaths ← new_matrix (n_ages + 1) n_steps;
  births ← new_matrix n_fx n_steps;
  infants ← (if bool_decide (0 ≤ n_steps)%Z then Ok (zeros (Z.to_nat n_steps))
             else Err IndexOutOfRange);
  migrations ← new_matrix n_ages n_steps;
  population ← set_col population 0 basepop;
  Ok {| n_ages := n_ages; n_steps := n_steps; n_fx := n_fx; fx_idx := fx_idx;
        age_span := age_span; sx := sx; fx := fx; gx := gx; srb := srb;
        population := population; deaths := deaths; births := births;
        infants := infants; migrations := migrations |}.

(** The aging loop [for (age = n_ages-1; age > 0; age--)]. *)
Definition aging_loop (n_ages : Z) (deaths_t : vec) (population_t : vec)
    : result vec :=
  for_each (reverse (seqZ 1 (n_ages - 1))) (fun age population_t =>
      younger ← vcoeff population_t (age - 1);
      d ← vcoeff deaths_t age;
      vset population_t age (younger - d)) population_t.

(** [step_projection(step)].

    The C++ code writes through maps that alias column [step + 1] of
    [population] and column [step] of the other output tables.  The
    model computes on the contents of the maps and stores them into the
    tables when the step is complete; a step that fails yields no
    container at all, so the two agree on every step that completes. *)
Definition step_projection (p : PopulationProjection) (step : Z)
    : result PopulationProjection :=
  sx_t ← col_map (sx p) step (n_ages p + 1);
  fx_t ← col_map (fx p) step (mat_rows (fx p));
  gx_t ← col_map (gx p) step (n_ages p);
  population_t ← col_map (population p) (step + 1) (mat_rows (population p));
  migrations_t ← col_map (migrations p) step (mat_rows (migrations p));
  deaths_t ← col_map (deaths p) step (mat_rows (deaths p));
  births_t ← col_map (births p) step (mat_rows (births p));
  _ ← vcoeff (infants p) step;
  (* population_t = population.col(step); *)
  previous ← col (population p) step;
  population_t ← assign population_t previous;
  (* migrations_t = population_t * gx_t; population_t += 0.5 * migrations_t; *)
  moved ← cwise Qcmult population_t gx_t;
  migrations_t ← assign migrations_t moved;
  population_t ← cwise Qcplus population_t (scale half migrations_t);
  (* deaths_t.segment(1, n_ages) = population_t * (1.0 - sx_t.segment(1, n_ages)); *)
  sx_seg ← segment sx_t 1 (n_ages p);
  died ← cwise Qcmult population_t (scalar_minus 1 sx_seg);
  deaths_t ← segment_assign deaths_t 1 (n_ages p) died;
  (* births_t = 0.5 * age_span * fx_t * population_t.segment(fx_idx, n_fx); *)
  fertile ← segment population_t (fx_idx p) (n_fx p);
  born ← cwise Qcmult (scale (half * age_span p) fx_t) fertile;
  births_t ← assign births_t born;
  (* the open age group and the aging loop *)
  oldest ← vcoeff population_t (n_ages p - 1);
  d_open ← vcoeff deaths_t (n_ages p);
  let open_age_survivors := oldest - d_open in
  population_t ← aging_loop (n_ages p) deaths_t population_t;
  oldest ← vcoeff population_t (n_ages p - 1);
  population_t ← vset population_t (n_ages p - 1) (oldest + open_age_survivors);
  (* births_t += 0.5 * age_span * fx_t * population_t.segment(fx_idx, n_fx); *)
  fertile ← segment population_t (fx_idx p) (n_fx p);
  born ← cwise Qcmult (scale (half * age_span p) fx_t) fertile;
  births_t ← cwise Qcplus births_t born;
  (* infants_t = births_t.sum() / (1.0 + srb(step)); *)
  srb_step ← vcoeff (srb p) step;
  infants_t ← sdiv (vsum births_t) (1 + srb_step);
  (* deaths_t(0) = infants_t(0) * (1.0 - sx_t(0)); *)
  sx0 ← vcoeff sx_t 0;
  deaths_t ← vset deaths_t 0 (infants_t * (1 - sx0));
  (* population_t(0) = infants_t(0) - deaths_t(0); *)
  d0 ← vcoeff deaths_t 0;
  population_t ← vset population_t 0 (infants_t - d0);
  (* population_t += 0.5 * migrations_t; *)
  population_t ← cwise Qcplus population_t (scale half migrations_t);
  (* the contents of the maps, back in the tables *)
  population' ← set_col (population p) (step + 1) population_t;
  migrations' ← set_col (migrations p) step migrations_t;
  deaths' ← set_col (deaths p) step deaths_t;
  births' ← set_col (births p) step births_t;
  infants' ← vset (infants p) step infants_t;
  Ok {| n_ages := n_ages p; n_steps := n_steps p; n_fx := n_fx p;
        fx_idx := fx_idx p; age_span := age_span p;
        sx := sx p; fx := fx p; gx := gx p; srb := srb p;
        population := population'; deaths := deaths'; births := births';
        infants := infants'; migrations := migrations' |}.

(** [ccmpp(basepop, sx, fx, gx, srb, age_span, fx_idx)] *)
Definition ccmpp (basepop : vec) (sx fx gx : matrix) (srb : vec)
    (age_span : Qc) (fx_idx : Z) : result PopulationProjection :=
  let n_steps := mat_cols sx in
  let n_ages := vsize basepop in
  let n_fx := mat_rows fx in
  proj ← new_projection n_ages n_steps n_fx fx_idx age_span basepop sx fx gx srb;
  for_each (seqZ 0 n_steps) (fun step proj => step_projection proj step) proj.

(** ** Reading the tables *)

(** Column [j] of a table, empty outside it. *)
Definition column (m : matrix) (j : nat) : vec := default [] (columns m !! j).

(** Coefficient [i] of a vector, 0 outside it. *)
Definition at_ (v : vec) (i : nat) : Qc := default 0 (v !! i).

(** Coefficient [(i, j)] of a table, 0 outside it. *)
Definition entry (m : matrix) (i j : nat) : Qc := at_ (column m j) i.

(** Coefficient [(i, j)] of a table, if the table has it. *)
Definition stored (m : matrix) (i j : nat) : option Qc :=
  c ← columns m !! j; c !! i.

(** Total population of column [j]. *)
Definition total (m : matrix) (j : nat) : Qc := vsum (column m j).

(** ** Vectors given by their coefficients *)

(** The vector [F 0, ..., F (n-1)]. *)
Definition tabulate (n : nat) (F : nat → Qc) : vec := F <$> seq 0 n.

(** [F 0 + ... + F (n-1)] *)
Definition sum_upto (n : nat) (F : nat → Qc) : Qc := vsum (tabulate n F).

(** ** The recurrence computed by one direct step

    The coefficients that [step_projection] computes, as functions of the
    coefficients [Pop] of the previous population column and [Sx], [Fx], [Gx]
    of the step's columns of [sx], [fx], [gx]; [n] is [n_ages], [idx] is
    [fx_idx], [m] is [n_fx], [r] is [srb(step)].  Each definition is the
    right-hand side of the C++ statement it is named after;
    [step_projection_runs] below proves that [step_projection] computes
    exactly these. *)

Section Recurrence.
Variables (n idx m : nat) (span r : Qc) (Pop Sx Fx Gx : nat → Qc).

(* migrations_t = population_t * gx_t *)
Definition migrants_at (i : nat) : Qc := Pop i * Gx i.
(* population_t += 0.5 * migrations_t *)
Definition exposed_at (i : nat) : Qc := Pop i + half * migrants_at i.
(* deaths_t.segment(1, n_ages) = population_t * (1.0 - sx_t.segment(1, n_ages)) *)
Definition died_at (j : nat) : Qc := exposed_at (j - 1) * (1 - Sx j).
(* open_age_survivors *)
Definition open_age_survivors : Qc := exposed_at (n - 1) - died_at n.
(* population_t after the aging loop *)
Definition shifted_at (i : nat) : Qc :=
  if decide (1 ≤ i ≤ n - 1)%nat then exposed_at (i - 1) - died_at i
  else exposed_at i.
(* population_t(n_ages-1) += open_age_survivors *)
Definition aged_at (i : nat) : Qc :=
  if decide (i = n - 1)%nat then shifted_at i + open_age_survivors
  else shifted_at i.
(* births_t after both half-steps *)
Definition births_at (i : nat) : Qc :=
  half * span * Fx i * exposed_at (idx + i) + half * span * Fx i * aged_at (idx + i).
(* infants_t *)
Definition infants_of : Qc := sum_upto m births_at / (1 + r).
(* deaths_t *)
Definition deaths_at (j : nat) : Qc :=
  if decide (j = 0)%nat then infants_of * (1 - Sx 0) else died_at j.
(* population_t at the end of the step *)
Definition next_population_at (i : nat) : Qc :=
  (if decide (i = 0)%nat then infants_of - deaths_at 0 else aged_at i)
  + half * migrants_at i.
End Recurrence.

(** The container after step [k], in terms of the recurrence. *)
Definition stepped (p : PopulationProjection) (k : nat) : PopulationProjection :=
  let n := Z.to_nat (n_ages p) in
  let idx := Z.to_nat (fx_idx p) in
  let m := Z.to_nat (n_fx p) in
  let span := age_span p in
  let r := at_ (srb p) k in
  let Pop := at_ (column (population p) k) in
  let Sx := at_ (column (sx p) k) in
  let Fx := at_ (column (fx p) k) in
  let Gx := at_ (column (gx p) k) in
  {| n_ages := n_ages p; n_steps := n_steps p; n_fx := n_fx p;
     fx_idx := fx_idx p; age_span := age_span p;
     sx := sx p; fx := fx p; gx := gx p; srb := srb p;
     population :=
       Matrix (nrows (population p))
         (<[S k := tabulate n (next_population_at n idx m span r Pop Sx Fx Gx)]>
            (columns (population p)));
     deaths :=
       Matrix (nrows (deaths p))
         (<[k := tabulate (S n) (deaths_at n idx m span r Pop Sx Fx Gx)]>
            (columns (deaths p)));
     births :=
       Matrix (nrows (births p))
         (<[k := tabulate m (births_at n idx span Pop Sx Fx Gx)]> (columns (births p)));
     infants := <[k := infants_of n idx m span r Pop Sx Fx Gx]> (infants p);
     migrations :=
       Matrix (nrows (migrations p))
         (<[k := tabulate n (migrants_at Pop Gx)]> (columns (migrations p))) |}.

(** The container [p] with [r] for [srb(k)]. *)
Definition with_srb (p : PopulationProjection) (k : nat) (r : Qc) : PopulationProjection :=
  {| n_ages := n_ages p; n_steps := n_steps p; n_fx := n_fx p;
     fx_idx := fx_idx p; age_span := age_span p;
     sx := sx p; fx := fx p; gx := gx p; srb := <[k := r]> (srb p);
     population := population p; deaths := deaths p; births := births p;
     infants := infants p; migrations := migrations p |}.

(** ** Validated shapes *)

(** A table with [r] rows and [c] columns. *)
Definition table (t : matrix) (r c : Z) : Prop :=
  mat_rows t = r ∧ mat_cols t = c ∧ Forall (fun column => vsize column = r) (columns t).

(** The shapes that the constructor gives a container and that the
    caller of the kernel is to validate; the fertile window lies inside
    the age groups and there is at least one age group. *)
Record shaped (p : PopulationProjection) : Prop := {
  shaped_ages : (1 ≤ n_ages p)%Z;
  shaped_steps : (0 ≤ n_steps p)%Z;
  shaped_fx_idx : (0 ≤ fx_idx p)%Z;
  shaped_n_fx : (0 ≤ n_fx p)%Z;
  shaped_window : (fx_idx p + n_fx p ≤ n_ages p)%Z;
  shaped_sx : table (sx p) (n_ages p + 1) (n_steps p);
  shaped_fx : table (fx p) (n_fx p) (n_steps p);
  shaped_gx : table (gx p) (n_ages p) (n_steps p);
  shaped_srb : vsize (srb p) = n_steps p;
  shaped_population : table (population p) (n_ages p) (n_steps p + 1);
  shaped_deaths : table (deaths p) (n_ages p + 1) (n_steps p);
  shaped_births : table (births p) (n_fx p) (n_steps p);
  shaped_infants : vsize (infants p) = n_steps p;
  shaped_migrations : table (migrations p) (n_ages p) (n_steps p)
}.

(** ** The full horizon in terms of the recurrence *)

(** The container that the constructor builds. *)
Definition constructed (n_ages n_steps n_fx fx_idx : Z) (age_span : Qc)
    (basepop : vec) (sx fx gx : matrix) (srb : vec) : PopulationProjection :=
  {| n_ages := n_ages; n_steps := n_steps; n_fx := n_fx; fx_idx := fx_idx;
     age_span := age_span; sx := sx; fx := fx; gx := gx; srb := srb;
     population :=
       Matrix (Z.to_nat n_ages)
         (<[0%nat := basepop]>
            (replicate (Z.to_nat (n_steps + 1)) (zeros (Z.to_nat n_ages))));
     deaths :=
       Matrix (Z.to_nat (n_ages + 1))
         (replicate (Z.to_nat n_steps) (zeros (Z.to_nat (n_ages + 1))));
     births :=
       Matrix (Z.to_nat n_fx) (replicate (Z.to_nat n_steps) (zeros (Z.to_nat n_fx)));
     infants := zeros (Z.to_nat n_steps);
     migrations :=
       Matrix (Z.to_nat n_ages) (replicate (Z.to_nat n_steps) (zeros (Z.to_nat n_ages))) |}.

(** The container after the [c] steps [k], [k + 1], ..., [k + c - 1]. *)
Fixpoint advanced (c k : nat) (p : PopulationProjection) : PopulationProjection :=
  match c with
  | O => p
  | S c' => advanced c' (S k) (stepped p k)
  end.

(** The shapes of the arguments of [ccmpp] and [ccmpp_leslie]. *)
Record valid_inputs (basepop : vec) (sx fx gx : matrix) (srb : vec) (fx_idx : Z)
    : Prop := {
  valid_ages : (1 ≤ vsize basepop)%Z;
  valid_sx : table sx (vsize basepop + 1) (mat_cols sx);
  valid_fx : table fx (mat_rows fx) (mat_cols sx);
  valid_gx : table gx (vsize basepop) (mat_cols sx);
  valid_srb : vsize srb = mat_cols sx;
  valid_fx_idx : (0 ≤ fx_idx)%Z;
  valid_window : (fx_idx + mat_rows fx ≤ vsize basepop)%Z
}.

(** ** What a step leaves alone and what it reads *)

(** The parameters of the container [p'] are those of [p]. *)
Definition same_parameters (p p' : PopulationProjection) : Prop :=
  n_ages p' = n_ages p ∧ n_steps p' = n_steps p ∧ n_fx p' = n_fx p ∧
  fx_idx p' = fx_idx p ∧ age_span p' = age_span p ∧
  sx p' = sx p ∧ fx p' = fx p ∧ gx p' = gx p ∧ srb p' = srb p.

(** Outside population column [k + 1] and column [k] of the other
    output tables, [p'] holds what [p] holds. *)
Definition unchanged_outside (p p' : PopulationProjection) (k : nat) : Prop :=
  (∀ j, j ≠ S k → columns (population p') !! j = columns (population p) !! j) ∧
  (∀ j, j ≠ k → columns (deaths p') !! j = columns (deaths p) !! j) ∧
  (∀ j, j ≠ k → columns (births p') !! j = columns (births p) !! j) ∧
  (∀ j, j ≠ k → columns (migrations p') !! j = columns (migrations p) !! j) ∧
  (∀ j, j ≠ k → infants p' !! j = infants p !! j).

(** [p] and [q] agree on everything that step [k] reads. *)
Definition reads_agree (p q : PopulationProjection) (k : nat) : Prop :=
  n_ages p = n_ages q ∧ n_fx p = n_fx q ∧ fx_idx p = fx_idx q ∧
  age_span p = age_span q ∧
  column (population p) k = column (population q) k ∧
  column (sx p) k = column (sx q) k ∧
  column (fx p) k = column (fx q) k ∧
  column (gx p) k = column (gx q) k ∧
  at_ (srb p) k = at_ (srb q) k.

(** [p'] and [q'] agree on everything that step [k] writes. *)
Definition writes_agree (p' q' : PopulationProjection) (k : nat) : Prop :=
  columns (population p') !! S k = columns (population q') !! S k ∧
  columns (deaths p') !! k = columns (deaths q') !! k ∧
  columns (births p') !! k = columns (births q') !! k ∧
  columns (migrations p') !! k = columns (migrations q') !! k ∧
  infants p' !! k = infants q' !! k.

(** ** The record of a step in a container *)

(** Columns [j] of the outputs and population column [j + 1] of [q] are
    what step [j] computes from population column [j] of [q]. *)
Definition recorded (q : PopulationProjection) (j : nat) : Prop :=
  writes_agree q (stepped q j) j.

(** Nothing of [p] at or before population column [k], or before column
    [k] of the other outputs, differs in [q]. *)
Definition settled (p q : PopulationProjection) (k : nat) : Prop :=
  (∀ j, (j ≤ k)%nat → columns (population q) !! j = columns (population p) !! j) ∧
  (∀ j, (j < k)%nat → columns (deaths q) !! j = columns (deaths p) !! j) ∧
  (∀ j, (j < k)%nat → columns (births q) !! j = columns (births p) !! j) ∧
  (∀ j, (j < k)%nat → columns (migrations q) !! j = columns (migrations p) !! j) ∧
  (∀ j, (j < k)%nat → infants q !! j = infants p !! j).

(** ** The coefficients of the Leslie matrix, as the specification
    states them *)

(** [fert_k = sx[0] * 0.5 * age_span / (1 + srb)] *)
Definition fert_k (sx : vec) (srb age_span : Qc) : Qc :=
  at_ sx 0 * half * age_span / (1 + srb).

(** The blend of the two fertility offsets at position [i] of the top
    row: [fx[i] * sx[fx_idx + i]] where [i < n_fx], plus [fx[i - 1]]
    where [0 < i]. *)
Definition fert_blend (sx fx : vec) (fx_idx i : Z) : Qc :=
  (if bool_decide (i < vsize fx)%Z
   then at_ fx (Z.to_nat i) * at_ sx (Z.to_nat (fx_idx + i)) else 0)
  + (if bool_decide (0 < i)%Z then at_ fx (Z.to_nat (i - 1)) else 0).

(** ** The stored coefficients of the Leslie matrix

    What [make_leslie_matrix] stores at [(i, j)]: the top-row fertility
    block in columns [fx_idx - 1 .. fx_idx - 1 + n_fx], the sub-diagonal
    and the terminal coefficient of the open age group; [dim] is
    [n_ages]. *)
Definition leslie_stored (sx fx : vec) (srb age_span : Qc) (fx_idx : Z)
    (i j : Z) : option Qc :=
  let dim := (vsize sx - 1)%Z in
  if bool_decide (i = 0 ∧ fx_idx - 1 ≤ j ≤ fx_idx - 1 + vsize fx)%Z then
    Some (fert_blend sx fx fx_idx (j - (fx_idx - 1)) * fert_k sx srb age_span)
  else if bool_decide (1 ≤ i ≤ dim - 1 ∧ j = i - 1)%Z then
    Some (at_ sx (Z.to_nat i))
  else if bool_decide (i = dim - 1 ∧ j = dim - 1)%Z then
    Some (at_ sx (Z.to_nat dim))
  else None.

(** ** The recurrence computed by one matrix-form step *)

(** Column [leslie * (prev + 0.5 * migrants) + 0.5 * migrants], with the
    coefficients of [leslie] read from [leslie_stored]. *)
Definition leslie_next (sxv fxv gxv : vec) (srb age_span : Qc) (fx_idx : Z)
    (prev : vec) : vec :=
  let n := length prev in
  tabulate n (fun i =>
    sum_upto n (fun j =>
      default 0 (leslie_stored sxv fxv srb age_span fx_idx (Z.of_nat i) (Z.of_nat j))
      * exposed_at (at_ prev) (at_ gxv) j)
    + half * migrants_at (at_ prev) (at_ gxv) i).

(** The population table after step [k] of the matrix form. *)
Definition leslie_stepped (sx fx gx : matrix) (srb : vec) (age_span : Qc)
    (fx_idx : Z) (k : nat) (population : matrix) : matrix :=
  Matrix (nrows population)
    (<[S k := leslie_next (column sx k) (column fx k) (column gx k) (at_ srb k)
                age_span fx_idx (column population k)]> (columns population)).

(** ** Division by zero *)

(** A computation that does not end in the division-by-zero branch. *)
Definition no_div0 {A} (r : result A) : Prop := r ≠ Err DivisionByZero.

(** ** Concrete inputs *)

Definition q_ (z : Z) : Qc := Q2Qc (inject_Z z).

(** A table with the single column [c]. *)
Definition one_column (c : vec) : matrix := Matrix (length c) [c].

(** The boundary scenario: three age groups, full survival, no
    fertility, no migration, one step. *)
Definition boundary_basepop : vec := [q_ 100; q_ 100; q_ 100].
Definition boundary_sx : matrix := one_column [1; 1; 1; 1].
Definition boundary_fx : matrix := one_column [0].
Definition boundary_gx : matrix := one_column [0; 0; 0].
Definition boundary_srb : vec := [0].
Definition boundary (age_span : Qc) : PopulationProjection :=
  constructed 3 1 1 1 age_span boundary_basepop boundary_sx boundary_fx
    boundary_gx boundary_srb.

(** Three age groups with mortality, fertility in the middle group and
    migration, one step of five years. *)
Definition sample : PopulationProjection :=
  constructed 3 1 1 1 (q_ 5) [q_ 100; q_ 80; q_ 60]
    (one_column [Q2Qc (9 # 10); Q2Qc (4 # 5); Q2Qc (7 # 10); half])
    (one_column [Q2Qc (1 # 5)])
    (one_column [Q2Qc (1 # 10); 0; Q2Qc (-1 # 10)])
    [Q2Qc (21 # 20)].

(** Two age groups whose open group is fertile. *)
Definition fertile_open_basepop : vec := [1; 1].
Definition fertile_open_sx_column : vec := [1; 1; 1].
Definition fertile_open_fx_column : vec := [1].
Definition fertile_open_sx : matrix := one_column fertile_open_sx_column.
Definition fertile_open_fx : matrix := one_column fertile_open_fx_column.
Definition fertile_open_gx : matrix := one_column [0; 0].
Definition fertile_open_srb : vec := [0].

(** A single age group, full survival, no fertile group. *)
Definition single_group_sx_column : vec := [1; 1].
Definition single_group : PopulationProjection :=
  constructed 1 1 0 1 1 [1] (one_column single_group_sx_column) (Matrix 0 [[]])
    (one_column [0]) [0].

(** Three age groups over two steps, with mortality, fertility in the
    middle group and immigration in the first step; [two_steps_other] is
    a second base population for the same rates and [two_steps_no_fx] a
    fertility table without fertility. *)
Definition two_steps_basepop : vec := [q_ 100; q_ 80; q_ 60].
Definition two_steps_other : vec := [q_ 10; 0; q_ 5].
Definition two_steps_sx : matrix :=
  Matrix 4 [[Q2Qc (9 # 10); Q2Qc (4 # 5); Q2Qc (7 # 10); half];
            [Q2Qc (9 # 10); Q2Qc (4 # 5); Q2Qc (3 # 5); half]].
Definition two_steps_fx : matrix := Matrix 1 [[Q2Qc (1 # 5)]; [Q2Qc (1 # 4)]].
Definition two_steps_no_fx : matrix := Matrix 1 [[0]; [0]].
Definition two_steps_gx : matrix :=
  Matrix 3 [[Q2Qc (1 # 10); 0; Q2Qc (1 # 20)]; [0; 0; 0]].
Definition two_steps_srb : vec := [Q2Qc (21 # 20); 1].

(** The first [c] columns of a table, and the columns from column [c] on. *)
Definition first_columns (c : nat) (t : matrix) : matrix :=
  Matrix (nrows t) (take c (columns t)).
Definition later_columns (c : nat) (t : matrix) : matrix :=
  Matrix (nrows t) (drop c (columns t)).

(** Three age groups whose open group is the fertile one. *)
Definition sample_fertile_open : PopulationProjection :=
  constructed 3 1 1 2 (q_ 5) [q_ 100; q_ 80; q_ 60]
    (one_column [Q2Qc (9 # 10); Q2Qc (4 # 5); Q2Qc (7 # 10); half])
    (one_column [Q2Qc (1 # 5)])
    (one_column [Q2Qc (1 # 10); 0; Q2Qc (-1 # 10)])
    [Q2Qc (21 # 20)].

(** A table without columns: a horizon without steps. *)
Definition no_steps (rows : nat) : matrix := Matrix rows [].

(** * Lemmas *)

(** ** Lemmas: the result monad *)

Lemma bind_Ok {A B} (a : A) (f : A → result B) : (Ok a ≫= f) = f a.
Proof. reflexivity. Qed.

Lemma bind_runs {A B} (r : result A) (a : A) (f : A → result B) (b : result B) :
  r = Ok a → f a = b → (r ≫= f) = b.
Proof. by intros -> <-. Qed.

Lemma bind_Ok_inv {A B} (r : result A) (f : A → result B) (b : B) :
  (r ≫= f) = Ok b → ∃ a, r = Ok a ∧ f a = Ok b.
Proof. destruct r as [a | e]; [eauto | discriminate]. Qed.

(** ** Lemmas: tabulated vectors *)

Lemma length_tabulate n F : length (tabulate n F) = n.
Proof. unfold tabulate. by rewrite length_fmap, length_seq. Qed.

Lemma vsize_tabulate n F : vsize (tabulate n F) = Z.of_nat n.
Proof. unfold vsize. by rewrite length_tabulate. Qed.

Lemma lookup_tabulate n F i : (i < n)%nat → tabulate n F !! i = Some (F i).
Proof.
  intros Hi. unfold tabulate. rewrite list_lookup_fmap, lookup_seq_lt by done.
  reflexivity.
Qed.

Lemma at_tabulate n F i : (i < n)%nat → at_ (tabulate n F) i = F i.
Proof. intros Hi. unfold at_. by rewrite lookup_tabulate. Qed.

Lemma at_outside (v : vec) i : (length v ≤ i)%nat → at_ v i = 0.
Proof. intros Hi. unfold at_. by rewrite lookup_ge_None_2. Qed.

Lemma tabulate_ext n F G :
  (∀ i, (i < n)%nat → F i = G i) → tabulate n F = tabulate n G.
Proof.
  intros HFG. apply list_eq. intros i.
  destruct (decide (i < n)%nat) as [Hi | Hi].
  - rewrite !lookup_tabulate by done. f_equal. auto.
  - rewrite !lookup_ge_None_2; [done | rewrite length_tabulate; lia ..].
Qed.

Lemma tabulate_at (v : vec) : v = tabulate (length v) (at_ v).
Proof.
  apply list_eq. intros i. destruct (v !! i) as [x |] eqn:Hx.
  - rewrite lookup_tabulate by (by eapply lookup_lt_Some).
    unfold at_. by rewrite Hx.
  - rewrite lookup_ge_None_2; [done |].
    rewrite length_tabulate. by apply lookup_ge_None.
Qed.

Lemma tabulate_S n F : tabulate (S n) F = tabulate n F ++ [F n].
Proof. unfold tabulate. rewrite seq_S, fmap_app. reflexivity. Qed.

Lemma tabulate_cons n F : tabulate (S n) F = F 0%nat :: tabulate n (fun i => F (S i)).
Proof.
  unfold tabulate. cbn [seq fmap list_fmap]. f_equal.
  rewrite <- fmap_S_seq, <- list_fmap_compose. reflexivity.
Qed.

Lemma zip_with_tabulate op n F G :
  zip_with op (tabulate n F) (tabulate n G) = tabulate n (fun i => op (F i) (G i)).
Proof.
  unfold tabulate. rewrite zip_with_fmap_l, zip_with_fmap_r, zip_with_diag.
  reflexivity.
Qed.

Lemma fmap_tabulate (h : Qc → Qc) n F :
  h <$> tabulate n F = tabulate n (fun i => h (F i)).
Proof. unfold tabulate. by rewrite <- list_fmap_compose. Qed.

Lemma take_drop_tabulate s m n F :
  (s + m ≤ n)%nat → take m (drop s (tabulate n F)) = tabulate m (fun i => F (s + i)%nat).
Proof.
  intros Hle. apply list_eq. intros i.
  destruct (decide (i < m)%nat) as [Hi | Hi].
  - rewrite lookup_take_lt, lookup_drop, !lookup_tabulate by lia. reflexivity.
  - rewrite lookup_take_ge by lia.
    rewrite lookup_ge_None_2; [done | rewrite length_tabulate; lia].
Qed.

Lemma insert_tabulate n F i x :
  <[i := x]> (tabulate n F) = tabulate n (fun j => if decide (j = i) then x else F j).
Proof.
  apply list_eq. intros j.
  destruct (decide (j < n)%nat) as [Hj | Hj].
  - rewrite lookup_tabulate by done.
    destruct (decide (j = i)) as [-> | Hne].
    + rewrite list_lookup_insert_eq by (rewrite length_tabulate; lia). reflexivity.
    + rewrite list_lookup_insert_ne by done. by rewrite lookup_tabulate.
  - rewrite !lookup_ge_None_2; [done | |];
      rewrite ?length_insert, length_tabulate; lia.
Qed.

Lemma splice_tabulate s m n F R :
  (s + m ≤ n)%nat →
  take s (tabulate n F) ++ tabulate m R ++ drop (s + m) (tabulate n F)
  = tabulate n (fun i => if decide (s ≤ i < s + m)%nat then R (i - s)%nat else F i).
Proof.
  intros Hle. apply list_eq. intros i.
  destruct (decide (i < n)%nat) as [Hi | Hi].
  - rewrite lookup_tabulate by done.
    destruct (decide (i < s)%nat) as [Hs | Hs].
    + rewrite lookup_app_l by (rewrite length_take, length_tabulate; lia).
      rewrite lookup_take_lt, lookup_tabulate by lia.
      case_decide; [lia | done].
    + rewrite lookup_app_r by (rewrite length_take, length_tabulate; lia).
      rewrite length_take, length_tabulate.
      replace (s `min` n)%nat with s by lia.
      destruct (decide (i < s + m)%nat) as [Hm | Hm].
      * rewrite lookup_app_l by (rewrite length_tabulate; lia).
        rewrite lookup_tabulate by lia. case_decide; [done | lia].
      * rewrite lookup_app_r by (rewrite length_tabulate; lia).
        rewrite length_tabulate, lookup_drop, lookup_tabulate by lia.
        case_decide; [lia |]. do 2 f_equal. lia.
  - rewrite !lookup_ge_None_2; [done | |];
      rewrite ?length_app, ?length_take, ?length_drop, ?length_tabulate; lia.
Qed.

(** ** Lemmas: the vector operations on tabulated vectors *)

Lemma in_range_true i len : (0 ≤ i < len)%Z → in_range i len = true.
Proof. intros. unfold in_range. by apply bool_decide_eq_true_2. Qed.

Lemma vcoeff_tabulate n F i :
  (0 ≤ i < Z.of_nat n)%Z → vcoeff (tabulate n F) i = Ok (F (Z.to_nat i)).
Proof.
  intros Hi. unfold vcoeff. rewrite vsize_tabulate, in_range_true by done.
  rewrite lookup_tabulate by lia. reflexivity.
Qed.

Lemma vset_tabulate n F i x :
  (0 ≤ i < Z.of_nat n)%Z →
  vset (tabulate n F) i x
  = Ok (tabulate n (fun j => if decide (j = Z.to_nat i) then x else F j)).
Proof.
  intros Hi. unfold vset. rewrite vsize_tabulate, in_range_true by done.
  by rewrite insert_tabulate.
Qed.

Lemma segment_tabulate n F s m :
  (0 ≤ s)%Z → (s + Z.of_nat m ≤ Z.of_nat n)%Z →
  segment (tabulate n F) s (Z.of_nat m)
  = Ok (tabulate m (fun i => F (Z.to_nat s + i)%nat)).
Proof.
  intros Hs Hle. unfold segment. rewrite vsize_tabulate.
  rewrite bool_decide_eq_true_2 by lia.
  rewrite Nat2Z.id, take_drop_tabulate by lia. reflexivity.
Qed.

Lemma segment_assign_tabulate n F s m R :
  (0 ≤ s)%Z → (s + Z.of_nat m ≤ Z.of_nat n)%Z →
  segment_assign (tabulate n F) s (Z.of_nat m) (tabulate m R)
  = Ok (tabulate n (fun i =>
          if decide (Z.to_nat s ≤ i < Z.to_nat s + m)%nat
          then R (i - Z.to_nat s)%nat else F i)).
Proof.
  intros Hs Hle. unfold segment_assign. rewrite !vsize_tabulate.
  rewrite bool_decide_eq_true_2 by lia.
  rewrite bool_decide_eq_true_2 by lia.
  rewrite Z2Nat.inj_add, Nat2Z.id by lia.
  rewrite splice_tabulate by lia. reflexivity.
Qed.

Lemma sdiv_Ok x y : y ≠ 0 → sdiv x y = Ok (x / y).
Proof. intros Hy. unfold sdiv. by rewrite decide_False. Qed.

Lemma cwise_tabulate op n F G :
  cwise op (tabulate n F) (tabulate n G) = Ok (tabulate n (fun i => op (F i) (G i))).
Proof.
  unfold cwise. rewrite !length_tabulate, bool_decide_eq_true_2 by done.
  by rewrite zip_with_tabulate.
Qed.

Lemma assign_tabulate n F G : assign (tabulate n F) (tabulate n G) = Ok (tabulate n G).
Proof. unfold assign. by rewrite !length_tabulate, bool_decide_eq_true_2. Qed.

Lemma scale_tabulate c n F : scale c (tabulate n F) = tabulate n (fun i => c * F i).
Proof. apply fmap_tabulate. Qed.

Lemma scalar_minus_tabulate c n F :
  scalar_minus c (tabulate n F) = tabulate n (fun i => c - F i).
Proof. apply fmap_tabulate. Qed.

Lemma zeros_tabulate n : zeros n = tabulate n (fun _ => 0).
Proof.
  apply list_eq. intros i. unfold zeros.
  destruct (decide (i < n)%nat).
  - rewrite lookup_tabulate, lookup_replicate_2 by done. reflexivity.
  - rewrite !lookup_ge_None_2; [done | |];
      rewrite ?length_replicate, ?length_tabulate; lia.
Qed.

(** ** Lemmas: sums *)

Lemma vsum_app u v : vsum (u ++ v) = vsum u + vsum v.
Proof.
  unfold vsum. induction u as [| x u IH]; cbn [app foldr].
  - ring.
  - rewrite IH. ring.
Qed.

Lemma sum_upto_0 F : sum_upto 0 F = 0.
Proof. reflexivity. Qed.

Lemma sum_upto_S n F : sum_upto (S n) F = sum_upto n F + F n.
Proof.
  unfold sum_upto. rewrite tabulate_S, vsum_app.
  unfold vsum at 2. cbn [foldr]. ring.
Qed.

Lemma sum_upto_cons n F : sum_upto (S n) F = F 0%nat + sum_upto n (fun i => F (S i)).
Proof. unfold sum_upto. rewrite tabulate_cons. reflexivity. Qed.

Lemma sum_upto_ext n F G :
  (∀ i, (i < n)%nat → F i = G i) → sum_upto n F = sum_upto n G.
Proof. intros HFG. unfold sum_upto. by rewrite (tabulate_ext n F G). Qed.

Lemma sum_upto_plus n F G :
  sum_upto n (fun i => F i + G i) = sum_upto n F + sum_upto n G.
Proof.
  induction n as [| n IH]; [rewrite !sum_upto_0; ring |].
  rewrite !sum_upto_S, IH. ring.
Qed.

Lemma sum_upto_scale c n F : sum_upto n (fun i => c * F i) = c * sum_upto n F.
Proof.
  induction n as [| n IH]; [rewrite !sum_upto_0; ring |].
  rewrite !sum_upto_S, IH. ring.
Qed.

Lemma sum_upto_zero n F : (∀ i, (i < n)%nat → F i = 0) → sum_upto n F = 0.
Proof.
  intros HF. induction n as [| n IH]; [reflexivity |].
  rewrite sum_upto_S, IH, HF by auto with lia. ring.
Qed.

Lemma vsum_tabulate n F : vsum (tabulate n F) = sum_upto n F.
Proof. reflexivity. Qed.

Lemma vsum_at (v : vec) : vsum v = sum_upto (length v) (at_ v).
Proof. unfold sum_upto. by rewrite <- tabulate_at. Qed.

(** ** Lemmas: the aging loop *)

Lemma reverse_seqZ_S m c :
  reverse (seqZ m (Z.of_nat (S c))) = (m + Z.of_nat c)%Z :: reverse (seqZ m (Z.of_nat c)).
Proof. rewrite seqZ_S, reverse_snoc. reflexivity. Qed.

Lemma aging_loop_count n D F c :
  (c < n)%nat →
  for_each (reverse (seqZ 1 (Z.of_nat c))) (fun age population_t =>
      younger ← vcoeff population_t (age - 1);
      d ← vcoeff (tabulate (S n) D) age;
      vset population_t age (younger - d)) (tabulate n F)
  = Ok (tabulate n (fun i => if decide (1 ≤ i ≤ c)%nat then F (i - 1)%nat - D i else F i)).
Proof.
  revert F. induction c as [| c IH]; intros F Hc.
  - cbn [for_each Z.of_nat seqZ reverse]. f_equal. apply tabulate_ext.
    intros i _. case_decide; [lia | done].
  - rewrite reverse_seqZ_S. cbn [for_each].
    rewrite (vcoeff_tabulate n F) by lia. rewrite bind_Ok.
    rewrite (vcoeff_tabulate (S n) D) by lia. rewrite bind_Ok.
    rewrite vset_tabulate by lia. rewrite bind_Ok.
    rewrite IH by lia. f_equal. apply tabulate_ext. intros i Hi.
    replace (Z.to_nat (1 + Z.of_nat c)) with (S c) by lia.
    replace (Z.to_nat (1 + Z.of_nat c - 1)) with c by lia.
    repeat case_decide; try lia; try reflexivity.
    subst i. replace (S c - 1)%nat with c by lia. reflexivity.
Qed.

Lemma aging_loop_tabulate n D F :
  (1 ≤ n)%nat →
  aging_loop (Z.of_nat n) (tabulate (S n) D) (tabulate n F)
  = Ok (tabulate n (fun i => if decide (1 ≤ i ≤ n - 1)%nat then F (i - 1)%nat - D i else F i)).
Proof.
  intros Hn. unfold aging_loop.
  replace (Z.of_nat n - 1)%Z with (Z.of_nat (n - 1)) by lia.
  apply aging_loop_count. lia.
Qed.

(** ** Lemmas: vectors and tables of a known shape *)

Lemma vcoeff_at (v : vec) i :
  (0 ≤ i < vsize v)%Z → vcoeff v i = Ok (at_ v (Z.to_nat i)).
Proof.
  intros Hi. rewrite (tabulate_at v) at 1. rewrite vcoeff_tabulate; [done |].
  unfold vsize in Hi. lia.
Qed.

Lemma vset_insert (v : vec) i x :
  (0 ≤ i < vsize v)%Z → vset v i x = Ok (<[Z.to_nat i := x]> v).
Proof. intros Hi. unfold vset. by rewrite in_range_true. Qed.

Lemma table_column t r c k :
  table t r c → (Z.of_nat k < c)%Z →
  columns t !! k = Some (column t k) ∧ length (column t k) = Z.to_nat r.
Proof.
  intros (Hr & Hc & Hall) Hk. unfold mat_cols in Hc.
  destruct (lookup_lt_is_Some_2 (columns t) k) as [v Hv]; [lia |].
  unfold column. rewrite Hv. split; [done |]. cbn.
  rewrite Forall_forall in Hall.
  assert (vsize v = r) as Hlen by (eapply Hall, list_elem_of_lookup_2, Hv).
  unfold vsize in Hlen. lia.
Qed.

Lemma col_table t r c k :
  table t r c → (Z.of_nat k < c)%Z → col t (Z.of_nat k) = Ok (column t k).
Proof.
  intros Ht Hk. destruct (table_column t r c k Ht Hk) as [Hcol _].
  unfold col. destruct Ht as (_ & Hc & _).
  rewrite in_range_true by lia. by rewrite Nat2Z.id, Hcol.
Qed.

Lemma col_map_table t r c k :
  table t r c → (0 ≤ r)%Z → (Z.of_nat k < c)%Z →
  col_map t (Z.of_nat k) r = Ok (column t k).
Proof.
  intros Ht Hr Hk. unfold col_map. rewrite (col_table t r c) by done.
  rewrite bind_Ok. destruct (table_column t r c k Ht Hk) as [_ Hlen].
  rewrite bool_decide_eq_true_2; [done |]. unfold vsize. lia.
Qed.

Lemma set_col_table t r c k (v : vec) :
  table t r c → (0 ≤ r)%Z → (Z.of_nat k < c)%Z → length v = Z.to_nat r →
  set_col t (Z.of_nat k) v = Ok (Matrix (nrows t) (<[k := v]> (columns t))).
Proof.
  intros (Hr & Hc & _) Hr0 Hk Hlen. unfold set_col.
  rewrite in_range_true by lia. unfold mat_rows in Hr.
  rewrite bool_decide_eq_true_2 by lia. by rewrite Nat2Z.id.
Qed.

Lemma table_set_col t r c k (v : vec) :
  table t r c → vsize v = r →
  table (Matrix (nrows t) (<[k := v]> (columns t))) r c.
Proof.
  intros (Hr & Hc & Hall) Hv. repeat split.
  - done.
  - unfold mat_cols in *. cbn [columns]. by rewrite length_insert.
  - cbn [columns]. by apply Forall_insert.
Qed.

Lemma column_set_col_eq t k (v : vec) :
  (k < length (columns t))%nat →
  column (Matrix (nrows t) (<[k := v]> (columns t))) k = v.
Proof. intros Hk. unfold column. cbn [columns]. by rewrite list_lookup_insert_eq. Qed.

Lemma column_set_col_ne t k j (v : vec) :
  j ≠ k → column (Matrix (nrows t) (<[k := v]> (columns t))) j = column t j.
Proof. intros Hne. unfold column. cbn [columns]. by rewrite list_lookup_insert_ne. Qed.

Lemma lookup_at (v : vec) i : (i < length v)%nat → v !! i = Some (at_ v i).
Proof.
  intros Hi. destruct (lookup_lt_is_Some_2 v i Hi) as [x Hx].
  unfold at_. by rewrite Hx.
Qed.

Lemma stored_entry t r c i j :
  table t r c → (Z.of_nat i < r)%Z → (Z.of_nat j < c)%Z →
  stored t i j = Some (entry t i j).
Proof.
  intros Ht Hi Hj. destruct (table_column _ _ _ j Ht Hj) as [Hcol Hlen].
  unfold stored, entry. rewrite Hcol. cbn. apply lookup_at. lia.
Qed.

(** ** Lemmas: the direct step computes the recurrence *)

Tactic Notation "statement" constr(v) "by" tactic3(t) :=
  eapply (bind_runs _ v); [ solve [t] | cbv beta ].

Lemma step_projection_runs p k :
  shaped p → (Z.of_nat k < n_steps p)%Z → 1 + at_ (srb p) k ≠ 0 →
  step_projection p (Z.of_nat k) = Ok (stepped p k).
Proof.
  intros [Hages Hsteps Hidx Hnfx Hwin Hsx Hfx Hgx Hsrb Hpop Hd Hb Hi Hm] Hk Hr.
  unfold step_projection, stepped.
  (* the sizes as natural numbers *)
  destruct (Z_of_nat_complete (n_ages p)) as [n En]; [lia |].
  destruct (Z_of_nat_complete (fx_idx p)) as [idx Eidx]; [lia |].
  destruct (Z_of_nat_complete (n_fx p)) as [m Em]; [lia |].
  rewrite En, Eidx, Em in *. rewrite !Nat2Z.id.
  pose proof (table_column _ _ _ k Hsx Hk) as [_ Lsx].
  pose proof (table_column _ _ _ k Hfx Hk) as [_ Lfx].
  pose proof (table_column _ _ _ k Hgx Hk) as [_ Lgx].
  pose proof (table_column _ _ _ k Hpop ltac:(lia)) as [_ Lprev].
  pose proof (table_column _ _ _ (S k) Hpop ltac:(lia)) as [_ Lnext].
  pose proof (table_column _ _ _ k Hm Hk) as [_ Lmig].
  pose proof (table_column _ _ _ k Hd Hk) as [_ Ldth].
  pose proof (table_column _ _ _ k Hb Hk) as [_ Lbth].
  rewrite Nat2Z.id in Lfx, Lgx, Lprev, Lnext, Lmig, Lbth.
  replace (Z.to_nat (Z.of_nat n + 1)) with (S n) in Lsx, Ldth by lia.
  (* the maps *)
  rewrite (col_map_table _ _ _ k Hsx) by lia. rewrite bind_Ok.
  rewrite (proj1 Hfx), (col_map_table _ _ _ k Hfx) by lia. rewrite bind_Ok.
  rewrite (col_map_table _ _ _ k Hgx) by lia. rewrite bind_Ok.
  replace (Z.of_nat k + 1)%Z with (Z.of_nat (S k)) by lia.
  rewrite (proj1 Hpop), (col_map_table _ _ _ (S k) Hpop) by lia. rewrite bind_Ok.
  rewrite (proj1 Hm), (col_map_table _ _ _ k Hm) by lia. rewrite bind_Ok.
  rewrite (proj1 Hd), (col_map_table _ _ _ k Hd) by lia. rewrite bind_Ok.
  rewrite (proj1 Hb), (col_map_table _ _ _ k Hb) by lia. rewrite bind_Ok.
  rewrite (vcoeff_at (infants p)) by lia. rewrite bind_Ok.
  rewrite (col_table _ _ _ k Hpop) by lia. rewrite bind_Ok.
  rewrite (vcoeff_at (srb p)) by lia. rewrite Nat2Z.id.
  (* the columns by their coefficients *)
  set (Pop := at_ (column (population p) k)).
  set (Sx := at_ (column (sx p) k)).
  set (Fx := at_ (column (fx p) k)).
  set (Gx := at_ (column (gx p) k)).
  rewrite (tabulate_at (column (population p) k)), Lprev. fold Pop.
  rewrite (tabulate_at (column (sx p) k)), Lsx. fold Sx.
  rewrite (tabulate_at (column (fx p) k)), Lfx. fold Fx.
  rewrite (tabulate_at (column (gx p) k)), Lgx. fold Gx.
  rewrite (tabulate_at (column (population p) (S k))), Lnext.
  rewrite (tabulate_at (column (migrations p) k)), Lmig.
  rewrite (tabulate_at (column (deaths p) k)), Ldth.
  rewrite (tabulate_at (column (births p) k)), Lbth.
  clearbody Pop Sx Fx Gx.
  (* the statements of the step, one by one *)
  set (mig := migrants_at Pop Gx).
  set (w := exposed_at Pop Gx).
  set (died := died_at Pop Sx Gx).
  set (D1 := fun j : nat => if decide (j = 0)%nat then at_ (column (deaths p) k) 0%nat else died j).
  set (shifted := shifted_at n Pop Sx Gx).
  set (aged := aged_at n Pop Sx Gx).
  set (inf := infants_of n idx m (age_span p) (at_ (srb p) k) Pop Sx Fx Gx).
  statement (tabulate n Pop) by (apply assign_tabulate).
  statement (tabulate n mig) by (apply cwise_tabulate).
  statement (tabulate n mig) by (apply assign_tabulate).
  statement (tabulate n w) by (rewrite scale_tabulate; apply cwise_tabulate).
  statement (tabulate n (fun i => Sx (S i))) by (rewrite segment_tabulate by lia; reflexivity).
  statement (tabulate n (fun i => w i * (1 - Sx (S i))))
    by (rewrite scalar_minus_tabulate; apply cwise_tabulate).
  statement (tabulate (S n) D1)
    by (rewrite segment_assign_tabulate by lia; f_equal; apply tabulate_ext;
        intros j Hlt; unfold D1, died, died_at; fold w;
        change (Z.to_nat 1) with 1%nat; repeat case_decide; subst; try lia; try done;
        replace (S (j - 1)) with j by lia; reflexivity).
  statement (tabulate m (fun i => w (idx + i)%nat))
    by (rewrite segment_tabulate by lia; rewrite Nat2Z.id; reflexivity).
  statement (tabulate m (fun i => half * age_span p * Fx i * w (idx + i)%nat))
    by (rewrite scale_tabulate; apply cwise_tabulate).
  statement (tabulate m (fun i => half * age_span p * Fx i * w (idx + i)%nat))
    by (apply assign_tabulate).
  statement (w (n - 1)%nat)
    by (rewrite vcoeff_tabulate by lia; do 2 f_equal; lia).
  statement (died n)
    by (rewrite vcoeff_tabulate by lia; rewrite Nat2Z.id; unfold D1;
        rewrite decide_False by lia; reflexivity).
  statement (tabulate n shifted)
    by (rewrite aging_loop_tabulate by lia; f_equal; apply tabulate_ext;
        intros i Hlt; unfold shifted, shifted_at, D1; fold w; fold died;
        repeat case_decide; subst; try lia; reflexivity).
  statement (shifted (n - 1)%nat)
    by (rewrite vcoeff_tabulate by lia; do 2 f_equal; lia).
  statement (tabulate n aged)
    by (rewrite vset_tabulate by lia; f_equal; apply tabulate_ext;
        intros i Hlt; unfold aged, aged_at, open_age_survivors; fold w; fold died; fold shifted;
        replace (Z.to_nat (Z.of_nat n - 1)) with (n - 1)%nat by lia;
        repeat case_decide; subst; try lia; reflexivity).
  statement (tabulate m (fun i => aged (idx + i)%nat))
    by (rewrite segment_tabulate by lia; rewrite Nat2Z.id; reflexivity).
  statement (tabulate m (fun i => half * age_span p * Fx i * aged (idx + i)%nat))
    by (rewrite scale_tabulate; apply cwise_tabulate).
  statement (tabulate m (births_at n idx (age_span p) Pop Sx Fx Gx))
    by (apply cwise_tabulate).
  rewrite bind_Ok.
  statement inf by (apply sdiv_Ok, Hr).
  statement (Sx 0%nat) by (apply vcoeff_tabulate; lia).
  statement (tabulate (S n) (deaths_at n idx m (age_span p) (at_ (srb p) k) Pop Sx Fx Gx))
    by (rewrite vset_tabulate by lia; f_equal; apply tabulate_ext;
        intros j Hlt; unfold deaths_at, D1; fold inf; fold died;
        change (Z.to_nat 0) with 0%nat; repeat case_decide; subst; try lia; reflexivity).
  statement (deaths_at n idx m (age_span p) (at_ (srb p) k) Pop Sx Fx Gx 0)
    by (apply vcoeff_tabulate; lia).
  statement (tabulate n (fun i =>
      if decide (i = 0)%nat
      then inf - deaths_at n idx m (age_span p) (at_ (srb p) k) Pop Sx Fx Gx 0
      else aged i))
    by (rewrite vset_tabulate by lia; reflexivity).
  statement (tabulate n (next_population_at n idx m (age_span p) (at_ (srb p) k) Pop Sx Fx Gx))
    by (rewrite scale_tabulate; apply cwise_tabulate).
  (* the contents of the maps, back in the tables *)
  rewrite (set_col_table _ _ _ (S k) _ Hpop) by (rewrite ?length_tabulate; lia).
  rewrite bind_Ok.
  rewrite (set_col_table _ _ _ k _ Hm) by (rewrite ?length_tabulate; lia).
  rewrite bind_Ok.
  rewrite (set_col_table _ _ _ k _ Hd) by (rewrite ?length_tabulate; lia).
  rewrite bind_Ok.
  rewrite (set_col_table _ _ _ k _ Hb) by (rewrite ?length_tabulate; lia).
  rewrite bind_Ok.
  rewrite vset_insert by lia. rewrite bind_Ok, Nat2Z.id.
  reflexivity.
Qed.

(** ** Lemmas: algebra of the recurrence *)

Lemma srb_denominator (r : Qc) : r ≠ - (1) → 1 + r ≠ 0.
Proof. intros Hr H0. apply Hr. rewrite <- (Qcplus_0_l (- (1))), <- H0. ring. Qed.

Lemma srb_above_minus_one (r : Qc) : - (1) < r → r ≠ - (1).
Proof. intros Hlt ->. by apply Qclt_not_eq in Hlt. Qed.

Lemma sum_first_last n n2 F :
  n = S (S n2) →
  sum_upto n F = F 0%nat + sum_upto n2 (fun i => F (S i)) + F (S n2).
Proof. intros ->. rewrite sum_upto_cons, sum_upto_S. ring. Qed.

Lemma sum_last_two n n2 F :
  n = S (S n2) → sum_upto n F = sum_upto n2 F + F n2 + F (S n2).
Proof. intros ->. by rewrite !sum_upto_S. Qed.

Section RecurrenceFacts.
Variables (n idx m : nat) (span r : Qc) (Pop Sx Fx Gx : nat → Qc).

Local Abbreviation mig := (migrants_at Pop Gx).
Local Abbreviation w := (exposed_at Pop Gx).
Local Abbreviation died := (died_at Pop Sx Gx).
Local Abbreviation aged := (aged_at n Pop Sx Gx).
Local Abbreviation births := (births_at n idx span Pop Sx Fx Gx).
Local Abbreviation inf := (infants_of n idx m span r Pop Sx Fx Gx).
Local Abbreviation dth := (deaths_at n idx m span r Pop Sx Fx Gx).
Local Abbreviation next := (next_population_at n idx m span r Pop Sx Fx Gx).

Lemma next_population_youngest :
  next 0%nat = inf - dth 0%nat + half * mig 0%nat.
Proof. unfold next_population_at. by rewrite decide_True. Qed.

Lemma deaths_infant : dth 0%nat = inf * (1 - Sx 0%nat).
Proof. unfold deaths_at. by rewrite decide_True. Qed.

Lemma deaths_later j : (1 ≤ j)%nat → dth j = died j.
Proof. intros Hj. unfold deaths_at. by rewrite decide_False by lia. Qed.

Lemma next_population_middle i :
  (1 ≤ i < n - 1)%nat →
  next i = (w (i - 1)%nat - dth i) + half * mig i.
Proof.
  intros Hi. unfold next_population_at, aged_at, shifted_at.
  rewrite (deaths_later i) by lia.
  rewrite (decide_False (P := i = 0%nat)) by lia.
  rewrite (decide_False (P := i = (n - 1)%nat)) by lia.
  by rewrite decide_True by lia.
Qed.

Lemma next_population_oldest :
  (2 ≤ n)%nat →
  next (n - 1)%nat
  = (w (n - 2)%nat - dth (n - 1)%nat) + (w (n - 1)%nat - dth n)
    + half * mig (n - 1)%nat.
Proof.
  intros Hn. unfold next_population_at, aged_at, shifted_at, open_age_survivors.
  rewrite (deaths_later n), (deaths_later (n - 1)) by lia.
  rewrite (decide_False (P := (n - 1)%nat = 0%nat)) by lia.
  rewrite (decide_True (P := (n - 1)%nat = (n - 1)%nat)) by lia.
  rewrite decide_True by lia.
  replace (n - 1 - 1)%nat with (n - 2)%nat by lia. reflexivity.
Qed.

(** Every person of the exposed population is in the next population
    or among the deaths; the infants and the second half of the
    migrants come on top. *)
Lemma step_balance :
  (2 ≤ n)%nat →
  sum_upto n next + sum_upto (S n) dth
  = inf + sum_upto n w + half * sum_upto n mig.
Proof.
  intros Hn.
  assert (∃ n2, n = S (S n2)) as [n2 En] by (exists (n - 2)%nat; lia).
  assert (∀ i, (i < n2)%nat →
            next (S i) + dth (S i) = w i + half * mig (S i)) as Hmiddle.
  { intros i Hi. rewrite next_population_middle by lia.
    replace (S i - 1)%nat with i by lia. ring. }
  assert (next (S n2) + dth (S n2)
          = w n2 + half * mig (S n2) + (w (S n2) - dth n)) as Holdest.
  { replace (S n2) with (n - 1)%nat by lia.
    rewrite next_population_oldest by lia.
    replace (n - 2)%nat with n2 by lia. ring. }
  rewrite (sum_upto_S n dth), Qcplus_assoc, <- sum_upto_plus.
  rewrite (sum_first_last n n2 (fun i => next i + dth i) En).
  rewrite (sum_last_two n n2 w En), (sum_first_last n n2 mig En).
  rewrite (sum_upto_ext n2 _ (fun i => w i + half * mig (S i))) by exact Hmiddle.
  rewrite Holdest, next_population_youngest.
  rewrite sum_upto_plus, sum_upto_scale. ring.
Qed.

Lemma exposed_total :
  sum_upto n w = sum_upto n Pop + half * sum_upto n mig.
Proof. unfold exposed_at. by rewrite sum_upto_plus, sum_upto_scale. Qed.

Lemma no_migration :
  (∀ i, (i < n)%nat → Gx i = 0) → sum_upto n mig = 0.
Proof.
  intros HG. apply sum_upto_zero. intros i Hi.
  unfold migrants_at. rewrite HG by done. ring.
Qed.

Lemma zero_fertility_births i : Fx i = 0 → births i = 0.
Proof. intros HF. unfold births_at. rewrite HF. ring. Qed.

Lemma zero_fertility_infants :
  (∀ i, (i < m)%nat → Fx i = 0) → inf = 0.
Proof.
  intros HF. unfold infants_of. rewrite sum_upto_zero.
  - unfold Qcdiv. ring.
  - intros i Hi. apply zero_fertility_births. auto.
Qed.
End RecurrenceFacts.

(** ** Lemmas: the container after a step *)

Lemma table_cols_length t r c : table t r c → length (columns t) = Z.to_nat c.
Proof. intros (_ & Hc & _). unfold mat_cols in Hc. lia. Qed.

Section Stepped.
Variables (p : PopulationProjection) (k : nat).
Hypothesis Hp : shaped p.
Hypothesis Hk : (Z.of_nat k < n_steps p)%Z.

Local Abbreviation n := (Z.to_nat (n_ages p)).
Local Abbreviation idx := (Z.to_nat (fx_idx p)).
Local Abbreviation m := (Z.to_nat (n_fx p)).
Local Abbreviation Pop := (at_ (column (population p) k)).
Local Abbreviation Sx := (at_ (column (sx p) k)).
Local Abbreviation Fx := (at_ (column (fx p) k)).
Local Abbreviation Gx := (at_ (column (gx p) k)).
Local Abbreviation r := (at_ (srb p) k).

Lemma stepped_population :
  column (population (stepped p k)) (S k)
  = tabulate n (next_population_at n idx m (age_span p) r Pop Sx Fx Gx).
Proof.
  unfold stepped. cbn [population]. apply column_set_col_eq.
  rewrite (table_cols_length _ _ _ (shaped_population p Hp)). lia.
Qed.

Lemma stepped_deaths :
  column (deaths (stepped p k)) k
  = tabulate (S n) (deaths_at n idx m (age_span p) r Pop Sx Fx Gx).
Proof.
  unfold stepped. cbn [deaths]. apply column_set_col_eq.
  rewrite (table_cols_length _ _ _ (shaped_deaths p Hp)). lia.
Qed.

Lemma stepped_births :
  column (births (stepped p k)) k
  = tabulate m (births_at n idx (age_span p) Pop Sx Fx Gx).
Proof.
  unfold stepped. cbn [births]. apply column_set_col_eq.
  rewrite (table_cols_length _ _ _ (shaped_births p Hp)). lia.
Qed.

Lemma stepped_migrations :
  column (migrations (stepped p k)) k = tabulate n (migrants_at Pop Gx).
Proof.
  unfold stepped. cbn [migrations]. apply column_set_col_eq.
  rewrite (table_cols_length _ _ _ (shaped_migrations p Hp)). lia.
Qed.

Lemma stepped_infants :
  at_ (infants (stepped p k)) k = infants_of n idx m (age_span p) r Pop Sx Fx Gx.
Proof.
  unfold stepped, at_. cbn [infants].
  rewrite list_lookup_insert_eq; [done |].
  pose proof (shaped_infants p Hp) as Hi. unfold vsize in Hi. lia.
Qed.

Lemma previous_population : column (population p) k = tabulate n Pop.
Proof.
  destruct (table_column _ _ _ k (shaped_population p Hp)) as [_ Hlen]; [lia |].
  rewrite <- Hlen. apply tabulate_at.
Qed.

Lemma previous_total : total (population p) k = sum_upto n Pop.
Proof.
  unfold total. rewrite vsum_at.
  destruct (table_column _ _ _ k (shaped_population p Hp)) as [_ ->]; [lia | done].
Qed.

Lemma shaped_stepped : shaped (stepped p k).
Proof.
  destruct Hp as [Hages Hsteps Hidx Hnfx Hwin Hsx Hfx Hgx Hsrb Hpop Hd Hb Hi Hm].
  unfold stepped. split; cbn [n_ages n_steps n_fx fx_idx sx fx gx srb
    population deaths births infants migrations]; try done.
  - apply table_set_col; [done |]. rewrite vsize_tabulate. lia.
  - apply table_set_col; [done |]. rewrite vsize_tabulate. lia.
  - apply table_set_col; [done |]. rewrite vsize_tabulate. lia.
  - unfold vsize in *. by rewrite length_insert.
  - apply table_set_col; [done |]. rewrite vsize_tabulate. lia.
Qed.

Lemma stepped_same_parameters : same_parameters p (stepped p k).
Proof. by repeat split. Qed.

Lemma stepped_unchanged_outside : unchanged_outside p (stepped p k) k.
Proof.
  unfold unchanged_outside, stepped.
  cbn [population deaths births infants migrations columns].
  repeat split; intros j Hj; by rewrite list_lookup_insert_ne.
Qed.
End Stepped.

(** ** Lemmas: what a completed step tells *)

Lemma in_range_inv i len : in_range i len = true → (0 ≤ i < len)%Z.
Proof. unfold in_range. apply bool_decide_eq_true_1. Qed.

Lemma vcoeff_inv (v : vec) i x :
  vcoeff v i = Ok x → (0 ≤ i < vsize v)%Z ∧ x = at_ v (Z.to_nat i).
Proof.
  unfold vcoeff. destruct (in_range i (vsize v)) eqn:Hi; [| discriminate].
  apply in_range_inv in Hi. unfold at_.
  destruct (v !! Z.to_nat i); [| discriminate]. intros [= ->]. done.
Qed.

Lemma vset_inv (v : vec) i x v' :
  vset v i x = Ok v' → (0 ≤ i < vsize v)%Z ∧ v' = <[Z.to_nat i := x]> v.
Proof.
  unfold vset. destruct (in_range i (vsize v)) eqn:Hi; [| discriminate].
  apply in_range_inv in Hi. intros [= <-]. done.
Qed.

Lemma set_col_inv t j (v : vec) t' :
  set_col t j v = Ok t' →
  (0 ≤ j)%Z ∧ columns t' = <[Z.to_nat j := v]> (columns t).
Proof.
  unfold set_col. destruct (in_range j (mat_cols t)) eqn:Hj; [| discriminate].
  apply in_range_inv in Hj. case_bool_decide; [| discriminate].
  intros [= <-]. split; [lia | done].
Qed.

Lemma sdiv_inv x y z : sdiv x y = Ok z → y ≠ 0.
Proof. unfold sdiv. by case_decide. Qed.

Ltac invert_binds H :=
  cbv zeta in H;
  repeat (let a := fresh "a" in let Ha := fresh "Ha" in
          apply bind_Ok_inv in H as (a & Ha & H)).

Lemma step_projection_inv p k p' :
  step_projection p (Z.of_nat k) = Ok p' →
  same_parameters p p' ∧ unchanged_outside p p' k ∧
  (Z.of_nat k < vsize (infants p))%Z ∧ 1 + at_ (srb p) k ≠ 0.
Proof.
  intros H. unfold step_projection in H. invert_binds H.
  injection H as <-.
  repeat match goal with
  | H : set_col _ _ _ = Ok _ |- _ => apply set_col_inv in H as [_ H]
  | H : vset (infants p) _ _ = Ok _ |- _ => apply vset_inv in H as [_ H]
  | H : vcoeff (infants p) _ = Ok _ |- _ => apply vcoeff_inv in H as [H _]
  | H : vcoeff (srb p) _ = Ok _ |- _ => apply vcoeff_inv in H as [_ H]
  | H : sdiv _ _ = Ok _ |- _ => apply sdiv_inv in H
  end.
  subst. rewrite Nat2Z.id in *.
  repeat split; try done; try lia;
    cbn [population deaths births migrations infants];
    intros j Hj;
    match goal with H : columns _ = _ |- _ !! j = _ => rewrite H | _ => idtac end;
    rewrite list_lookup_insert_ne; (done || lia).
Qed.

Lemma at_Forall (P : Qc → Prop) (v : vec) j :
  Forall P v → (j < length v)%nat → P (at_ v j).
Proof.
  intros Hall Hj. destruct (lookup_lt_is_Some_2 v j Hj) as [x Hx].
  unfold at_. rewrite Hx. cbn. rewrite Forall_forall in Hall.
  eapply Hall, list_elem_of_lookup_2, Hx.
Qed.

(** ** Lemmas: the constructor and the loop of [ccmpp] *)

Lemma new_matrix_runs rows cols :
  (0 ≤ rows)%Z → (0 ≤ cols)%Z →
  new_matrix rows cols
  = Ok (Matrix (Z.to_nat rows) (replicate (Z.to_nat cols) (zeros (Z.to_nat rows)))).
Proof. intros. unfold new_matrix. by rewrite bool_decide_eq_true_2. Qed.

Lemma table_new rows cols :
  (0 ≤ rows)%Z → (0 ≤ cols)%Z →
  table (Matrix (Z.to_nat rows) (replicate (Z.to_nat cols) (zeros (Z.to_nat rows))))
    rows cols.
Proof.
  intros Hr Hc. repeat split.
  - unfold mat_rows. cbn [nrows]. lia.
  - unfold mat_cols. cbn [columns]. rewrite length_replicate. lia.
  - cbn [columns]. apply Forall_replicate.
    unfold vsize, zeros. rewrite length_replicate. lia.
Qed.

Lemma new_projection_runs na ns nf idx span (basepop : vec) sx fx gx (srb : vec) :
  (0 ≤ ns)%Z → (0 ≤ nf)%Z → vsize basepop = na →
  new_projection na ns nf idx span basepop sx fx gx srb
  = Ok (constructed na ns nf idx span basepop sx fx gx srb).
Proof.
  intros Hns Hnf Hna. unfold new_projection. unfold vsize in Hna.
  rewrite !new_matrix_runs by lia. rewrite !bind_Ok.
  rewrite bool_decide_eq_true_2 by done. rewrite bind_Ok.
  change 0%Z with (Z.of_nat 0).
  rewrite (set_col_table _ na (ns + 1) 0) by (try apply table_new; lia).
  reflexivity.
Qed.

Lemma shaped_constructed (basepop : vec) sxs fxs gxs (srbs : vec) idx span :
  valid_inputs basepop sxs fxs gxs srbs idx →
  shaped (constructed (vsize basepop) (mat_cols sxs) (mat_rows fxs) idx span
            basepop sxs fxs gxs srbs).
Proof.
  intros [Hages Hsx Hfx Hgx Hsrb Hidx Hwin].
  assert (0 ≤ mat_cols sxs)%Z by (unfold mat_cols; lia).
  assert (0 ≤ mat_rows fxs)%Z by (unfold mat_rows; lia).
  unfold constructed. split; cbn [n_ages n_steps n_fx fx_idx sx fx gx srb
    population deaths births infants migrations]; try done.
  - apply (table_set_col (Matrix _ (replicate _ _))); [apply table_new; lia | done].
  - apply table_new; lia.
  - apply table_new; lia.
  - unfold vsize, zeros. rewrite length_replicate. lia.
  - apply table_new; lia.
Qed.

Lemma for_each_steps c : ∀ k p,
  shaped p → (Z.of_nat (k + c) ≤ n_steps p)%Z →
  (∀ j, (k ≤ j < k + c)%nat → 1 + at_ (srb p) j ≠ 0) →
  for_each (seqZ (Z.of_nat k) (Z.of_nat c))
    (fun step proj => step_projection proj step) p
  = Ok (advanced c k p).
Proof.
  induction c as [| c IH]; intros k p Hp Hk Hr; [reflexivity |].
  rewrite seqZ_cons by lia. cbn [for_each advanced].
  rewrite step_projection_runs by (try apply Hr; (done || lia)).
  rewrite bind_Ok.
  replace (Z.succ (Z.of_nat k)) with (Z.of_nat (S k)) by lia.
  replace (Z.pred (Z.of_nat (S c))) with (Z.of_nat c) by lia.
  apply IH.
  - apply shaped_stepped; (done || lia).
  - cbn [stepped n_steps]. lia.
  - intros j Hj. cbn [stepped srb]. apply Hr. lia.
Qed.

Lemma same_parameters_trans p q r :
  same_parameters p q → same_parameters q r → same_parameters p r.
Proof.
  unfold same_parameters.
  intros (? & ? & ? & ? & ? & ? & ? & ? & ?) (? & ? & ? & ? & ? & ? & ? & ? & ?).
  repeat split; congruence.
Qed.

Lemma advanced_spec c : ∀ k p,
  shaped p → (Z.of_nat (k + c) ≤ n_steps p)%Z →
  shaped (advanced c k p) ∧ same_parameters p (advanced c k p) ∧
  settled p (advanced c k p) k ∧
  (∀ j, (k ≤ j < k + c)%nat → recorded (advanced c k p) j).
Proof.
  induction c as [| c IH]; intros k p Hp Hk; cbn [advanced].
  { split; [done |]. split; [by repeat split |]. split; [by repeat split |].
    intros j Hj. lia. }
  assert (Z.of_nat k < n_steps p)%Z as Hk0 by lia.
  pose proof (shaped_stepped p k Hp) as Hp1.
  destruct (IH (S k) (stepped p k) Hp1) as (Hq & Hsame & Hset & Hrec).
  { cbn [stepped n_steps]. lia. }
  set (q := advanced c (S k) (stepped p k)) in *.
  destruct (stepped_unchanged_outside p k) as (Fp & Fd & Fb & Fm & Fi).
  destruct Hset as (Sp & Sd & Sb & Sm & Si).
  assert (same_parameters p q) as Hpq.
  { eapply same_parameters_trans; [apply stepped_same_parameters | done]. }
  split; [done |]. split; [done |]. split.
  { repeat split; intros j Hj.
    - rewrite Sp, Fp by lia. done.
    - rewrite Sd, Fd by lia. done.
    - rewrite Sb, Fb by lia. done.
    - rewrite Sm, Fm by lia. done.
    - rewrite Si, Fi by lia. done. }
  intros j Hj. destruct (decide (j = k)) as [-> | Hne]; [| apply Hrec; lia].
  (* the step just taken is still on record at the end *)
  destruct Hpq as (En & Es & Em & Eidx & Espan & Esx & Efx & Egx & Esrb).
  assert (column (population q) k = column (population p) k) as Epop.
  { unfold column. rewrite Sp, Fp by lia. done. }
  pose proof (table_cols_length _ _ _ (shaped_population q Hq)).
  pose proof (table_cols_length _ _ _ (shaped_deaths q Hq)).
  pose proof (table_cols_length _ _ _ (shaped_births q Hq)).
  pose proof (table_cols_length _ _ _ (shaped_migrations q Hq)).
  pose proof (shaped_infants q Hq) as Hiq. unfold vsize in Hiq.
  pose proof (table_cols_length _ _ _ (shaped_population p Hp)).
  pose proof (table_cols_length _ _ _ (shaped_deaths p Hp)).
  pose proof (table_cols_length _ _ _ (shaped_births p Hp)).
  pose proof (table_cols_length _ _ _ (shaped_migrations p Hp)).
  pose proof (shaped_infants p Hp) as Hip. unfold vsize in Hip.
  unfold recorded, writes_agree.
  rewrite Sp, Sd, Sb, Sm, Si by lia.
  unfold stepped at 2 4 6 8 10.
  cbn [population deaths births migrations infants columns].
  rewrite !list_lookup_insert_eq by lia.
  rewrite En, Em, Eidx, Espan, Epop, Esx, Efx, Egx, Esrb.
  unfold stepped. cbn [population deaths births migrations infants columns].
  rewrite !list_lookup_insert_eq by lia. done.
Qed.

Lemma ccmpp_runs (basepop : vec) sxs fxs gxs (srbs : vec) span idx :
  valid_inputs basepop sxs fxs gxs srbs idx →
  Forall (fun r => r ≠ - (1)) srbs →
  ccmpp basepop sxs fxs gxs srbs span idx
  = Ok (advanced (length (columns sxs)) 0
          (constructed (vsize basepop) (mat_cols sxs) (mat_rows fxs) idx span
             basepop sxs fxs gxs srbs)).
Proof.
  intros Hin Hsrb. unfold ccmpp.
  rewrite new_projection_runs by (unfold mat_cols, mat_rows; lia).
  rewrite bind_Ok. unfold mat_cols at 1.
  apply (for_each_steps _ 0).
  - by apply shaped_constructed.
  - unfold constructed, mat_cols. cbn [n_steps]. lia.
  - intros j Hj. unfold constructed. cbn [srb].
    apply srb_denominator, at_Forall; [done |].
    pose proof (valid_srb _ _ _ _ _ _ Hin) as Hlen.
    unfold vsize, mat_cols in Hlen. lia.
Qed.

Lemma recorded_columns q j :
  shaped q → (Z.of_nat j < n_steps q)%Z → recorded q j →
  column (population q) (S j) = column (population (stepped q j)) (S j) ∧
  column (deaths q) j = column (deaths (stepped q j)) j ∧
  column (births q) j = column (births (stepped q j)) j ∧
  column (migrations q) j = column (migrations (stepped q j)) j ∧
  at_ (infants q) j = at_ (infants (stepped q j)) j.
Proof.
  intros Hq Hj (Hp & Hd & Hb & Hm & Hi). unfold column, at_.
  by rewrite Hp, Hd, Hb, Hm, Hi.
Qed.

(** ** Lemmas: inserting into a sparse matrix *)

Lemma sp_insert_inv m i j x m' :
  sp_insert m i j x = Ok m' →
  (0 ≤ i < sp_rows m)%Z ∧ (0 ≤ j < sp_cols m)%Z ∧
  sp_entries m !! (i, j) = None ∧
  m' = Sparse (sp_rows m) (sp_cols m) (<[(i, j) := x]> (sp_entries m)).
Proof.
  unfold sp_insert.
  destruct (in_range i (sp_rows m)) eqn:Hi; [| discriminate].
  destruct (in_range j (sp_cols m)) eqn:Hj; [| discriminate].
  apply in_range_inv in Hi, Hj. cbn [andb].
  destruct (sp_entries m !! (i, j)); [discriminate |].
  intros [= <-]. done.
Qed.

Lemma sp_insert_runs m i j x :
  (0 ≤ i < sp_rows m)%Z → (0 ≤ j < sp_cols m)%Z →
  sp_entries m !! (i, j) = None →
  sp_insert m i j x
  = Ok (Sparse (sp_rows m) (sp_cols m) (<[(i, j) := x]> (sp_entries m))).
Proof.
  intros Hi Hj Hnone. unfold sp_insert.
  rewrite !in_range_true by done. cbn [andb]. by rewrite Hnone.
Qed.

Section InsertLoop.
Variables (V : vec) (R C : Z → Z).

Local Abbreviation body :=
  (fun (i : Z) (m : sparse) => x ← vcoeff V i; sp_insert m (R i) (C i) x).

Lemma insert_loop_inv l : ∀ m m',
  for_each l body m = Ok m' →
  sp_rows m' = sp_rows m ∧ sp_cols m' = sp_cols m ∧
  (∀ key v, sp_entries m !! key = Some v → sp_entries m' !! key = Some v) ∧
  (∀ i, i ∈ l →
     sp_entries m' !! (R i, C i) = Some (at_ V (Z.to_nat i)) ∧
     (0 ≤ i < vsize V)%Z ∧ (0 ≤ R i < sp_rows m)%Z ∧ (0 ≤ C i < sp_cols m)%Z ∧
     sp_entries m !! (R i, C i) = None) ∧
  (∀ key v, sp_entries m' !! key = Some v →
     sp_entries m !! key = Some v ∨
     ∃ i, i ∈ l ∧ key = (R i, C i) ∧ v = at_ V (Z.to_nat i)).
Proof.
  induction l as [| i l IH]; intros m m' H; cbn [for_each] in H.
  { injection H as <-. split; [done |]. split; [done |]. split; [auto |].
    split; [| auto]. intros i Hi. by apply elem_of_nil in Hi. }
  apply bind_Ok_inv in H as (m1 & H1 & H).
  apply bind_Ok_inv in H1 as (x & Hx & H1).
  apply vcoeff_inv in Hx as [Hi ->].
  apply sp_insert_inv in H1 as (Hr & Hc & Hnone & ->).
  destruct (IH _ _ H) as (Hrows & Hcols & Hmono & Hmem & Hcompl).
  cbn [sp_rows sp_cols sp_entries] in *.
  split; [done |]. split; [done |]. split; [| split].
  - intros key v Hkey. apply Hmono.
    rewrite lookup_insert_ne; [done |]. intros <-. congruence.
  - intros i' [-> | Hin]%elem_of_cons.
    + repeat split; try done; try lia. apply Hmono. by rewrite lookup_insert_eq.
    + destruct (Hmem i' Hin) as (Hv & Hi' & Hr' & Hc' & Hnone').
      repeat split; try done; try lia.
      destruct (decide ((R i, C i) = (R i', C i'))) as [Heq | Hne].
      * rewrite Heq, lookup_insert_eq in Hnone'. discriminate.
      * by rewrite lookup_insert_ne in Hnone'.
  - intros key v Hkey. destruct (Hcompl key v Hkey) as [Hold | (i' & Hin & -> & ->)].
    + destruct (decide ((R i, C i) = key)) as [<- | Hne].
      * rewrite lookup_insert_eq in Hold. injection Hold as <-.
        right. exists i. split; [left | done].
      * rewrite lookup_insert_ne in Hold by done. by left.
    + right. exists i'. split; [by right | done].
Qed.

Lemma insert_loop_runs l : ∀ m,
  NoDup ((fun i => (R i, C i)) <$> l) →
  (∀ i, i ∈ l →
     (0 ≤ i < vsize V)%Z ∧ (0 ≤ R i < sp_rows m)%Z ∧ (0 ≤ C i < sp_cols m)%Z ∧
     sp_entries m !! (R i, C i) = None) →
  ∃ m', for_each l body m = Ok m'.
Proof.
  induction l as [| i l IH]; intros m Hnd Hl; cbn [for_each]; [eauto |].
  rewrite fmap_cons in Hnd. apply NoDup_cons in Hnd as [Hfresh Hnd].
  destruct (Hl i) as (Hi & Hr & Hc & Hnone); [left |].
  rewrite vcoeff_at by done. rewrite bind_Ok.
  rewrite sp_insert_runs by done. rewrite bind_Ok.
  apply IH; [done |]. intros i' Hin. cbn [sp_rows sp_cols sp_entries].
  destruct (Hl i') as (Hi' & Hr' & Hc' & Hnone'); [by right |].
  repeat split; try done; try lia.
  rewrite lookup_insert_ne; [done |]. intros Heq. apply Hfresh.
  rewrite Heq. apply (list_elem_of_fmap_2 (fun i => (R i, C i))), Hin.
Qed.
End InsertLoop.

(** ** Lemmas: the Leslie-matrix builder *)

Lemma segment_inv (v : vec) s n u :
  segment v s n = Ok u → (0 ≤ s)%Z ∧ (0 ≤ n)%Z ∧ (s + n ≤ vsize v)%Z.
Proof. unfold segment. case_bool_decide; [done | discriminate]. Qed.

Lemma sp_new_runs rows cols :
  (0 ≤ rows)%Z → (0 ≤ cols)%Z → sp_new rows cols = Ok (Sparse rows cols ∅).
Proof. intros. unfold sp_new. by rewrite bool_decide_eq_true_2. Qed.

Lemma sp_new_inv rows cols m :
  sp_new rows cols = Ok m → (0 ≤ rows)%Z ∧ (0 ≤ cols)%Z ∧ m = Sparse rows cols ∅.
Proof. unfold sp_new. case_bool_decide; [| discriminate]. intros [= <-]. tauto. Qed.

(** The vector [fert_leslie] that the builder inserts into the top row. *)
Lemma fert_leslie_runs (sxv fxv : vec) idx {A} (rest : vec → result A) :
  (0 ≤ idx)%Z → (idx + vsize fxv ≤ vsize sxv)%Z →
  (sx_blk ← segment sxv idx (vsize fxv);
   prod ← cwise Qcmult fxv sx_blk;
   fert_leslie ← segment_add (zeros (Z.to_nat (vsize fxv + 1))) 0 (vsize fxv) prod;
   fert_leslie ← segment_add fert_leslie 1 (vsize fxv) fxv;
   rest fert_leslie)
  = rest (tabulate (S (length fxv)) (fun i => fert_blend sxv fxv idx (Z.of_nat i))).
Proof.
  intros Hidx Hwin. unfold vsize in *.
  set (m := length fxv) in *.
  replace (Z.to_nat (Z.of_nat m + 1)) with (S m) by lia.
  assert (fxv = tabulate m (at_ fxv)) as Efx by apply tabulate_at.
  statement (tabulate m (fun i => at_ sxv (Z.to_nat idx + i)%nat))
    by (rewrite (tabulate_at sxv) at 1; apply segment_tabulate; lia).
  statement (tabulate m (fun i => at_ fxv i * at_ sxv (Z.to_nat idx + i)%nat))
    by (rewrite Efx at 1; apply cwise_tabulate).
  statement (tabulate (S m) (fun i =>
      if decide (i < m)%nat then at_ fxv i * at_ sxv (Z.to_nat idx + i)%nat else 0))
    by (unfold segment_add; rewrite zeros_tabulate;
        rewrite segment_tabulate by lia; rewrite bind_Ok;
        rewrite cwise_tabulate, bind_Ok;
        rewrite segment_assign_tabulate by lia; f_equal; apply tabulate_ext;
        intros i Hlt; change (Z.to_nat 0) with 0%nat;
        repeat case_decide; try lia; try done;
        replace (i - 0)%nat with i by lia; ring).
  statement (tabulate (S m) (fun i => fert_blend sxv fxv idx (Z.of_nat i)))
    by (unfold segment_add;
        rewrite segment_tabulate by lia; rewrite bind_Ok;
        rewrite Efx at 1; rewrite cwise_tabulate, bind_Ok;
        rewrite segment_assign_tabulate by lia; f_equal; apply tabulate_ext;
        intros i Hlt; change (Z.to_nat 1) with 1%nat;
        unfold fert_blend, vsize; fold m;
        repeat case_decide; repeat case_bool_decide; try lia;
        rewrite ?Nat2Z.id;
        replace (Z.to_nat (Z.of_nat i - 1)) with (i - 1)%nat by lia;
        replace (Z.to_nat (idx + Z.of_nat i)) with (Z.to_nat idx + i)%nat by lia;
        try replace (1 + (i - 1))%nat with i by lia; ring).
  reflexivity.
Qed.

Lemma lookup_None_or_Some {K A} `{Countable K} (m : gmap K A) key :
  (∀ v, m !! key = Some v → False) → m !! key = None.
Proof. intros Hno. destruct (m !! key) eqn:E; [by destruct (Hno a) | done]. Qed.

Section Leslie.
Variables (sxv fxv : vec) (srb span : Qc) (idx : Z).

Local Abbreviation dim := (vsize sxv - 1)%Z.

(** The builder completes on validated shapes with at least two age
    groups, and stores exactly [leslie_stored]. *)
Lemma make_leslie_matrix_runs :
  (2 ≤ dim)%Z → (1 ≤ idx)%Z → (idx + vsize fxv ≤ dim)%Z → 1 + srb ≠ 0 →
  ∃ L, make_leslie_matrix sxv fxv srb span idx = Ok L ∧
    sp_rows L = dim ∧ sp_cols L = dim ∧
    ∀ i j, sp_entries L !! (i, j) = leslie_stored sxv fxv srb span idx i j.
Proof.
  intros Hdim Hidx Hwin Hsrb. unfold make_leslie_matrix.
  rewrite (vcoeff_at sxv 0) by lia. rewrite bind_Ok.
  rewrite sdiv_Ok by done. rewrite bind_Ok. cbv zeta.
  change (at_ sxv (Z.to_nat 0) * half * span / (1 + srb)) with (fert_k sxv srb span).
  rewrite fert_leslie_runs by lia. rewrite fmap_tabulate.
  rewrite sp_new_runs by lia. rewrite bind_Ok.
  set (top := tabulate _ _).
  assert (vsize top = vsize fxv + 1)%Z as Htop.
  { unfold top. rewrite vsize_tabulate. unfold vsize. lia. }
  (* the top row *)
  destruct (insert_loop_runs top (fun _ => 0%Z) (fun i => (idx + i - 1)%Z)
              (seqZ 0 (vsize fxv + 1)) (Sparse dim dim ∅)) as [L1 H1].
  { apply NoDup_fmap_2; [| apply NoDup_seqZ]. intros x y [= ?]. lia. }
  { intros i Hi%elem_of_seqZ. cbn [sp_rows sp_cols sp_entries].
    rewrite lookup_empty. unfold vsize in *. repeat split; lia. }
  cbv beta in H1. rewrite H1, bind_Ok.
  apply insert_loop_inv in H1 as (R1 & C1 & M1 & I1 & K1).
  cbn [sp_rows sp_cols sp_entries] in *.
  (* the sub-diagonal *)
  destruct (insert_loop_runs sxv (fun i => i) (fun i => (i - 1)%Z)
              (seqZ 1 (dim - 1)) L1) as [L2 H2].
  { apply NoDup_fmap_2; [| apply NoDup_seqZ]. intros x y [= ?]. lia. }
  { intros i Hi%elem_of_seqZ. rewrite R1, C1. repeat split; try lia.
    apply lookup_None_or_Some. intros v Hv.
    destruct (K1 _ _ Hv) as [Hv' | (i' & _ & [= ? ?] & _)]; [| lia].
    by rewrite lookup_empty in Hv'. }
  cbv beta in H2. rewrite H2, bind_Ok.
  apply insert_loop_inv in H2 as (R2 & C2 & M2 & I2 & K2).
  (* the open age group *)
  rewrite (vcoeff_at sxv dim) by lia. rewrite bind_Ok.
  assert (sp_entries L2 !! ((dim - 1)%Z, (dim - 1)%Z) = None) as Hfree.
  { apply lookup_None_or_Some. intros v Hv.
    destruct (K2 _ _ Hv) as [Hv' | (i' & _ & [= ? ?] & _)]; [| lia].
    destruct (K1 _ _ Hv') as [Hv'' | (i' & _ & [= ? ?] & _)]; [| lia].
    by rewrite lookup_empty in Hv''. }
  rewrite sp_insert_runs by (rewrite ?R2, ?C2, ?R1, ?C1; (done || lia)).
  eexists. split; [done |]. cbn [sp_rows sp_cols sp_entries].
  split; [congruence |]. split; [congruence |].
  intros i j. unfold leslie_stored.
  repeat case_bool_decide.
  - (* the top row *)
    destruct_and!. subst i.
    rewrite lookup_insert_ne by (intros [= ? ?]; lia).
    apply M2.
    destruct (I1 (j - (idx - 1))%Z) as (Hv & _).
    { apply elem_of_seqZ. lia. }
    replace (idx + (j - (idx - 1)) - 1)%Z with j in Hv by lia.
    rewrite Hv. f_equal. unfold top.
    rewrite at_tabulate by (unfold vsize in *; lia).
    by rewrite Z2Nat.id by lia.
  - (* the sub-diagonal *)
    destruct_and!. subst j.
    rewrite lookup_insert_ne by (intros [= ? ?]; lia).
    destruct (I2 i) as (Hv & _); [apply elem_of_seqZ; lia | done].
  - (* the open age group *)
    destruct_and!. subst i j. by rewrite lookup_insert_eq.
  - (* nothing else *)
    apply lookup_None_or_Some. intros v Hv.
    destruct (decide (((dim - 1)%Z, (dim - 1)%Z) = (i, j))) as [[= ? ?] | Hne]; [lia |].
    rewrite lookup_insert_ne in Hv by done.
    destruct (K2 _ _ Hv) as [Hv' | (i' & Hi'%elem_of_seqZ & [= ? ?] & _)]; [| lia].
    destruct (K1 _ _ Hv') as [Hv'' | (i' & Hi'%elem_of_seqZ & [= ? ?] & _)]; [| lia].
    by rewrite lookup_empty in Hv''.
Qed.

(** The builder completes only on such shapes. *)
Lemma make_leslie_matrix_inv L :
  make_leslie_matrix sxv fxv srb span idx = Ok L →
  (2 ≤ dim)%Z ∧ (1 ≤ idx)%Z ∧ (idx + vsize fxv ≤ dim)%Z ∧ 1 + srb ≠ 0.
Proof.
  intros H. unfold make_leslie_matrix in H. invert_binds H.
  match goal with H : sdiv _ _ = Ok _ |- _ =>
    apply sdiv_inv in H; rename H into Hsrb end.
  match goal with H : segment sxv _ _ = Ok _ |- _ =>
    apply segment_inv in H as (Hidx0 & _ & Hseg) end.
  match goal with H : sp_new _ _ = Ok _ |- _ =>
    apply sp_new_inv in H as (_ & _ & ->) end.
  match goal with H : for_each (seqZ 0 _) _ _ = Ok _ |- _ =>
    apply (insert_loop_inv _ (fun _ => 0%Z) (fun i => (idx + i - 1)%Z)) in H
      as (R1 & C1 & M1 & I1 & K1) end.
  match goal with H : for_each (seqZ 1 _) _ _ = Ok _ |- _ =>
    apply (insert_loop_inv _ (fun i => i) (fun i => (i - 1)%Z)) in H
      as (R2 & C2 & M2 & I2 & K2) end.
  apply sp_insert_inv in H as (Hr & Hc & Hfree & _).
  cbn [sp_rows sp_cols sp_entries] in *.
  destruct (I1 0%Z) as (Hv0 & _ & Hrow & Hc0 & _);
    [apply elem_of_seqZ; unfold vsize; lia |].
  destruct (I1 (vsize fxv)) as (_ & _ & _ & Hcm & _);
    [apply elem_of_seqZ; unfold vsize; lia |].
  apply M2 in Hv0.
  assert (dim ≠ 1%Z) as Hdim.
  { intros Hone. rewrite Hone in Hfree.
    replace (idx + 0 - 1)%Z with 0%Z in Hv0 by lia.
    change (1 - 1)%Z with 0%Z in Hfree. congruence. }
  repeat split; (done || lia).
Qed.
End Leslie.

Lemma length_two_candidates (l : list Z) a b :
  NoDup l → (∀ x, x ∈ l → x = a ∨ x = b) → (length l ≤ 2)%nat.
Proof.
  intros Hnd Hl. change 2%nat with (length [a; b]).
  apply submseteq_length, NoDup_submseteq; [done |].
  intros x Hx. destruct (Hl x Hx) as [-> | ->]; set_solver.
Qed.

Lemma sp_coeff_stored L i j x : sp_entries L !! (i, j) = Some x → sp_coeff L i j = x.
Proof. intros H. unfold sp_coeff. by rewrite H. Qed.

Lemma sp_coeff_absent L i j : sp_entries L !! (i, j) = None → sp_coeff L i j = 0.
Proof. intros H. unfold sp_coeff. by rewrite H. Qed.

(** ** Lemmas: where a division by zero can come from *)

Create HintDb no_div0.

Lemma no_div0_Ok {A} (a : A) : no_div0 (Ok a).
Proof. done. Qed.

Lemma no_div0_bind {A B} (r : result A) (f : A → result B) :
  no_div0 r → (∀ a, r = Ok a → no_div0 (f a)) → no_div0 (r ≫= f).
Proof.
  destruct r as [a | e]; intros Hr Hf; [by apply Hf |].
  intros [= ->]. by apply Hr.
Qed.

Lemma no_div0_for_each {St} (I : St → Prop) l (body : Z → St → result St) :
  (∀ i s, I s → no_div0 (body i s) ∧ ∀ s', body i s = Ok s' → I s') →
  ∀ s, I s → no_div0 (for_each l body s).
Proof.
  intros Hbody. induction l as [| i l IH]; intros s Hs; cbn [for_each]; [done |].
  destruct (Hbody i s Hs) as [Hsafe Hnext].
  apply no_div0_bind; [done |]. intros s' Hs'. apply IH. by apply Hnext.
Qed.

Lemma no_div0_sdiv x y : y ≠ 0 → no_div0 (sdiv x y).
Proof. intros Hy. by rewrite sdiv_Ok. Qed.

(** The operations without a division. *)
Ltac no_division :=
  unfold no_div0, vcoeff, vset, segment, segment_assign, cwise, assign, col,
    set_col, new_matrix, sp_new, sp_insert, sp_mul;
  repeat case_match; congruence.

Lemma no_div0_vcoeff (v : vec) i : no_div0 (vcoeff v i).
Proof. no_division. Qed.
Lemma no_div0_vset (v : vec) i x : no_div0 (vset v i x).
Proof. no_division. Qed.
Lemma no_div0_segment (v : vec) s n : no_div0 (segment v s n).
Proof. no_division. Qed.
Lemma no_div0_segment_assign (v : vec) s n u : no_div0 (segment_assign v s n u).
Proof. no_division. Qed.
Lemma no_div0_cwise op (u v : vec) : no_div0 (cwise op u v).
Proof. no_division. Qed.
Lemma no_div0_assign (u v : vec) : no_div0 (assign u v).
Proof. no_division. Qed.
Lemma no_div0_col m j : no_div0 (col m j).
Proof. no_division. Qed.
Lemma no_div0_set_col m j (v : vec) : no_div0 (set_col m j v).
Proof. no_division. Qed.
Lemma no_div0_new_matrix r c : no_div0 (new_matrix r c).
Proof. no_division. Qed.
Lemma no_div0_sp_new r c : no_div0 (sp_new r c).
Proof. no_division. Qed.
Lemma no_div0_sp_insert m i j x : no_div0 (sp_insert m i j x).
Proof. no_division. Qed.
Lemma no_div0_sp_mul m (x : vec) : no_div0 (sp_mul m x).
Proof. no_division. Qed.

Lemma no_div0_col_map m j n : no_div0 (col_map m j n).
Proof.
  unfold col_map. apply no_div0_bind; [apply no_div0_col |].
  intros c _. by case_bool_decide.
Qed.

Lemma no_div0_segment_add (v : vec) s n u : no_div0 (segment_add v s n u).
Proof.
  unfold segment_add.
  apply no_div0_bind; [apply no_div0_segment |]. intros ? _.
  apply no_div0_bind; [apply no_div0_cwise |]. intros ? _.
  apply no_div0_segment_assign.
Qed.

Lemma no_div0_aging_loop n (d p : vec) : no_div0 (aging_loop n d p).
Proof.
  unfold aging_loop. apply (no_div0_for_each (fun _ => True)); [| done].
  intros i s _. split; [| done].
  apply no_div0_bind; [apply no_div0_vcoeff |]. intros ? _.
  apply no_div0_bind; [apply no_div0_vcoeff |]. intros ? _.
  apply no_div0_vset.
Qed.

#[local] Hint Resolve no_div0_Ok no_div0_sdiv no_div0_vcoeff no_div0_vset
  no_div0_segment no_div0_segment_assign no_div0_cwise no_div0_assign
  no_div0_col no_div0_set_col no_div0_new_matrix no_div0_sp_new
  no_div0_sp_insert no_div0_sp_mul no_div0_col_map no_div0_segment_add
  no_div0_aging_loop : no_div0.

Ltac no_div0_steps :=
  repeat (apply no_div0_bind; [solve [auto with no_div0] | intros ? ?]).

Lemma no_div0_make_leslie_matrix (sxv fxv : vec) srb span idx :
  1 + srb ≠ 0 → no_div0 (make_leslie_matrix sxv fxv srb span idx).
Proof.
  intros Hsrb. unfold make_leslie_matrix. cbv zeta.
  no_div0_steps.
  apply no_div0_bind.
  { apply (no_div0_for_each (fun _ => True)); [| done].
    intros i s _. split; [| done]. no_div0_steps. auto with no_div0. }
  intros ? ?. apply no_div0_bind.
  { apply (no_div0_for_each (fun _ => True)); [| done].
    intros i s _. split; [| done]. no_div0_steps. auto with no_div0. }
  intros ? ?. no_div0_steps. auto with no_div0.
Qed.

Lemma srb_entry_denominator (srbs : vec) step r :
  Forall (fun r => - (1) < r) srbs → vcoeff srbs step = Ok r → 1 + r ≠ 0.
Proof.
  intros Hall [Hstep ->]%vcoeff_inv.
  apply srb_denominator, srb_above_minus_one.
  apply (at_Forall (fun r => - (1) < r)); [done |]. unfold vsize in Hstep. lia.
Qed.

Lemma no_div0_step_projection p step :
  Forall (fun r => - (1) < r) (srb p) → no_div0 (step_projection p step).
Proof.
  intros Hsrb. unfold step_projection. cbv zeta.
  no_div0_steps.
  apply no_div0_bind.
  { apply no_div0_sdiv. eapply srb_entry_denominator; eassumption. }
  intros ? ?. no_div0_steps. apply no_div0_Ok.
Qed.

Lemma step_projection_srb p step p' :
  step_projection p step = Ok p' → srb p' = srb p.
Proof.
  intros H. unfold step_projection in H. invert_binds H. by injection H as <-.
Qed.

Lemma no_div0_new_projection na ns nf idx span (basepop : vec) sxs fxs gxs (srbs : vec) :
  no_div0 (new_projection na ns nf idx span basepop sxs fxs gxs srbs).
Proof.
  unfold new_projection. no_div0_steps.
  apply no_div0_bind; [by case_bool_decide |]. intros ? ?.
  no_div0_steps. apply no_div0_Ok.
Qed.

Lemma new_projection_srb na ns nf idx span (basepop : vec) sxs fxs gxs (srbs : vec) p :
  new_projection na ns nf idx span basepop sxs fxs gxs srbs = Ok p → srb p = srbs.
Proof.
  intros H. unfold new_projection in H. invert_binds H. by injection H as <-.
Qed.

Lemma no_div0_ccmpp (basepop : vec) sxs fxs gxs (srbs : vec) span idx :
  Forall (fun r => - (1) < r) srbs →
  no_div0 (ccmpp basepop sxs fxs gxs srbs span idx).
Proof.
  intros Hsrb. unfold ccmpp. cbv zeta.
  apply no_div0_bind; [apply no_div0_new_projection |].
  intros p Hp%new_projection_srb.
  apply (no_div0_for_each (fun q => srb q = srbs)); [| done].
  intros step q Hq. split.
  - apply no_div0_step_projection. by rewrite Hq.
  - intros q' Hq'%step_projection_srb. congruence.
Qed.

Lemma no_div0_leslie_step sxs fxs gxs (srbs : vec) span idx step population :
  Forall (fun r => - (1) < r) srbs →
  no_div0 (leslie_step sxs fxs gxs srbs span idx step population).
Proof.
  intros Hsrb. unfold leslie_step. no_div0_steps.
  apply no_div0_bind.
  { apply no_div0_make_leslie_matrix. eapply srb_entry_denominator; eassumption. }
  intros ? ?. no_div0_steps. auto with no_div0.
Qed.

Lemma no_div0_ccmpp_leslie (basepop : vec) sxs fxs gxs (srbs : vec) span idx :
  Forall (fun r => - (1) < r) srbs →
  no_div0 (ccmpp_leslie basepop sxs fxs gxs srbs span idx).
Proof.
  intros Hsrb. unfold ccmpp_leslie. cbv zeta. no_div0_steps.
  apply (no_div0_for_each (fun _ => True)); [| done].
  intros step s _. split; [| done]. by apply no_div0_leslie_step.
Qed.

(** ** Lemmas: sums over a window *)

Lemma sum_upto_app a b F :
  sum_upto (a + b) F = sum_upto a F + sum_upto b (fun i => F (a + i)%nat).
Proof.
  induction b as [| b IH].
  - rewrite Nat.add_0_r, sum_upto_0. ring.
  - rewrite Nat.add_succ_r, !sum_upto_S, IH. ring.
Qed.

Lemma sum_upto_single n a F :
  (a < n)%nat → sum_upto n (fun j => if decide (j = a) then F j else 0) = F a.
Proof.
  intros Ha. replace n with (a + S (n - a - 1))%nat by lia.
  rewrite sum_upto_app, sum_upto_cons.
  rewrite !sum_upto_zero.
  - rewrite Nat.add_0_r, decide_True by done. ring.
  - intros i _. rewrite decide_False by lia. done.
  - intros i Hi. rewrite decide_False by lia. done.
Qed.

Lemma sum_upto_window n a c H :
  (a + c ≤ n)%nat →
  sum_upto n (fun j => if decide (a ≤ j < a + c)%nat then H (j - a)%nat else 0)
  = sum_upto c H.
Proof.
  intros Hle. replace n with (a + (c + (n - a - c)))%nat by lia.
  rewrite !sum_upto_app.
  rewrite (sum_upto_zero a), (sum_upto_zero (n - a - c)).
  - rewrite (sum_upto_ext c _ H); [ring |].
    intros i Hi. rewrite decide_True by lia. f_equal. lia.
  - intros i _. rewrite decide_False by lia. done.
  - intros i Hi. rewrite decide_False by lia. done.
Qed.

Lemma sum_upto_minus n F G :
  sum_upto n (fun i => F i - G i) = sum_upto n F - sum_upto n G.
Proof.
  induction n as [| n IH]; [rewrite !sum_upto_0; ring |].
  rewrite !sum_upto_S, IH. ring.
Qed.

(** ** Lemmas: the matrix form against the recurrence *)

Section MatrixAgainstRecurrence.
Variables (n idx m : nat) (span r : Qc) (sxv fxv gxv prev : vec).
Hypothesis Hsx : length sxv = S n.
Hypothesis Hfx : length fxv = m.
Hypothesis Hn : (2 ≤ n)%nat.
Hypothesis Hidx : (1 ≤ idx)%nat.
Hypothesis Hr : 1 + r ≠ 0.

Local Abbreviation Pop := (at_ prev).
Local Abbreviation Sx := (at_ sxv).
Local Abbreviation Fx := (at_ fxv).
Local Abbreviation Gx := (at_ gxv).
Local Abbreviation w := (exposed_at Pop Gx).
Local Abbreviation coeff :=
  (fun i j : nat =>
     default 0 (leslie_stored sxv fxv r span (Z.of_nat idx) (Z.of_nat i) (Z.of_nat j))).

Lemma leslie_coeff_top j :
  coeff 0%nat j
  = if decide (idx - 1 ≤ j < idx - 1 + S m)%nat
    then fert_blend sxv fxv (Z.of_nat idx) (Z.of_nat (j - (idx - 1)))
         * fert_k sxv r span
    else 0.
Proof.
  unfold leslie_stored, vsize. rewrite Hsx, Hfx.
  case_decide.
  - rewrite bool_decide_eq_true_2 by lia. cbn [default from_option id].
    do 2 f_equal. lia.
  - rewrite !bool_decide_eq_false_2 by lia. done.
Qed.

Lemma leslie_coeff_row i j :
  (1 ≤ i < n)%nat →
  coeff i j
  = (if decide (j = i - 1)%nat then Sx i else 0)
    + (if decide (j = n - 1)%nat then (if decide (i = n - 1)%nat then Sx n else 0) else 0).
Proof.
  intros Hi. unfold leslie_stored, vsize. rewrite Hsx, Hfx.
  rewrite bool_decide_eq_false_2 by lia.
  repeat case_decide; repeat case_bool_decide; try lia;
    cbn [default from_option id]; rewrite ?Nat2Z.id;
    try replace (Z.to_nat (Z.of_nat (S n) - 1)) with n by lia; ring.
Qed.

(** The rows below the top one. *)
Lemma leslie_row_aging i :
  (1 ≤ i < n)%nat →
  sum_upto n (fun j => coeff i j * w j)
  = Sx i * w (i - 1)%nat + (if decide (i = n - 1)%nat then Sx n * w (n - 1)%nat else 0).
Proof.
  intros Hi.
  rewrite (sum_upto_ext n _ (fun j =>
    (if decide (j = i - 1)%nat then Sx i * w j else 0)
    + (if decide (j = n - 1)%nat
       then (if decide (i = n - 1)%nat then Sx n else 0) * w j else 0))).
  2:{ intros j Hj. rewrite leslie_coeff_row by done.
      repeat case_decide; ring. }
  rewrite sum_upto_plus.
  rewrite (sum_upto_single n (i - 1) (fun j => Sx i * w j)) by lia.
  rewrite (sum_upto_single n (n - 1)
             (fun j => (if decide (i = n - 1)%nat then Sx n else 0) * w j)) by lia.
  case_decide; ring.
Qed.

(** The top row: the blend of the two fertility offsets, regrouped by
    fertile age group. *)
Lemma leslie_row_fertility :
  (idx + m ≤ n)%nat →
  sum_upto n (fun j => coeff 0%nat j * w j)
  = fert_k sxv r span
    * sum_upto m (fun i =>
        Fx i * Sx (idx + i)%nat * w (idx + i - 1)%nat + Fx i * w (idx + i)%nat).
Proof.
  intros Hwin.
  pose (H := fun i => fert_blend sxv fxv (Z.of_nat idx) (Z.of_nat i)
                      * fert_k sxv r span * w (idx - 1 + i)%nat).
  rewrite (sum_upto_ext n _ (fun j =>
    if decide (idx - 1 ≤ j < idx - 1 + S m)%nat then H (j - (idx - 1))%nat else 0)).
  2:{ intros j Hj. rewrite leslie_coeff_top. unfold H. case_decide; [| ring].
      do 2 f_equal. lia. }
  rewrite sum_upto_window by lia. unfold H. clear H.
  rewrite (sum_upto_ext (S m) _ (fun i =>
    fert_k sxv r span
    * ((if decide (i < m)%nat then Fx i * Sx (idx + i)%nat * w (idx + i - 1)%nat else 0)
       + (if decide (0 < i)%nat then Fx (i - 1)%nat * w (idx + (i - 1))%nat else 0)))).
  2:{ intros i Hi. unfold fert_blend, vsize. rewrite Hfx.
      repeat case_decide; repeat case_bool_decide; try lia;
        rewrite ?Nat2Z.id;
        try replace (Z.to_nat (Z.of_nat idx + Z.of_nat i)) with (idx + i)%nat by lia;
        try replace (Z.to_nat (Z.of_nat i - 1)) with (i - 1)%nat by lia;
        try replace (idx - 1 + i)%nat with (idx + i - 1)%nat by lia;
        try replace (idx + (i - 1))%nat with (idx + i - 1)%nat by lia;
        ring. }
  rewrite sum_upto_scale, sum_upto_plus. f_equal.
  rewrite (sum_upto_plus m). f_equal.
  - rewrite sum_upto_S, decide_False by lia.
    rewrite (sum_upto_ext m _ (fun i => Fx i * Sx (idx + i)%nat * w (idx + i - 1)%nat)).
    + ring.
    + intros i Hi. by rewrite decide_True.
  - rewrite sum_upto_cons, decide_False by lia.
    rewrite (sum_upto_ext m _ (fun i => Fx i * w (idx + i)%nat)).
    + ring.
    + intros i Hi. rewrite decide_True by lia.
      replace (S i - 1)%nat with i by lia. done.
Qed.

(** The births of the direct step when the fertile window stops short
    of the open age group. *)
Lemma births_below_open_group i :
  (idx + m ≤ n - 1)%nat → (i < m)%nat →
  births_at n idx span Pop Sx Fx Gx i
  = half * span
    * (Fx i * Sx (idx + i)%nat * w (idx + i - 1)%nat + Fx i * w (idx + i)%nat).
Proof.
  intros Hwin Hi. unfold births_at, aged_at, shifted_at, died_at.
  rewrite decide_False by lia. rewrite decide_True by lia. ring.
Qed.

Lemma leslie_next_direct :
  length prev = n → (idx + m ≤ n - 1)%nat →
  leslie_next sxv fxv gxv r span (Z.of_nat idx) prev
  = tabulate n (next_population_at n idx m span r Pop Sx Fx Gx).
Proof.
  intros Hprev Hwin. unfold leslie_next. rewrite Hprev.
  apply tabulate_ext. intros i Hi.
  destruct (decide (i = 0%nat)) as [-> | Hi0].
  - rewrite leslie_row_fertility by lia.
    rewrite next_population_youngest, deaths_infant. unfold infants_of.
    rewrite (sum_upto_ext m _ _ (fun i Hi => births_below_open_group i Hwin Hi)).
    rewrite sum_upto_scale. unfold fert_k. field. done.
  - rewrite leslie_row_aging by lia.
    destruct (decide (i = n - 1)%nat) as [-> | Hlast].
    + rewrite next_population_oldest by lia.
      rewrite !deaths_later by lia. unfold died_at.
      replace (n - 1 - 1)%nat with (n - 2)%nat by lia. ring.
    + rewrite next_population_middle by lia.
      rewrite deaths_later by lia. unfold died_at. ring.
Qed.
End MatrixAgainstRecurrence.

(** ** Lemmas: the matrix-form step and its loop *)

Lemma fmap_seqZ_tabulate (f : Z → Qc) n :
  f <$> seqZ 0 (Z.of_nat n) = tabulate n (fun i => f (Z.of_nat i)).
Proof.
  unfold seqZ, tabulate. rewrite Nat2Z.id, <- list_fmap_compose.
  apply list_fmap_ext. intros _ i _. cbn. f_equal. lia.
Qed.

Lemma sp_mul_tabulate L n X :
  sp_rows L = Z.of_nat n → sp_cols L = Z.of_nat n →
  sp_mul L (tabulate n X)
  = Ok (tabulate n (fun i =>
          sum_upto n (fun j => sp_coeff L (Z.of_nat i) (Z.of_nat j) * X j))).
Proof.
  intros Hr Hc. unfold sp_mul. rewrite vsize_tabulate, Hr, Hc.
  rewrite bool_decide_eq_true_2 by done. f_equal.
  rewrite fmap_seqZ_tabulate. apply tabulate_ext. intros i Hi.
  unfold sp_row_dot. rewrite Hc, fmap_seqZ_tabulate, vsum_tabulate.
  apply sum_upto_ext. intros j Hj.
  by rewrite Nat2Z.id, lookup_tabulate.
Qed.

Lemma leslie_step_runs sxs fxs gxs (srbs : vec) span idx k population n ns m :
  table sxs (n + 1) ns → table fxs m ns → table gxs n ns → vsize srbs = ns →
  table population n (ns + 1) → (Z.of_nat k < ns)%Z →
  (2 ≤ n)%Z → (1 ≤ idx)%Z → (0 ≤ m)%Z → (idx + m ≤ n)%Z → 1 + at_ srbs k ≠ 0 →
  leslie_step sxs fxs gxs srbs span idx (Z.of_nat k) population
  = Ok (leslie_stepped sxs fxs gxs srbs span idx k population).
Proof.
  intros Hsx Hfx Hgx Hsrb Hpop Hk Hn Hidx Hm Hwin Hr.
  destruct (Z_of_nat_complete n) as [n' ->]; [lia |].
  pose proof (table_column _ _ _ k Hsx Hk) as [_ Lsx].
  pose proof (table_column _ _ _ k Hfx Hk) as [_ Lfx].
  pose proof (table_column _ _ _ k Hgx Hk) as [_ Lgx].
  pose proof (table_column _ _ _ k Hpop ltac:(lia)) as [_ Lprev].
  rewrite Nat2Z.id in Lgx, Lprev.
  unfold leslie_step, leslie_stepped, leslie_next.
  rewrite (col_table _ _ _ k Hpop) by lia. rewrite bind_Ok.
  rewrite (col_table _ _ _ k Hgx) by lia. rewrite bind_Ok.
  rewrite Lprev.
  set (Pop := at_ (column population k)).
  set (Gx := at_ (column gxs k)).
  assert (column population k = tabulate n' Pop) as Eprev
    by (rewrite <- Lprev; apply tabulate_at).
  assert (column gxs k = tabulate n' Gx) as Egx
    by (rewrite <- Lgx; apply tabulate_at).
  statement (tabulate n' (migrants_at Pop Gx))
    by (rewrite Eprev, Egx; apply cwise_tabulate).
  rewrite (col_table _ _ _ k Hsx) by lia. rewrite bind_Ok.
  rewrite (col_table _ _ _ k Hfx) by lia. rewrite bind_Ok.
  rewrite (vcoeff_at srbs) by lia. rewrite bind_Ok, Nat2Z.id.
  destruct (make_leslie_matrix_runs (column sxs k) (column fxs k) (at_ srbs k) span idx)
    as (L & HL & Hrows & Hcols & Hst); unfold vsize; try lia; [done |].
  rewrite HL, bind_Ok.
  statement (tabulate n' (exposed_at Pop Gx))
    by (rewrite Eprev, scale_tabulate; apply cwise_tabulate).
  rewrite sp_mul_tabulate by (unfold vsize in *; lia). rewrite bind_Ok.
  rewrite scale_tabulate, cwise_tabulate, bind_Ok.
  replace (Z.of_nat k + 1)%Z with (Z.of_nat (S k)) by lia.
  rewrite (set_col_table _ _ _ (S k) _ Hpop) by (rewrite ?length_tabulate; lia).
  do 3 f_equal. apply tabulate_ext. intros i Hi. f_equal.
  apply sum_upto_ext. intros j Hj. unfold sp_coeff. by rewrite Hst.
Qed.

Lemma leslie_stepped_direct p k M :
  shaped p → (Z.of_nat k < n_steps p)%Z →
  (2 ≤ n_ages p)%Z → (1 ≤ fx_idx p)%Z → (fx_idx p + n_fx p ≤ n_ages p - 1)%Z →
  1 + at_ (srb p) k ≠ 0 →
  columns M = columns (population p) →
  columns (leslie_stepped (sx p) (fx p) (gx p) (srb p) (age_span p) (fx_idx p) k M)
  = columns (population (stepped p k)).
Proof.
  intros Hp Hk Hn Hidx Hwin Hr HM.
  unfold leslie_stepped, stepped. cbn [columns population]. rewrite HM. f_equal.
  unfold column at 4. rewrite HM. fold (column (population p) k).
  pose proof (table_column _ _ _ k (shaped_sx p Hp) Hk) as [_ Lsx].
  pose proof (table_column _ _ _ k (shaped_fx p Hp) Hk) as [_ Lfx].
  pose proof (table_column _ _ _ k (shaped_population p Hp) ltac:(lia)) as [_ Lprev].
  pose proof (shaped_n_fx p Hp).
  rewrite <- (Z2Nat.id (fx_idx p)) at 1 by lia.
  apply (leslie_next_direct (Z.to_nat (n_ages p)) (Z.to_nat (fx_idx p))
           (Z.to_nat (n_fx p))); try done; lia.
Qed.

Lemma leslie_loop c : ∀ k p M,
  shaped p → columns M = columns (population p) → nrows M = nrows (population p) →
  (Z.of_nat (k + c) ≤ n_steps p)%Z →
  (2 ≤ n_ages p)%Z → (1 ≤ fx_idx p)%Z → (fx_idx p + n_fx p ≤ n_ages p - 1)%Z →
  (∀ j, (k ≤ j < k + c)%nat → 1 + at_ (srb p) j ≠ 0) →
  ∃ M', for_each (seqZ (Z.of_nat k) (Z.of_nat c))
          (leslie_step (sx p) (fx p) (gx p) (srb p) (age_span p) (fx_idx p)) M = Ok M' ∧
        columns M' = columns (population (advanced c k p)).
Proof.
  induction c as [| c IH]; intros k p M Hp HM Hrows Hk Hn Hidx Hwin Hr.
  { exists M. by split. }
  rewrite seqZ_cons by lia. cbn [for_each advanced].
  assert (table M (n_ages p) (n_steps p + 1)) as HtM.
  { destruct (shaped_population p Hp) as (Hr' & Hc' & Hall).
    unfold table, mat_rows, mat_cols in *. rewrite HM, Hrows. done. }
  rewrite (leslie_step_runs _ _ _ _ _ _ _ _ (n_ages p) (n_steps p) (n_fx p));
    try apply Hp; try done; try lia; [| apply Hr; lia].
  rewrite bind_Ok.
  replace (Z.succ (Z.of_nat k)) with (Z.of_nat (S k)) by lia.
  replace (Z.pred (Z.of_nat (S c))) with (Z.of_nat c) by lia.
  apply (IH (S k) (stepped p k)).
  - by apply shaped_stepped.
  - apply leslie_stepped_direct; try done; try lia. apply Hr. lia.
  - done.
  - cbn [stepped n_steps]. lia.
  - done.
  - done.
  - done.
  - intros j Hj. cbn [stepped srb]. apply Hr. lia.
Qed.

(** * The claims *)

(** ** Tactics for concrete inputs *)

(** Equations and disequations between closed scalars. *)
Ltac scalar_eq := apply Qc_is_canon; vm_compute; reflexivity.
Ltac scalar_neq :=
  let H := fresh in
  intros H; apply (f_equal this) in H; vm_compute in H; discriminate H.

(** The shapes of a concrete table or container. *)
Ltac table_shape := repeat split; [reflexivity .. | repeat constructor].
Ltac container_shape :=
  split; first [ solve [table_shape] | reflexivity | (vm_compute; congruence) ].

(** C1.  Equivalence of the two computation paths: the claim fails on
    the code.  With two age groups, [fx_idx = 1] and [n_fx = 1] (the open
    age group is the fertile one, [fx_idx + n_fx - 1 = n_ages - 1]), base
    population [1, 1], full survival, fertility 1, no migration,
    [srb = 0] and [age_span = 1], the shapes are consistent and
    [srb > -1], yet after one step [ccmpp_leslie] returns the column
    [1, 2] (total 3) and [ccmpp] the column [3/2, 2] (total 7/2).  The
    direct step takes its second births half-step on the aged
    population, whose oldest entry holds the survivors who stay in the
    open age group; the Leslie matrix has no coefficient for their
    births. *)
Lemma paths_disagree_fertile_open_group :
  valid_inputs fertile_open_basepop fertile_open_sx fertile_open_fx
    fertile_open_gx fertile_open_srb 1 ∧
  (2 ≤ vsize fertile_open_basepop)%Z ∧
  (1 + mat_rows fertile_open_fx - 1 ≤ vsize fertile_open_basepop - 1)%Z ∧
  Forall (fun r => - (1) < r) fertile_open_srb ∧
  ∃ by_matrix direct,
    ccmpp_leslie fertile_open_basepop fertile_open_sx fertile_open_fx
      fertile_open_gx fertile_open_srb 1 1 = Ok by_matrix ∧
    ccmpp fertile_open_basepop fertile_open_sx fertile_open_fx
      fertile_open_gx fertile_open_srb 1 1 = Ok direct ∧
    column by_matrix 1 = [1; q_ 2] ∧
    column (population direct) 1 = [Q2Qc (3 # 2); q_ 2] ∧
    total by_matrix 1 = q_ 3 ∧
    total (population direct) 1 = Q2Qc (7 # 2) ∧
    total by_matrix 1 ≠ total (population direct) 1.
Proof.
  split; [split; first [ solve [table_shape] | reflexivity | (vm_compute; congruence) ] |].
  split; [vm_compute; congruence |]. split; [vm_compute; congruence |].
  split; [repeat constructor |].
  eexists. eexists.
  split; [vm_compute; reflexivity |]. split; [vm_compute; reflexivity |].
  split; [vm_compute; reflexivity |]. split; [vm_compute; reflexivity |].
  split; [vm_compute; reflexivity |]. split; [vm_compute; reflexivity |].
  vm_compute. discriminate.
Qed.

(** C2 (amended).  Closed-population conservation: on a container with
    at least two age groups, when column [k] of [gx] is zero, step [k]
    completes and afterwards the total of population column [k + 1] plus
    the sum of deaths column [k] (indices 0..n_ages) equals the total of
    population column [k] plus [infants[k]]. *)
Theorem closed_population_conservation p k :
  shaped p → (2 ≤ n_ages p)%Z → (Z.of_nat k < n_steps p)%Z →
  at_ (srb p) k ≠ - (1) →
  (∀ i, entry (gx p) i k = 0) →
  ∃ p', step_projection p (Z.of_nat k) = Ok p' ∧
    total (population p') (S k) + vsum (column (deaths p') k)
    = total (population p) k + at_ (infants p') k.
Proof.
  intros Hp Hn Hk Hr Hgx. exists (stepped p k). split.
  { apply step_projection_runs; auto using srb_denominator. }
  rewrite (previous_total p k Hp Hk). unfold total.
  rewrite (stepped_population p k Hp Hk), (stepped_deaths p k Hp Hk),
    (stepped_infants p k Hp Hk).
  rewrite !vsum_tabulate.
  rewrite step_balance by lia.
  rewrite exposed_total, no_migration by (intros; apply Hgx). ring.
Qed.

Lemma closed_population_conservation_witness :
  ∃ p', step_projection (boundary 1) (Z.of_nat 0) = Ok p' ∧
    total (population p') 1 + vsum (column (deaths p') 0)
    = total (population (boundary 1)) 0 + at_ (infants p') 0.
Proof.
  apply (closed_population_conservation (boundary 1) 0).
  - container_shape.
  - vm_compute; congruence.
  - reflexivity.
  - scalar_neq.
  - intros [| [| [| i]]]; reflexivity.
Defined.

(** C2, as stated, fails with a single age group: the survivors of the
    only group are overwritten by the infants, so a survivor is neither
    in the next population nor among the deaths. *)
Lemma conservation_fails_single_group :
  new_projection 1 1 0 1 1 [1] (one_column single_group_sx_column) (Matrix 0 [[]])
    (one_column [0]) [0] = Ok single_group ∧
  shaped single_group ∧
  (∀ i, entry (gx single_group) i 0 = 0) ∧
  ∃ p', step_projection single_group 0 = Ok p' ∧
    total (population p') 1 = 0 ∧ vsum (column (deaths p') 0) = 0 ∧
    total (population single_group) 0 = 1 ∧ at_ (infants p') 0 = 0 ∧
    total (population p') 1 + vsum (column (deaths p') 0)
    ≠ total (population single_group) 0 + at_ (infants p') 0.
Proof.
  split; [vm_compute; reflexivity |].
  split; [container_shape |]. split; [intros [| i]; reflexivity |].
  exists (stepped single_group 0).
  split; [vm_compute; reflexivity |].
  split; [scalar_eq |]. split; [scalar_eq |]. split; [scalar_eq |].
  split; [scalar_eq |]. scalar_neq.
Qed.

(** C3 (amended).  Leslie matrix structure: for [sx] of length
    [n_ages + 1] with at least two age groups, [srb ≠ -1],
    [1 ≤ fx_idx] and [fx_idx + n_fx - 1 ≤ n_ages - 1], the builder
    returns an [n_ages × n_ages] matrix with [sx[i]] at [(i, i - 1)] for
    [i = 1 .. n_ages - 1], [sx[n_ages]] at [(n_ages - 1, n_ages - 1)],
    multiples of [fert_k] in row 0 at columns
    [fx_idx - 1 .. fx_idx + n_fx - 1], nothing stored anywhere else,
    and at most two stored coefficients in every column. *)
Theorem leslie_matrix_structure (sxv fxv : vec) srb span idx n :
  vsize sxv = (n + 1)%Z → (2 ≤ n)%Z → srb ≠ - (1) →
  (1 ≤ idx)%Z → (idx + vsize fxv - 1 ≤ n - 1)%Z →
  ∃ L, make_leslie_matrix sxv fxv srb span idx = Ok L ∧
    sp_rows L = n ∧ sp_cols L = n ∧
    (∀ i, (1 ≤ i ≤ n - 1)%Z → sp_coeff L i (i - 1) = at_ sxv (Z.to_nat i)) ∧
    sp_coeff L (n - 1) (n - 1) = at_ sxv (Z.to_nat n) ∧
    (∀ j, (idx - 1 ≤ j ≤ idx + vsize fxv - 1)%Z →
       sp_coeff L 0 j = fert_blend sxv fxv idx (j - (idx - 1)) * fert_k sxv srb span) ∧
    (∀ i j, ¬ (1 ≤ i ≤ n - 1 ∧ j = i - 1)%Z → ¬ (i = n - 1 ∧ j = n - 1)%Z →
       ¬ (i = 0 ∧ idx - 1 ≤ j ≤ idx + vsize fxv - 1)%Z →
       sp_entries L !! (i, j) = None ∧ sp_coeff L i j = 0) ∧
    (∀ j, length (sp_col_stored L j) ≤ 2)%nat.
Proof.
  intros Hlen Hn Hsrb Hidx Hwin.
  destruct (make_leslie_matrix_runs sxv fxv srb span idx) as (L & HL & Hr & Hc & Hst);
    try lia; [by apply srb_denominator |].
  replace (vsize sxv - 1)%Z with n in * by lia.
  exists L. split; [done |]. split; [done |]. split; [done |].
  assert (∀ i j, ¬ (1 ≤ i ≤ n - 1 ∧ j = i - 1)%Z → ¬ (i = n - 1 ∧ j = n - 1)%Z →
            ¬ (i = 0 ∧ idx - 1 ≤ j ≤ idx + vsize fxv - 1)%Z →
            sp_entries L !! (i, j) = None) as Hnone.
  { intros i j H1 H2 H3. rewrite Hst. unfold leslie_stored.
    replace (vsize sxv - 1)%Z with n by lia.
    rewrite !bool_decide_eq_false_2; [done | done | done |].
    intros (-> & ?). apply H3. split; [done | lia]. }
  repeat split.
  - intros i Hi. apply sp_coeff_stored. rewrite Hst. unfold leslie_stored.
    replace (vsize sxv - 1)%Z with n by lia.
    rewrite bool_decide_eq_false_2 by lia. by rewrite bool_decide_eq_true_2.
  - apply sp_coeff_stored. rewrite Hst. unfold leslie_stored.
    replace (vsize sxv - 1)%Z with n by lia.
    rewrite !bool_decide_eq_false_2 by lia. by rewrite bool_decide_eq_true_2.
  - intros j Hj. apply sp_coeff_stored. rewrite Hst. unfold leslie_stored.
    by rewrite bool_decide_eq_true_2 by lia.
  - by apply Hnone.
  - apply sp_coeff_absent. by apply Hnone.
  - intros j. unfold sp_col_stored.
    apply (length_two_candidates _ 0%Z (if decide (j = n - 1)%Z then (n - 1)%Z else (j + 1)%Z)).
    { apply NoDup_filter, NoDup_seqZ. }
    intros i [Hsome _]%list_elem_of_filter.
    destruct (decide (i = 0%Z)) as [| Hi0]; [by left | right].
    destruct (decide (1 ≤ i ≤ n - 1 ∧ j = i - 1)%Z) as [[? ->] | H1].
    { rewrite decide_False by lia. lia. }
    destruct (decide (i = n - 1 ∧ j = n - 1)%Z) as [[-> ->] | H2].
    { by rewrite decide_True. }
    rewrite Hnone in Hsome; [by destruct Hsome | done | done | lia].
Qed.

Lemma leslie_matrix_structure_witness :
  ∃ L, make_leslie_matrix fertile_open_sx_column fertile_open_fx_column 0 1 1 = Ok L ∧
    sp_rows L = 2%Z ∧ sp_cols L = 2%Z ∧
    (∀ i, (1 ≤ i ≤ 2 - 1)%Z →
       sp_coeff L i (i - 1) = at_ fertile_open_sx_column (Z.to_nat i)) ∧
    sp_coeff L (2 - 1) (2 - 1) = at_ fertile_open_sx_column (Z.to_nat 2) ∧
    (∀ j, (1 - 1 ≤ j ≤ 1 + vsize fertile_open_fx_column - 1)%Z →
       sp_coeff L 0 j
       = fert_blend fertile_open_sx_column fertile_open_fx_column 1 (j - (1 - 1))
         * fert_k fertile_open_sx_column 0 1) ∧
    (∀ i j, ¬ (1 ≤ i ≤ 2 - 1 ∧ j = i - 1)%Z → ¬ (i = 2 - 1 ∧ j = 2 - 1)%Z →
       ¬ (i = 0 ∧ 1 - 1 ≤ j ≤ 1 + vsize fertile_open_fx_column - 1)%Z →
       sp_entries L !! (i, j) = None ∧ sp_coeff L i j = 0) ∧
    (∀ j, length (sp_col_stored L j) ≤ 2)%nat.
Proof.
  apply (leslie_matrix_structure fertile_open_sx_column fertile_open_fx_column 0 1 1 2).
  - reflexivity.
  - lia.
  - scalar_neq.
  - lia.
  - vm_compute; congruence.
Defined.

(** C3, as stated, fails with a single age group: the only admissible
    fertile window is empty with [fx_idx = 1], and then the top row and
    the open age group both claim the coefficient [(0, 0)]. *)
Lemma leslie_single_group_fails :
  vsize single_group_sx_column = (1 + 1)%Z ∧ (1 ≤ 1)%Z ∧
  (1 + vsize (@nil Qc) - 1 ≤ 1 - 1)%Z ∧ (0 : Qc) ≠ - (1) ∧
  make_leslie_matrix single_group_sx_column [] 0 1 1 = Err ElementExists.
Proof.
  split; [reflexivity |]. split; [lia |]. split; [vm_compute; congruence |].
  split; [scalar_neq |]. vm_compute. reflexivity.
Qed.

(** C4.  Open-age-group accumulation: with at least two age groups and
    [w] the previous population column plus half the migrants of the
    step, the new oldest population entry is
    [(w[n-2] - deaths[n-1]) + (w[n-1] - deaths[n]) + 0.5 * migrations[n-1]]:
    the aged-up survivors of the next-oldest group plus the survivors of
    the open group itself. *)
Theorem open_age_group_accumulates p k :
  shaped p → (2 ≤ n_ages p)%Z → (Z.of_nat k < n_steps p)%Z →
  at_ (srb p) k ≠ - (1) →
  ∃ p', step_projection p (Z.of_nat k) = Ok p' ∧
    let n := Z.to_nat (n_ages p) in
    let w i := entry (population p) i k + half * entry (migrations p') i k in
    entry (population p') (n - 1) (S k)
    = (w (n - 2)%nat - entry (deaths p') (n - 1) k)
      + (w (n - 1)%nat - entry (deaths p') n k)
      + half * entry (migrations p') (n - 1) k.
Proof.
  intros Hp Hn Hk Hr. exists (stepped p k). split.
  { apply step_projection_runs; auto using srb_denominator. }
  cbv zeta. unfold entry.
  rewrite (stepped_population p k Hp Hk), (stepped_deaths p k Hp Hk),
    (stepped_migrations p k Hp Hk).
  rewrite !at_tabulate by lia.
  rewrite next_population_oldest by lia. reflexivity.
Qed.

Lemma open_age_group_accumulates_witness :
  ∃ p', step_projection sample (Z.of_nat 0) = Ok p' ∧
    let w i := entry (population sample) i 0 + half * entry (migrations p') i 0 in
    entry (population p') 2 1
    = (w 1%nat - entry (deaths p') 2 0) + (w 2%nat - entry (deaths p') 3 0)
      + half * entry (migrations p') 2 0.
Proof.
  apply (open_age_group_accumulates sample 0).
  - container_shape.
  - vm_compute; congruence.
  - reflexivity.
  - scalar_neq.
Defined.

(** C5.  Boundary scenario: three age groups of 100 with full survival,
    zero fertility ([fx_idx = 1], [n_fx = 1]), no migration, [srb = 0]
    and one step give the population column [0, 100, 200], whatever the
    age span. *)
Theorem boundary_scenario span :
  ∃ proj, ccmpp boundary_basepop boundary_sx boundary_fx boundary_gx
            boundary_srb span 1 = Ok proj ∧
    columns (population proj) !! 1%nat = Some [0; q_ 100; q_ 200].
Proof.
  eexists. split.
  { apply ccmpp_runs.
    - split; first [ solve [table_shape] | reflexivity | (vm_compute; congruence) ].
    - repeat constructor. scalar_neq. }
  change (length (columns boundary_sx)) with 1%nat. cbn [advanced].
  unfold stepped at 1. cbn [population columns].
  rewrite list_lookup_insert_eq by (vm_compute; lia). f_equal.
  change (Z.to_nat (n_ages _)) with 3%nat.
  change (tabulate 3 ?F) with [F 0%nat; F 1%nat; F 2%nat].
  apply (f_equal2 (@cons Qc)); [| apply (f_equal2 (@cons Qc));
    [| apply (f_equal2 (@cons Qc)); [| reflexivity ]]].
  - (* age 0: no births, no migrants *)
    rewrite next_population_youngest, deaths_infant, zero_fertility_infants.
    + scalar_eq.
    + intros [| i] Hi; [reflexivity | vm_compute in Hi; lia].
  - (* age 1: the survivors of age 0 *)
    scalar_eq.
  - (* age 2: the survivors of age 1 and of the open group itself *)
    scalar_eq.
Qed.

(** C6.  Infant accounting: for a step [k] with [srb[k] ≠ -1], the step
    completes and the container it returns has, at column [k], the
    births of the recurrence (the two births half-steps, from population
    column [k] and columns [k] of [sx], [fx], [gx]), [infants[k]] equal to
    the sum of that births column divided by [1 + srb[k]],
    [deaths[0][k]] equal to [infants[k] * (1 - sx[0][k])] and
    [migrations[0][k]] equal to [population[0][k] * gx[0][k]]; and the
    age-0 entry of population column [k + 1] is
    [infants[k] - deaths[0][k]], that is [infants[k] * sx[0][k]], plus
    [0.5 * migrations[0][k]].  Every one of these entries is stored in
    its table. *)
Theorem infant_accounting p k :
  shaped p → (Z.of_nat k < n_steps p)%Z → at_ (srb p) k ≠ - (1) →
  ∃ p', step_projection p (Z.of_nat k) = Ok p' ∧
    let Pop := at_ (column (population p) k) in
    let Sx := at_ (column (sx p) k) in
    let Fx := at_ (column (fx p) k) in
    let Gx := at_ (column (gx p) k) in
    columns (births p') !! k
    = Some (tabulate (Z.to_nat (n_fx p))
              (births_at (Z.to_nat (n_ages p)) (Z.to_nat (fx_idx p)) (age_span p)
                 Pop Sx Fx Gx)) ∧
    infants p' !! k = Some (vsum (column (births p') k) / (1 + at_ (srb p) k)) ∧
    stored (deaths p') 0 k = Some (at_ (infants p') k * (1 - entry (sx p) 0 k)) ∧
    stored (migrations p') 0 k = Some (entry (population p) 0 k * entry (gx p) 0 k) ∧
    stored (population p') 0 (S k)
    = Some (at_ (infants p') k - entry (deaths p') 0 k
            + half * entry (migrations p') 0 k) ∧
    stored (population p') 0 (S k)
    = Some (at_ (infants p') k * entry (sx p) 0 k
            + half * entry (migrations p') 0 k).
Proof.
  intros Hp Hk Hr. exists (stepped p k). split.
  { apply step_projection_runs; auto using srb_denominator. }
  pose proof (shaped_stepped p k Hp) as Hq.
  pose proof (shaped_ages p Hp) as Hages.
  assert (Z.of_nat k < n_steps (stepped p k))%Z as Hkq by done.
  assert (1 ≤ n_ages (stepped p k))%Z as Hnq by done.
  cbv zeta.
  rewrite (stored_entry _ _ _ 0 k (shaped_deaths _ Hq)) by lia.
  rewrite (stored_entry _ _ _ 0 k (shaped_migrations _ Hq)) by lia.
  rewrite (stored_entry _ _ _ 0 (S k) (shaped_population _ Hq)) by lia.
  destruct (table_column _ _ _ k (shaped_births _ Hq) Hkq) as [-> _].
  rewrite lookup_at
    by (pose proof (shaped_infants _ Hq) as Hi; unfold vsize in Hi; lia).
  unfold entry.
  rewrite (stepped_population p k Hp Hk), (stepped_deaths p k Hp Hk),
    (stepped_births p k Hp Hk), (stepped_infants p k Hp Hk),
    (stepped_migrations p k Hp Hk).
  rewrite !at_tabulate by lia. rewrite vsum_tabulate.
  rewrite next_population_youngest, deaths_infant.
  repeat split. f_equal. ring.
Qed.

Lemma infant_accounting_witness :
  ∃ p', step_projection sample (Z.of_nat 0) = Ok p' ∧
    let Pop := at_ (column (population sample) 0) in
    let Sx := at_ (column (sx sample) 0) in
    let Fx := at_ (column (fx sample) 0) in
    let Gx := at_ (column (gx sample) 0) in
    columns (births p') !! 0%nat
    = Some (tabulate (Z.to_nat (n_fx sample))
              (births_at (Z.to_nat (n_ages sample)) (Z.to_nat (fx_idx sample))
                 (age_span sample) Pop Sx Fx Gx)) ∧
    infants p' !! 0%nat
    = Some (vsum (column (births p') 0) / (1 + at_ (srb sample) 0)) ∧
    stored (deaths p') 0 0 = Some (at_ (infants p') 0 * (1 - entry (sx sample) 0 0)) ∧
    stored (migrations p') 0 0
    = Some (entry (population sample) 0 0 * entry (gx sample) 0 0) ∧
    stored (population p') 0 1
    = Some (at_ (infants p') 0 - entry (deaths p') 0 0
            + half * entry (migrations p') 0 0) ∧
    stored (population p') 0 1
    = Some (at_ (infants p') 0 * entry (sx sample) 0 0
            + half * entry (migrations p') 0 0).
Proof.
  apply (infant_accounting sample 0).
  - container_shape.
  - reflexivity.
  - scalar_neq.
Defined.

(** C7.  Zero-fertility stability: when every entry of [fx] is zero (and
    no [srb] entry is -1), [ccmpp] completes with the base population in
    column 0, and for every step [k] the result stores a births column
    [k] of zeros, [infants[k] = 0], [deaths[0][k] = 0],
    [migrations[0][k] = population[0][k] * gx[0][k]], and an age-0 entry
    of population column [k + 1] that is exactly
    [0.5 * migrations[0][k]], that is
    [0.5 * population[0][k] * gx[0][k]]. *)
Theorem zero_fertility_stability (basepop : vec) sxs fxs gxs (srbs : vec) span idx :
  valid_inputs basepop sxs fxs gxs srbs idx →
  Forall (fun r => r ≠ - (1)) srbs →
  (∀ i k, entry fxs i k = 0) →
  ∃ proj, ccmpp basepop sxs fxs gxs srbs span idx = Ok proj ∧
    columns (population proj) !! 0%nat = Some basepop ∧
    ∀ k, (k < length (columns sxs))%nat →
      columns (births proj) !! k = Some (zeros (nrows fxs)) ∧
      infants proj !! k = Some 0 ∧
      stored (deaths proj) 0 k = Some 0 ∧
      stored (migrations proj) 0 k
      = Some (entry (population proj) 0 k * entry gxs 0 k) ∧
      stored (population proj) 0 (S k)
      = Some (half * entry (migrations proj) 0 k) ∧
      stored (population proj) 0 (S k)
      = Some (half * (entry (population proj) 0 k * entry gxs 0 k)).
Proof.
  intros Hin Hsrb Hfx. eexists. split; [by apply ccmpp_runs |].
  pose proof (shaped_constructed _ _ _ _ _ idx span Hin) as Hp0.
  destruct (advanced_spec (length (columns sxs)) 0 _ Hp0) as (Hq & Hsame & Hset & Hrec).
  { unfold constructed, mat_cols. cbn [n_steps]. lia. }
  set (q := advanced _ _ _) in *.
  destruct Hsame as (En & Es & Em & Eidx & Espan & Esx & Efx & Egx & Esrb).
  cbn [constructed n_ages n_steps n_fx fx_idx age_span sx fx gx srb] in *.
  split.
  { destruct Hset as (Sp & _). rewrite Sp by lia.
    unfold constructed. cbn [population columns].
    rewrite list_lookup_insert_eq; [done |].
    rewrite length_replicate. unfold mat_cols. lia. }
  intros k Hk.
  assert (Z.of_nat k < n_steps q)%Z as Hkq by (rewrite Es; unfold mat_cols; lia).
  destruct (recorded_columns q k Hq Hkq) as (Rp & Rd & Rb & Rm & Ri).
  { apply Hrec. lia. }
  pose proof (shaped_ages q Hq) as Hages.
  assert (infants_of (Z.to_nat (n_ages q)) (Z.to_nat (fx_idx q)) (Z.to_nat (n_fx q))
            (age_span q) (at_ (srb q) k) (at_ (column (population q) k))
            (at_ (column (sx q) k)) (at_ (column (fx q) k)) (at_ (column (gx q) k))
          = 0) as Hinf.
  { apply zero_fertility_infants. intros i _. rewrite Efx. apply Hfx. }
  rewrite (stored_entry _ _ _ 0 k (shaped_deaths _ Hq)) by lia.
  rewrite (stored_entry _ _ _ 0 k (shaped_migrations _ Hq)) by lia.
  rewrite (stored_entry _ _ _ 0 (S k) (shaped_population _ Hq)) by lia.
  destruct (table_column _ _ _ k (shaped_births _ Hq) Hkq) as [-> _].
  rewrite lookup_at
    by (pose proof (shaped_infants _ Hq) as Hi; unfold vsize in Hi; lia).
  rewrite <- Egx.
  unfold entry. rewrite Rp, Rd, Rb, Rm, Ri.
  rewrite (stepped_population q k Hq Hkq), (stepped_deaths q k Hq Hkq),
    (stepped_births q k Hq Hkq), (stepped_migrations q k Hq Hkq),
    (stepped_infants q k Hq Hkq).
  rewrite !at_tabulate by lia.
  rewrite next_population_youngest, deaths_infant, Hinf.
  split; [| repeat split; f_equal; unfold migrants_at; ring].
  f_equal. rewrite zeros_tabulate, Em. unfold mat_rows. rewrite Nat2Z.id.
  apply tabulate_ext. intros i Hi. apply zero_fertility_births.
  rewrite Efx. apply Hfx.
Qed.

Lemma zero_fertility_stability_witness :
  ∃ proj, ccmpp two_steps_basepop two_steps_sx two_steps_no_fx two_steps_gx
            two_steps_srb (q_ 5) 1 = Ok proj ∧
    columns (population proj) !! 0%nat = Some two_steps_basepop ∧
    ∀ k, (k < length (columns two_steps_sx))%nat →
      columns (births proj) !! k = Some (zeros (nrows two_steps_no_fx)) ∧
      infants proj !! k = Some 0 ∧
      stored (deaths proj) 0 k = Some 0 ∧
      stored (migrations proj) 0 k
      = Some (entry (population proj) 0 k * entry two_steps_gx 0 k) ∧
      stored (population proj) 0 (S k)
      = Some (half * entry (migrations proj) 0 k) ∧
      stored (population proj) 0 (S k)
      = Some (half * (entry (population proj) 0 k * entry two_steps_gx 0 k)).
Proof.
  apply (zero_fertility_stability two_steps_basepop two_steps_sx two_steps_no_fx
           two_steps_gx two_steps_srb (q_ 5) 1).
  - split; first [ solve [table_shape] | reflexivity | (vm_compute; congruence) ].
  - repeat constructor; scalar_neq.
  - intros i k. do 2 (try destruct i as [| i]); do 3 (try destruct k as [| k]);
      reflexivity.
Defined.

(** C8.  Frame of a single step: a completed step [k] leaves the
    parameters of the container alone and writes only population column
    [k + 1] and column [k] of deaths, births, migrations and infants; and
    on validated shapes what it writes depends only on population column
    [k], on column [k] of [sx], [fx], [gx], [srb] and on the scalar
    parameters: two containers that agree on these are written alike. *)
Theorem step_frame p k p' :
  step_projection p (Z.of_nat k) = Ok p' →
  same_parameters p p' ∧ unchanged_outside p p' k ∧
  (shaped p → ∀ q q', shaped q → reads_agree p q k →
     step_projection q (Z.of_nat k) = Ok q' → writes_agree p' q' k).
Proof.
  intros Hstep.
  destruct (step_projection_inv _ _ _ Hstep) as (Hsame & Hout & Hk & Hr).
  split; [done |]. split; [done |].
  intros Hp q q' Hq Hagree Hstep'.
  destruct (step_projection_inv _ _ _ Hstep') as (_ & _ & Hk' & Hr').
  rewrite (shaped_infants p Hp) in Hk. rewrite (shaped_infants q Hq) in Hk'.
  rewrite step_projection_runs in Hstep, Hstep' by done.
  injection Hstep as <-. injection Hstep' as <-.
  destruct Hagree as (En & Em & Eidx & Espan & Epop & Esx & Efx & Egx & Esrb).
  pose proof (table_cols_length _ _ _ (shaped_population p Hp)).
  pose proof (table_cols_length _ _ _ (shaped_population q Hq)).
  pose proof (table_cols_length _ _ _ (shaped_deaths p Hp)).
  pose proof (table_cols_length _ _ _ (shaped_deaths q Hq)).
  pose proof (table_cols_length _ _ _ (shaped_births p Hp)).
  pose proof (table_cols_length _ _ _ (shaped_births q Hq)).
  pose proof (table_cols_length _ _ _ (shaped_migrations p Hp)).
  pose proof (table_cols_length _ _ _ (shaped_migrations q Hq)).
  pose proof (shaped_infants p Hp) as Hip. pose proof (shaped_infants q Hq) as Hiq.
  unfold vsize in Hip, Hiq.
  unfold writes_agree, stepped.
  cbn [population deaths births migrations infants columns].
  rewrite !list_lookup_insert_eq by lia.
  rewrite En, Em, Eidx, Espan, Epop, Esx, Efx, Egx, Esrb. done.
Qed.

Lemma step_frame_witness :
  same_parameters sample (stepped sample 0) ∧
  unchanged_outside sample (stepped sample 0) 0 ∧
  (shaped sample → ∀ q q', shaped q → reads_agree sample q 0 →
     step_projection q (Z.of_nat 0) = Ok q' → writes_agree (stepped sample 0) q' 0).
Proof.
  apply (step_frame sample 0 (stepped sample 0)).
  vm_compute. reflexivity.
Defined.

(** C9.  No division by zero: the builder and the direct step divide
    only by [1 + srb] of the current step (the two [sdiv] of the
    embedding), so when every entry of [srb] is greater than -1 neither
    of them, nor the two projections that iterate them, ends in the
    division-by-zero branch, whatever the other inputs are. *)
Theorem no_division_by_zero (basepop sxv fxv : vec) sxs fxs gxs (srbs : vec)
    (r span : Qc) (idx : Z) (p : PopulationProjection) (step : Z) :
  - (1) < r → Forall (fun r => - (1) < r) srbs →
  Forall (fun r => - (1) < r) (srb p) →
  make_leslie_matrix sxv fxv r span idx ≠ Err DivisionByZero ∧
  step_projection p step ≠ Err DivisionByZero ∧
  ccmpp_leslie basepop sxs fxs gxs srbs span idx ≠ Err DivisionByZero ∧
  ccmpp basepop sxs fxs gxs srbs span idx ≠ Err DivisionByZero.
Proof.
  intros Hr Hsrbs Hp. repeat split.
  - by apply no_div0_make_leslie_matrix, srb_denominator, srb_above_minus_one.
  - by apply no_div0_step_projection.
  - by apply no_div0_ccmpp_leslie.
  - by apply no_div0_ccmpp.
Qed.

Lemma no_division_by_zero_witness :
  make_leslie_matrix fertile_open_sx_column fertile_open_fx_column 0 1 1
    ≠ Err DivisionByZero ∧
  step_projection (boundary 1) 0 ≠ Err DivisionByZero ∧
  ccmpp_leslie boundary_basepop boundary_sx boundary_fx boundary_gx boundary_srb 1 1
    ≠ Err DivisionByZero ∧
  ccmpp boundary_basepop boundary_sx boundary_fx boundary_gx boundary_srb 1 1
    ≠ Err DivisionByZero.
Proof.
  apply (no_division_by_zero boundary_basepop fertile_open_sx_column
           fertile_open_fx_column boundary_sx boundary_fx boundary_gx boundary_srb
           0 1 1 (boundary 1) 0).
  - vm_compute. reflexivity.
  - repeat constructor.
  - repeat constructor.
Defined.

(** C10.  The fertility top row: whenever the builder returns a matrix,
    for every [i] in [0 .. n_fx] its coefficient at row 0 and column
    [fx_idx - 1 + i] is
    [fert_k * ((if i < n_fx then fx[i] * sx[fx_idx + i] else 0)
               + (if i > 0 then fx[i - 1] else 0))]
    with [fert_k = sx[0] * 0.5 * age_span / (1 + srb)]: the second blend
    term carries no survivorship factor. *)
Theorem leslie_top_row (sxv fxv : vec) srb span idx L :
  make_leslie_matrix sxv fxv srb span idx = Ok L →
  ∀ i, (0 ≤ i ≤ vsize fxv)%Z →
    sp_coeff L 0 (idx - 1 + i)
    = fert_k sxv srb span
      * ((if bool_decide (i < vsize fxv)%Z
          then at_ fxv (Z.to_nat i) * at_ sxv (Z.to_nat (idx + i)) else 0)
         + (if bool_decide (0 < i)%Z then at_ fxv (Z.to_nat (i - 1)) else 0)).
Proof.
  intros HL i Hi.
  destruct (make_leslie_matrix_inv _ _ _ _ _ _ HL) as (Hdim & Hidx & Hwin & Hsrb).
  destruct (make_leslie_matrix_runs sxv fxv srb span idx) as (L' & HL' & _ & _ & Hst);
    try done.
  rewrite HL in HL'. injection HL' as <-.
  unfold sp_coeff. rewrite Hst.
  unfold leslie_stored. rewrite bool_decide_eq_true_2 by lia.
  replace (idx - 1 + i - (idx - 1))%Z with i by lia.
  cbn [default from_option id]. unfold fert_blend. ring.
Qed.

Lemma leslie_top_row_witness :
  ∃ L, make_leslie_matrix fertile_open_sx_column fertile_open_fx_column 0 1 1 = Ok L ∧
  ∀ i, (0 ≤ i ≤ vsize fertile_open_fx_column)%Z →
    sp_coeff L 0 (1 - 1 + i)
    = fert_k fertile_open_sx_column 0 1
      * ((if bool_decide (i < vsize fertile_open_fx_column)%Z
          then at_ fertile_open_fx_column (Z.to_nat i)
               * at_ fertile_open_sx_column (Z.to_nat (1 + i)) else 0)
         + (if bool_decide (0 < i)%Z
            then at_ fertile_open_fx_column (Z.to_nat (i - 1)) else 0)).
Proof.
  eexists. split; [vm_compute; reflexivity |].
  apply (leslie_top_row fertile_open_sx_column fertile_open_fx_column 0 1 1).
  vm_compute. reflexivity.
Defined.

(** * Further properties of the kernel *)

(** ** Tactics for concrete inputs, continued *)

(** The shapes of concrete arguments of [ccmpp] and [ccmpp_leslie]. *)
Ltac inputs_shape :=
  split; first [ solve [table_shape] | reflexivity | (vm_compute; congruence) ].

(** Order between closed scalars, and between the entries of a concrete
    table and a bound. *)
Ltac scalar_le := vm_compute; discriminate.
Ltac entries_le :=
  let i := fresh "i" in let k := fresh "k" in
  intros i k; do 5 (try destruct i as [| i]); do 3 (try destruct k as [| k]);
  repeat split; scalar_le.

(** ** The direct step: where the people go *)

Lemma half_twice (x : Qc) : half * x + half * x = x.
Proof.
  replace (half * x + half * x) with ((half + half) * x) by ring.
  replace (half + half) with 1 by scalar_eq. ring.
Qed.

Lemma step_balance_with_migration (n idx m : nat) (span r : Qc) (Pop Sx Fx Gx : nat → Qc) :
  (2 ≤ n)%nat →
  sum_upto n (next_population_at n idx m span r Pop Sx Fx Gx)
  + sum_upto (S n) (deaths_at n idx m span r Pop Sx Fx Gx)
  = sum_upto n Pop + infants_of n idx m span r Pop Sx Fx Gx
    + sum_upto n (migrants_at Pop Gx).
Proof.
  intros Hn. rewrite step_balance by done. rewrite exposed_total.
  rewrite <- (half_twice (sum_upto n (migrants_at Pop Gx))) at 3. ring.
Qed.

(** X1.  Accounting identity of a step, migration included: with at least two
    age groups, step [k] completes and the total of population column
    [k + 1] plus the deaths of column [k] equals the total of population
    column [k] plus [infants[k]] plus the net migrants of column [k] (the
    two half-steps together add every migrant exactly once). *)
Theorem population_balance p k :
  shaped p → (2 ≤ n_ages p)%Z → (Z.of_nat k < n_steps p)%Z →
  at_ (srb p) k ≠ - (1) →
  ∃ p', step_projection p (Z.of_nat k) = Ok p' ∧
    total (population p') (S k) + vsum (column (deaths p') k)
    = total (population p) k + at_ (infants p') k + vsum (column (migrations p') k).
Proof.
  intros Hp Hn Hk Hr. exists (stepped p k). split.
  { apply step_projection_runs; auto using srb_denominator. }
  rewrite (previous_total p k Hp Hk). unfold total.
  rewrite (stepped_population p k Hp Hk), (stepped_deaths p k Hp Hk),
    (stepped_infants p k Hp Hk), (stepped_migrations p k Hp Hk).
  rewrite !vsum_tabulate. apply step_balance_with_migration. lia.
Qed.

Lemma population_balance_witness :
  ∃ p', step_projection sample (Z.of_nat 0) = Ok p' ∧
    total (population p') 1 + vsum (column (deaths p') 0)
    = total (population sample) 0 + at_ (infants p') 0
      + vsum (column (migrations p') 0).
Proof.
  apply (population_balance sample 0).
  - container_shape.
  - vm_compute; congruence.
  - reflexivity.
  - scalar_neq.
Defined.

(** X2.  Cohort survival between the youngest and the open age group: step
    [k] records [migrations[i] = population[i][k] * gx[i][k]], and with
    [w] the previous column plus half the migrants it records
    [deaths[j] = w[j - 1] * (1 - sx[j])] for [j = 1 .. n_ages] and sets
    [population[i][k + 1] = w[i - 1] * sx[i] + 0.5 * migrations[i]] for
    [i = 1 .. n_ages - 2]. *)
Theorem cohort_survival p k :
  shaped p → (Z.of_nat k < n_steps p)%Z → at_ (srb p) k ≠ - (1) →
  ∃ p', step_projection p (Z.of_nat k) = Ok p' ∧
    let n := Z.to_nat (n_ages p) in
    let w i := entry (population p) i k + half * entry (migrations p') i k in
    (∀ i, (i < n)%nat →
       entry (migrations p') i k = entry (population p) i k * entry (gx p) i k) ∧
    (∀ j, (1 ≤ j ≤ n)%nat →
       entry (deaths p') j k = w (j - 1)%nat * (1 - entry (sx p) j k)) ∧
    (∀ i, (1 ≤ i < n - 1)%nat →
       entry (population p') i (S k)
       = w (i - 1)%nat * entry (sx p) i k + half * entry (migrations p') i k).
Proof.
  intros Hp Hk Hr. exists (stepped p k). split.
  { apply step_projection_runs; auto using srb_denominator. }
  cbv zeta. unfold entry.
  rewrite (stepped_population p k Hp Hk), (stepped_deaths p k Hp Hk),
    (stepped_migrations p k Hp Hk).
  split; [| split].
  - intros i Hi. by rewrite at_tabulate.
  - intros j Hj. rewrite !at_tabulate by lia. by rewrite deaths_later by lia.
  - intros i Hi. rewrite !at_tabulate by lia.
    rewrite next_population_middle by lia. rewrite deaths_later by lia.
    unfold died_at, exposed_at. ring.
Qed.

Lemma cohort_survival_witness :
  ∃ p', step_projection sample (Z.of_nat 0) = Ok p' ∧
    let w i := entry (population sample) i 0 + half * entry (migrations p') i 0 in
    (∀ i, (i < 3)%nat →
       entry (migrations p') i 0 = entry (population sample) i 0 * entry (gx sample) i 0) ∧
    (∀ j, (1 ≤ j ≤ 3)%nat →
       entry (deaths p') j 0 = w (j - 1)%nat * (1 - entry (sx sample) j 0)) ∧
    (∀ i, (1 ≤ i < 3 - 1)%nat →
       entry (population p') i 1
       = w (i - 1)%nat * entry (sx sample) i 0 + half * entry (migrations p') i 0).
Proof.
  apply (cohort_survival sample 0).
  - container_shape.
  - reflexivity.
  - scalar_neq.
Defined.

(** X3.  The births of a step are two half-steps: with at least two age
    groups, [births[i]] is [0.5 * age_span * fx[i]] times the exposed
    population [w] of age [fx_idx + i] before aging, plus the same factor
    times the population of that age after aging and before the second
    migration half-step; for age 0 (only when [fx_idx = 0]) the second
    term reads the entry that the newborns have not replaced yet, which
    is still [w[0]]. *)
Theorem births_two_half_steps p k :
  shaped p → (2 ≤ n_ages p)%Z → (Z.of_nat k < n_steps p)%Z →
  at_ (srb p) k ≠ - (1) →
  ∃ p', step_projection p (Z.of_nat k) = Ok p' ∧
    let idx := Z.to_nat (fx_idx p) in
    let w i := entry (population p) i k + half * entry (migrations p') i k in
    ∀ i, (i < Z.to_nat (n_fx p))%nat →
      entry (births p') i k
      = half * age_span p * entry (fx p) i k * w (idx + i)%nat
        + half * age_span p * entry (fx p) i k
          * (if decide (idx + i = 0)%nat then w 0%nat
             else entry (population p') (idx + i) (S k)
                  - half * entry (migrations p') (idx + i) k).
Proof.
  intros Hp Hn Hk Hr. exists (stepped p k). split.
  { apply step_projection_runs; auto using srb_denominator. }
  cbv zeta. unfold entry.
  rewrite (stepped_population p k Hp Hk), (stepped_births p k Hp Hk),
    (stepped_migrations p k Hp Hk).
  intros i Hi. pose proof (shaped_window p Hp). pose proof (shaped_fx_idx p Hp).
  rewrite !at_tabulate by lia. unfold births_at. f_equal. f_equal.
  case_decide as Hzero.
  - rewrite Hzero. unfold aged_at, shifted_at. by rewrite !decide_False by lia.
  - unfold next_population_at. rewrite decide_False by done. ring.
Qed.

Lemma births_two_half_steps_witness :
  ∃ p', step_projection sample (Z.of_nat 0) = Ok p' ∧
    let w i := entry (population sample) i 0 + half * entry (migrations p') i 0 in
    ∀ i, (i < 1)%nat →
      entry (births p') i 0
      = half * age_span sample * entry (fx sample) i 0 * w (1 + i)%nat
        + half * age_span sample * entry (fx sample) i 0
          * (if decide (1 + i = 0)%nat then w 0%nat
             else entry (population p') (1 + i) 1
                  - half * entry (migrations p') (1 + i) 0).
Proof.
  apply (births_two_half_steps sample 0).
  - container_shape.
  - vm_compute; congruence.
  - reflexivity.
  - scalar_neq.
Defined.

(** X4.  Ageing alone: with at least two age groups, when column [k] of [sx]
    is 1 throughout and columns [k] of [fx] and [gx] are 0, step [k]
    records no death and no infant, empties age 0, moves every age
    group up by one and adds the next-oldest group to the open age
    group. *)
Theorem pure_aging p k :
  shaped p → (2 ≤ n_ages p)%Z → (Z.of_nat k < n_steps p)%Z →
  at_ (srb p) k ≠ - (1) →
  (∀ j, (j ≤ Z.to_nat (n_ages p))%nat → entry (sx p) j k = 1) →
  (∀ i, entry (fx p) i k = 0) →
  (∀ i, entry (gx p) i k = 0) →
  ∃ p', step_projection p (Z.of_nat k) = Ok p' ∧
    let n := Z.to_nat (n_ages p) in
    (∀ j, entry (deaths p') j k = 0) ∧
    at_ (infants p') k = 0 ∧
    entry (population p') 0 (S k) = 0 ∧
    (∀ i, (1 ≤ i < n - 1)%nat →
       entry (population p') i (S k) = entry (population p) (i - 1) k) ∧
    entry (population p') (n - 1) (S k)
    = entry (population p) (n - 2) k + entry (population p) (n - 1) k.
Proof.
  intros Hp Hn Hk Hr Hsx Hfx Hgx. exists (stepped p k). split.
  { apply step_projection_runs; auto using srb_denominator. }
  cbv zeta. unfold entry in *.
  rewrite (stepped_population p k Hp Hk), (stepped_deaths p k Hp Hk),
    (stepped_infants p k Hp Hk).
  set (n := Z.to_nat (n_ages p)) in *.
  set (Pop := at_ (column (population p) k)).
  set (Sx := at_ (column (sx p) k)) in *.
  set (Fx := at_ (column (fx p) k)) in *.
  set (Gx := at_ (column (gx p) k)) in *.
  assert (infants_of n (Z.to_nat (fx_idx p)) (Z.to_nat (n_fx p)) (age_span p)
            (at_ (srb p) k) Pop Sx Fx Gx = 0) as Hinf.
  { apply zero_fertility_infants. intros i _. apply Hfx. }
  assert (∀ i, exposed_at Pop Gx i = Pop i) as Hw.
  { intros i. unfold exposed_at, migrants_at. rewrite Hgx. ring. }
  assert (∀ j, (j ≤ n)%nat →
            deaths_at n (Z.to_nat (fx_idx p)) (Z.to_nat (n_fx p)) (age_span p)
              (at_ (srb p) k) Pop Sx Fx Gx j = 0) as Hd.
  { intros j Hj. unfold deaths_at, died_at. rewrite !Hsx by lia.
    case_decide; ring. }
  repeat split.
  - intros j. destruct (decide (j ≤ n)%nat).
    + rewrite at_tabulate by lia. by apply Hd.
    + apply at_outside. rewrite length_tabulate. lia.
  - done.
  - rewrite at_tabulate by lia.
    rewrite next_population_youngest, Hinf, Hd by lia.
    unfold migrants_at. rewrite Hgx. ring.
  - intros i Hi. rewrite at_tabulate by lia.
    rewrite next_population_middle, Hd, Hw by lia.
    unfold migrants_at. rewrite Hgx. ring.
  - rewrite at_tabulate by lia.
    rewrite next_population_oldest, !Hd, !Hw by lia.
    unfold migrants_at. rewrite Hgx. ring.
Qed.

Lemma pure_aging_witness :
  ∃ p', step_projection (boundary 1) (Z.of_nat 0) = Ok p' ∧
    (∀ j, entry (deaths p') j 0 = 0) ∧
    at_ (infants p') 0 = 0 ∧
    entry (population p') 0 1 = 0 ∧
    (∀ i, (1 ≤ i < 3 - 1)%nat →
       entry (population p') i 1 = entry (population (boundary 1)) (i - 1) 0) ∧
    entry (population p') (3 - 1) 1
    = entry (population (boundary 1)) (3 - 2) 0
      + entry (population (boundary 1)) (3 - 1) 0.
Proof.
  apply (pure_aging (boundary 1) 0).
  - container_shape.
  - vm_compute; congruence.
  - reflexivity.
  - scalar_neq.
  - intros j Hj. do 4 (try destruct j as [| j]); [reflexivity .. | vm_compute in Hj; lia].
  - intros [| i]; reflexivity.
  - intros i. do 3 (try destruct i as [| i]); reflexivity.
Defined.

(** ** The direct step: running it again, and how it fails *)

Lemma insert_same_lookup {A} (l : list A) i v :
  l !! i = <[i := v]> l !! i → <[i := v]> l = l.
Proof.
  intros H. destruct (decide (i < length l)%nat) as [Hi | Hi].
  - rewrite list_lookup_insert_eq in H by done. by apply list_insert_id.
  - apply list_insert_ge. lia.
Qed.

Lemma matrix_eta t : Matrix (nrows t) (columns t) = t.
Proof. by destruct t. Qed.

Lemma recorded_fixed q k : recorded q k → stepped q k = q.
Proof.
  intros (Hp & Hd & Hb & Hm & Hi). unfold stepped in *.
  cbn [population deaths births migrations infants columns] in *.
  rewrite (insert_same_lookup _ _ _ Hp), (insert_same_lookup _ _ _ Hd),
    (insert_same_lookup _ _ _ Hb), (insert_same_lookup _ _ _ Hm),
    (insert_same_lookup _ _ _ Hi).
  rewrite !matrix_eta. by destruct q.
Qed.

Lemma stepped_again p k : stepped (stepped p k) k = stepped p k.
Proof.
  assert (column (population (stepped p k)) k = column (population p) k) as E.
  { unfold stepped, column. cbn [population columns].
    by rewrite list_lookup_insert_ne by lia. }
  unfold stepped at 1. rewrite E. unfold stepped.
  cbn [n_ages n_steps n_fx fx_idx age_span sx fx gx srb
       population deaths births infants migrations nrows columns].
  by rewrite !list_insert_insert_eq.
Qed.

(** X5.  A completed step can be run again: on validated shapes, when step
    [k] returns a container, step [k] on that container returns the same
    container (the step reads population column [k] and the parameters
    only, and writes none of them). *)
Theorem step_rerun p k p' :
  shaped p → step_projection p (Z.of_nat k) = Ok p' →
  step_projection p' (Z.of_nat k) = Ok p'.
Proof.
  intros Hp Hstep.
  destruct (step_projection_inv _ _ _ Hstep) as (_ & _ & Hk & Hr).
  rewrite (shaped_infants p Hp) in Hk.
  rewrite step_projection_runs in Hstep by done. injection Hstep as <-.
  rewrite step_projection_runs.
  - by rewrite stepped_again.
  - by apply shaped_stepped.
  - done.
  - done.
Qed.

Lemma step_rerun_witness :
  step_projection (stepped sample 0) (Z.of_nat 0) = Ok (stepped sample 0).
Proof.
  apply (step_rerun sample 0 (stepped sample 0)).
  - container_shape.
  - vm_compute. reflexivity.
Defined.

Lemma in_range_false i len : ¬ (0 ≤ i < len)%Z → in_range i len = false.
Proof. intros H. unfold in_range. by rewrite bool_decide_eq_false_2. Qed.

Lemma step_projection_out_of_range p step :
  ¬ (0 ≤ step < mat_cols (sx p))%Z → step_projection p step = Err IndexOutOfRange.
Proof.
  intros Hstep. unfold step_projection, col_map, col.
  rewrite (in_range_false step (mat_cols (sx p))) by done. reflexivity.
Qed.

Lemma shaped_with_srb p k r : shaped p → shaped (with_srb p k r).
Proof.
  intros [? ? ? ? ? ? ? ? Hsrb ? ? ? ? ?]. split; try done.
  cbn [with_srb srb n_steps]. unfold vsize in *. by rewrite length_insert.
Qed.

Lemma step_projection_div0 p k :
  shaped p → (Z.of_nat k < n_steps p)%Z → 1 + at_ (srb p) k = 0 →
  step_projection p (Z.of_nat k) = Err DivisionByZero.
Proof.
  intros Hp Hk Hr.
  pose proof (shaped_srb p Hp) as Hlen. unfold vsize in Hlen.
  assert (step_projection (with_srb p k 0) (Z.of_nat k)
          = Ok (stepped (with_srb p k 0) k)) as H.
  { apply step_projection_runs; [by apply shaped_with_srb | done |].
    cbn [with_srb srb]. unfold at_. rewrite list_lookup_insert_eq by lia.
    cbn. rewrite Qcplus_0_r. apply Q_apart_0_1. }
  unfold step_projection in H.
  cbn [with_srb n_ages n_steps n_fx fx_idx age_span sx fx gx srb
       population deaths births infants migrations] in H.
  invert_binds H.
  unfold step_projection. cbv zeta.
  repeat match goal with
  | E : ?c = Ok _ |- context [?c ≫= _] => rewrite E, bind_Ok
  end.
  rewrite (vcoeff_at (srb p)) by (unfold vsize; lia). rewrite bind_Ok, Nat2Z.id.
  unfold sdiv. by rewrite decide_True.
Qed.

(** X6.  The outcome of a step on a container of validated shapes: an index
    error when [step] is outside [0 .. n_steps - 1], a division by zero
    when [srb(step) = -1], and otherwise the container whose population
    column [step + 1] and output columns [step] hold the values of the
    recurrence. *)
Theorem step_outcome p step :
  shaped p →
  step_projection p step
  = if bool_decide (0 ≤ step < n_steps p)%Z then
      if decide (at_ (srb p) (Z.to_nat step) = - (1)) then Err DivisionByZero
      else Ok (stepped p (Z.to_nat step))
    else Err IndexOutOfRange.
Proof.
  intros Hp. case_bool_decide as Hstep.
  - rewrite <- (Z2Nat.id step) at 1 by lia. case_decide as Hr.
    + apply step_projection_div0; [done | lia |]. rewrite Hr. ring.
    + apply step_projection_runs; [done | lia | by apply srb_denominator].
  - apply step_projection_out_of_range.
    by rewrite (proj1 (proj2 (shaped_sx p Hp))).
Qed.

Lemma step_outcome_witness :
  step_projection sample 0
  = if bool_decide (0 ≤ 0 < n_steps sample)%Z then
      if decide (at_ (srb sample) (Z.to_nat 0) = - (1)) then Err DivisionByZero
      else Ok (stepped sample (Z.to_nat 0))
    else Err IndexOutOfRange.
Proof.
  apply (step_outcome sample 0). container_shape.
Defined.

(** ** The constructor *)

Lemma new_matrix_inv rows cols t :
  new_matrix rows cols = Ok t →
  (0 ≤ rows)%Z ∧ (0 ≤ cols)%Z ∧ nrows t = Z.to_nat rows.
Proof.
  unfold new_matrix. case_bool_decide as H; [| done].
  intros [= <-]. cbn [nrows]. repeat split; lia.
Qed.

Lemma set_col_inv_range t j (v : vec) t' :
  set_col t j v = Ok t' →
  (0 ≤ j < mat_cols t)%Z ∧ length v = nrows t ∧
  t' = Matrix (nrows t) (<[Z.to_nat j := v]> (columns t)).
Proof.
  unfold set_col. destruct (in_range j (mat_cols t)) eqn:Hj; [| discriminate].
  apply in_range_inv in Hj. case_bool_decide; [| discriminate].
  intros [= <-]. done.
Qed.

(** X7.  The constructor returns a container exactly when [n_ages],
    [n_steps] and [n_fx] are not negative and the base population has
    [n_ages] entries (the assignment [population.col(0) = basepop]). *)
Theorem constructor_domain na ns nf idx span (basepop : vec) sxs fxs gxs (srbs : vec) :
  (∃ p, new_projection na ns nf idx span basepop sxs fxs gxs srbs = Ok p) ↔
  (0 ≤ na)%Z ∧ (0 ≤ ns)%Z ∧ (0 ≤ nf)%Z ∧ vsize basepop = na.
Proof.
  split.
  - intros (p & H). unfold new_projection in H. invert_binds H.
    match goal with H : set_col _ _ _ = Ok _ |- _ =>
      apply set_col_inv_range in H as (_ & Hlen & _) end.
    repeat match goal with
    | H : new_matrix _ _ = Ok _ |- _ => apply new_matrix_inv in H as (? & ? & ?)
    end.
    unfold vsize. repeat split; lia.
  - intros (Hna & Hns & Hnf & Hlen). eexists. by apply new_projection_runs.
Qed.

(** ** The full horizon of the direct recurrence *)

Lemma for_each_steps_div0 c : ∀ k p,
  shaped p → (Z.of_nat (k + c) ≤ n_steps p)%Z →
  (∃ j, (k ≤ j < k + c)%nat ∧ at_ (srb p) j = - (1)) →
  for_each (seqZ (Z.of_nat k) (Z.of_nat c))
    (fun step proj => step_projection proj step) p
  = Err DivisionByZero.
Proof.
  induction c as [| c IH]; intros k p Hp Hk (j & Hj & Hr); [lia |].
  rewrite seqZ_cons by lia. cbn [for_each].
  destruct (decide (at_ (srb p) k = - (1))) as [Hrk | Hrk].
  - rewrite step_projection_div0; [done | done | lia |]. rewrite Hrk. ring.
  - rewrite step_projection_runs by (try apply srb_denominator; (done || lia)).
    rewrite bind_Ok.
    replace (Z.succ (Z.of_nat k)) with (Z.of_nat (S k)) by lia.
    replace (Z.pred (Z.of_nat (S c))) with (Z.of_nat c) by lia.
    apply IH.
    + apply shaped_stepped; (done || lia).
    + cbn [stepped n_steps]. lia.
    + exists j. cbn [stepped srb]. split; [| done].
      destruct (decide (j = k)) as [-> | ?]; [done | lia].
Qed.

(** X8.  On arguments of validated shapes [ccmpp] fails only by a division by
    zero, and exactly when some [srb] entry is -1; in particular a single
    age group and [fx_idx = 0] are accepted. *)
Theorem ccmpp_outcome (basepop : vec) sxs fxs gxs (srbs : vec) span idx :
  valid_inputs basepop sxs fxs gxs srbs idx →
  (Forall (fun r => r ≠ - (1)) srbs ∧
     ∃ proj, ccmpp basepop sxs fxs gxs srbs span idx = Ok proj) ∨
  (Exists (fun r => r = - (1)) srbs ∧
     ccmpp basepop sxs fxs gxs srbs span idx = Err DivisionByZero).
Proof.
  intros Hin.
  destruct (decide (Exists (fun r => r = - (1)) srbs)) as [Hex | Hall].
  - right. split; [done |]. unfold ccmpp.
    rewrite new_projection_runs by (unfold mat_cols, mat_rows; lia).
    rewrite bind_Ok. unfold mat_cols at 1.
    apply (for_each_steps_div0 _ 0).
    + by apply shaped_constructed.
    + unfold constructed, mat_cols. cbn [n_steps]. lia.
    + apply Exists_exists in Hex as (r & Hr & ->).
      apply list_elem_of_lookup_1 in Hr as [j Hj].
      exists j. unfold constructed. cbn [srb]. split.
      * apply lookup_lt_Some in Hj.
        pose proof (valid_srb _ _ _ _ _ _ Hin) as Hlen.
        unfold vsize, mat_cols in Hlen. lia.
      * unfold at_. by rewrite Hj.
  - left. apply not_Exists_Forall in Hall; [| intros r; apply _].
    split; [done |]. eexists. by apply ccmpp_runs.
Qed.

Lemma ccmpp_outcome_witness :
  (Forall (fun r => r ≠ - (1)) two_steps_srb ∧
     ∃ proj, ccmpp two_steps_basepop two_steps_sx two_steps_fx two_steps_gx
               two_steps_srb (q_ 5) 1 = Ok proj) ∨
  (Exists (fun r => r = - (1)) two_steps_srb ∧
     ccmpp two_steps_basepop two_steps_sx two_steps_fx two_steps_gx
       two_steps_srb (q_ 5) 1 = Err DivisionByZero).
Proof.
  apply (ccmpp_outcome two_steps_basepop two_steps_sx two_steps_fx two_steps_gx
           two_steps_srb (q_ 5) 1).
  inputs_shape.
Defined.

Lemma for_each_inv {St} (I : St → Prop) (l : list Z) (body : Z → St → result St) :
  (∀ i s s', i ∈ l → I s → body i s = Ok s' → I s') →
  ∀ s s', I s → for_each l body s = Ok s' → I s'.
Proof.
  induction l as [| i l IH]; intros Hbody s s' Hs Hrun; cbn [for_each] in Hrun.
  - by injection Hrun as <-.
  - apply bind_Ok_inv in Hrun as (s1 & H1 & Hrest).
    apply (IH (fun j t t' Hj => Hbody j t t' (list_elem_of_further _ _ _ Hj)) s1);
      [| done].
    apply (Hbody i s); [apply list_elem_of_here | done | done].
Qed.

Lemma new_projection_inv na ns nf idx span (basepop : vec) sxs fxs gxs (srbs : vec) p :
  new_projection na ns nf idx span basepop sxs fxs gxs srbs = Ok p →
  same_parameters
    (constructed na ns nf idx span basepop sxs fxs gxs srbs) p ∧
  columns (population p) !! 0%nat = Some basepop.
Proof.
  intros H. unfold new_projection in H. invert_binds H. injection H as <-.
  split; [by repeat split |]. cbn [population].
  match goal with H : set_col _ _ _ = Ok _ |- _ =>
    apply set_col_inv_range in H as (Hj & _ & ->) end.
  cbn [columns]. apply list_lookup_insert_eq. unfold mat_cols in Hj. lia.
Qed.

(** X9.  Whenever [ccmpp] returns a container, of whatever arguments, its
    parameters are the arguments ([n_ages] the length of the base
    population, [n_steps] the columns of [sx], [n_fx] the rows of [fx])
    and population column 0 is the base population: no step writes
    them. *)
Theorem ccmpp_keeps_inputs (basepop : vec) sxs fxs gxs (srbs : vec) span idx proj :
  ccmpp basepop sxs fxs gxs srbs span idx = Ok proj →
  n_ages proj = vsize basepop ∧ n_steps proj = mat_cols sxs ∧
  n_fx proj = mat_rows fxs ∧ fx_idx proj = idx ∧ age_span proj = span ∧
  sx proj = sxs ∧ fx proj = fxs ∧ gx proj = gxs ∧ srb proj = srbs ∧
  columns (population proj) !! 0%nat = Some basepop.
Proof.
  intros H. unfold ccmpp in H. invert_binds H.
  match goal with H : new_projection _ _ _ _ _ _ _ _ _ _ = Ok _ |- _ =>
    apply new_projection_inv in H as (Hsame & H0) end.
  set (p0 := constructed _ _ _ _ _ _ _ _ _ _) in Hsame.
  assert (same_parameters p0 proj ∧ columns (population proj) !! 0%nat = Some basepop)
    as [Hpar Hcol].
  { eapply (for_each_inv
              (fun q => same_parameters p0 q
                        ∧ columns (population q) !! 0%nat = Some basepop));
      [| | exact H]; [| by split].
    intros i s s' Hi [Hs Hs0] Hrun. apply elem_of_seqZ in Hi.
    rewrite <- (Z2Nat.id i) in Hrun by lia.
    apply step_projection_inv in Hrun as (Hsame' & (Hpop & _) & _).
    split; [by eapply same_parameters_trans |]. by rewrite Hpop. }
  destruct Hpar as (? & ? & ? & ? & ? & ? & ? & ? & ?). by repeat split.
Qed.

Lemma ccmpp_keeps_inputs_witness :
  let proj := advanced 2 0
                (constructed 3 2 1 1 (q_ 5) two_steps_basepop two_steps_sx
                   two_steps_fx two_steps_gx two_steps_srb) in
  n_ages proj = vsize two_steps_basepop ∧ n_steps proj = mat_cols two_steps_sx ∧
  n_fx proj = mat_rows two_steps_fx ∧ fx_idx proj = 1%Z ∧ age_span proj = q_ 5 ∧
  sx proj = two_steps_sx ∧ fx proj = two_steps_fx ∧ gx proj = two_steps_gx ∧
  srb proj = two_steps_srb ∧
  columns (population proj) !! 0%nat = Some two_steps_basepop.
Proof.
  apply (ccmpp_keeps_inputs two_steps_basepop two_steps_sx two_steps_fx two_steps_gx
           two_steps_srb (q_ 5) 1).
  vm_compute. reflexivity.
Defined.

Lemma recorded_recurrence q k :
  shaped q → (Z.of_nat k < n_steps q)%Z → recorded q k →
  let n := Z.to_nat (n_ages q) in
  let idx := Z.to_nat (fx_idx q) in
  let m := Z.to_nat (n_fx q) in
  let r := at_ (srb q) k in
  let Pop := at_ (column (population q) k) in
  let Sx := at_ (column (sx q) k) in
  let Fx := at_ (column (fx q) k) in
  let Gx := at_ (column (gx q) k) in
  column (population q) (S k)
    = tabulate n (next_population_at n idx m (age_span q) r Pop Sx Fx Gx) ∧
  column (deaths q) k = tabulate (S n) (deaths_at n idx m (age_span q) r Pop Sx Fx Gx) ∧
  column (births q) k = tabulate m (births_at n idx (age_span q) Pop Sx Fx Gx) ∧
  column (migrations q) k = tabulate n (migrants_at Pop Gx) ∧
  at_ (infants q) k = infants_of n idx m (age_span q) r Pop Sx Fx Gx.
Proof.
  intros Hq Hk Hrec. cbv zeta.
  destruct (recorded_columns q k Hq Hk Hrec) as (Rp & Rd & Rb & Rm & Ri).
  rewrite Rp, Rd, Rb, Rm, Ri.
  rewrite (stepped_population q k Hq Hk), (stepped_deaths q k Hq Hk),
    (stepped_births q k Hq Hk), (stepped_migrations q k Hq Hk),
    (stepped_infants q k Hq Hk).
  done.
Qed.

Lemma ccmpp_spec (basepop : vec) sxs fxs gxs (srbs : vec) span idx :
  valid_inputs basepop sxs fxs gxs srbs idx →
  Forall (fun r => r ≠ - (1)) srbs →
  ∃ q, ccmpp basepop sxs fxs gxs srbs span idx = Ok q ∧ shaped q ∧
    same_parameters
      (constructed (vsize basepop) (mat_cols sxs) (mat_rows fxs) idx span
         basepop sxs fxs gxs srbs) q ∧
    column (population q) 0 = basepop ∧
    ∀ k, (k < length (columns sxs))%nat → recorded q k.
Proof.
  intros Hin Hsrb. eexists. split; [by apply ccmpp_runs |].
  pose proof (shaped_constructed _ _ _ _ _ idx span Hin) as Hp0.
  destruct (advanced_spec (length (columns sxs)) 0 _ Hp0) as (Hq & Hsame & Hset & Hrec).
  { unfold constructed, mat_cols. cbn [n_steps]. lia. }
  split; [done |]. split; [done |]. split.
  - destruct Hset as (Sp & _). unfold column. rewrite Sp by lia.
    unfold constructed. cbn [population columns].
    rewrite list_lookup_insert_eq; [done |].
    rewrite length_replicate. unfold mat_cols. lia.
  - intros k Hk. apply Hrec. lia.
Qed.

Lemma entry_outside t r c i k : table t r c → (c ≤ Z.of_nat k)%Z → entry t i k = 0.
Proof.
  intros Ht Hk. unfold entry, column.
  rewrite lookup_ge_None_2; [done |].
  rewrite (table_cols_length _ _ _ Ht). lia.
Qed.

(** X10.  Every step is on record in the result of [ccmpp]: running any step
    [k < n_steps] on the returned container returns it unchanged, so
    every column [k + 1] is what the step computes from column [k] and
    no later step has overwritten it. *)
Theorem ccmpp_steps_on_record (basepop : vec) sxs fxs gxs (srbs : vec) span idx :
  valid_inputs basepop sxs fxs gxs srbs idx →
  Forall (fun r => r ≠ - (1)) srbs →
  ∃ proj, ccmpp basepop sxs fxs gxs srbs span idx = Ok proj ∧
    ∀ k, (k < length (columns sxs))%nat →
      step_projection proj (Z.of_nat k) = Ok proj.
Proof.
  intros Hin Hsrb.
  destruct (ccmpp_spec _ _ _ _ _ span idx Hin Hsrb)
    as (q & Hrun & Hq & Hsame & H0 & Hrec).
  exists q. split; [done |]. intros k Hk.
  destruct Hsame as (En & Es & Em & Eidx & Espan & Esx & Efx & Egx & Esrb).
  cbn [constructed n_ages n_steps n_fx fx_idx age_span sx fx gx srb] in *.
  rewrite step_projection_runs.
  - by rewrite recorded_fixed by auto.
  - done.
  - rewrite Es. unfold mat_cols. lia.
  - rewrite Esrb. apply srb_denominator, at_Forall; [done |].
    pose proof (valid_srb _ _ _ _ _ _ Hin) as Hlen. unfold vsize, mat_cols in Hlen. lia.
Qed.

Lemma ccmpp_steps_on_record_witness :
  ∃ proj, ccmpp two_steps_basepop two_steps_sx two_steps_fx two_steps_gx
            two_steps_srb (q_ 5) 1 = Ok proj ∧
    ∀ k, (k < length (columns two_steps_sx))%nat →
      step_projection proj (Z.of_nat k) = Ok proj.
Proof.
  apply (ccmpp_steps_on_record two_steps_basepop two_steps_sx two_steps_fx
           two_steps_gx two_steps_srb (q_ 5) 1).
  - inputs_shape.
  - repeat constructor; scalar_neq.
Defined.

(** X11.  The projection is causal: two runs of [ccmpp] from the same base
    population whose rates agree on the first [c] columns agree on
    population columns [0 .. c] and on columns [0 .. c - 1] of deaths,
    births, migrations and infants, whatever the later columns hold and
    however many there are. *)
Theorem ccmpp_causal (basepop : vec) sxs1 fxs1 gxs1 (srbs1 : vec)
    sxs2 fxs2 gxs2 (srbs2 : vec) span idx (c : nat) :
  valid_inputs basepop sxs1 fxs1 gxs1 srbs1 idx →
  valid_inputs basepop sxs2 fxs2 gxs2 srbs2 idx →
  Forall (fun r => r ≠ - (1)) srbs1 → Forall (fun r => r ≠ - (1)) srbs2 →
  mat_rows fxs1 = mat_rows fxs2 →
  (c ≤ length (columns sxs1))%nat → (c ≤ length (columns sxs2))%nat →
  (∀ k, (k < c)%nat →
     column sxs1 k = column sxs2 k ∧ column fxs1 k = column fxs2 k ∧
     column gxs1 k = column gxs2 k ∧ at_ srbs1 k = at_ srbs2 k) →
  ∃ p1 p2,
    ccmpp basepop sxs1 fxs1 gxs1 srbs1 span idx = Ok p1 ∧
    ccmpp basepop sxs2 fxs2 gxs2 srbs2 span idx = Ok p2 ∧
    (∀ k, (k ≤ c)%nat → column (population p1) k = column (population p2) k) ∧
    (∀ k, (k < c)%nat →
       column (deaths p1) k = column (deaths p2) k ∧
       column (births p1) k = column (births p2) k ∧
       column (migrations p1) k = column (migrations p2) k ∧
       at_ (infants p1) k = at_ (infants p2) k).
Proof.
  intros Hin1 Hin2 Hsrb1 Hsrb2 Hm Hc1 Hc2 Hagree.
  destruct (ccmpp_spec _ _ _ _ _ span idx Hin1 Hsrb1)
    as (q1 & Hrun1 & Hq1 & Hsame1 & H01 & Hrec1).
  destruct (ccmpp_spec _ _ _ _ _ span idx Hin2 Hsrb2)
    as (q2 & Hrun2 & Hq2 & Hsame2 & H02 & Hrec2).
  exists q1, q2. split; [done |]. split; [done |].
  destruct Hsame1 as (En1 & Es1 & Em1 & Eidx1 & Espan1 & Esx1 & Efx1 & Egx1 & Esrb1).
  destruct Hsame2 as (En2 & Es2 & Em2 & Eidx2 & Espan2 & Esx2 & Efx2 & Egx2 & Esrb2).
  cbn [constructed n_ages n_steps n_fx fx_idx age_span sx fx gx srb] in *.
  assert (∀ k, (k < c)%nat →
            column (population q1) k = column (population q2) k →
            column (population q1) (S k) = column (population q2) (S k) ∧
            column (deaths q1) k = column (deaths q2) k ∧
            column (births q1) k = column (births q2) k ∧
            column (migrations q1) k = column (migrations q2) k ∧
            at_ (infants q1) k = at_ (infants q2) k) as Hstep.
  { intros k Hk Hprev.
    destruct (Hagree k Hk) as (Asx & Afx & Agx & Asrb).
    destruct (recorded_recurrence q1 k Hq1) as (-> & -> & -> & -> & ->);
      [rewrite Es1; unfold mat_cols; lia | apply Hrec1; lia |].
    destruct (recorded_recurrence q2 k Hq2) as (-> & -> & -> & -> & ->);
      [rewrite Es2; unfold mat_cols; lia | apply Hrec2; lia |].
    rewrite En1, En2, Em1, Em2, Eidx1, Eidx2, Espan1, Espan2,
      Esx1, Esx2, Efx1, Efx2, Egx1, Egx2, Esrb1, Esrb2.
    by rewrite Hprev, Asx, Afx, Agx, Asrb, Hm. }
  assert (∀ k, (k ≤ c)%nat → column (population q1) k = column (population q2) k)
    as Hpop.
  { induction k as [| k IH]; intros Hk; [by rewrite H01, H02 |].
    apply Hstep; [lia |]. apply IH. lia. }
  split; [done |]. intros k Hk. apply Hstep; [done |]. apply Hpop. lia.
Qed.

Lemma ccmpp_causal_witness :
  ∃ p1 p2,
    ccmpp two_steps_basepop two_steps_sx two_steps_fx two_steps_gx
      two_steps_srb (q_ 5) 1 = Ok p1 ∧
    ccmpp two_steps_basepop (first_columns 1 two_steps_sx)
      (first_columns 1 two_steps_fx) (first_columns 1 two_steps_gx)
      (take 1 two_steps_srb) (q_ 5) 1 = Ok p2 ∧
    (∀ k, (k ≤ 1)%nat → column (population p1) k = column (population p2) k) ∧
    (∀ k, (k < 1)%nat →
       column (deaths p1) k = column (deaths p2) k ∧
       column (births p1) k = column (births p2) k ∧
       column (migrations p1) k = column (migrations p2) k ∧
       at_ (infants p1) k = at_ (infants p2) k).
Proof.
  apply (ccmpp_causal two_steps_basepop two_steps_sx two_steps_fx two_steps_gx
           two_steps_srb (first_columns 1 two_steps_sx)
           (first_columns 1 two_steps_fx) (first_columns 1 two_steps_gx)
           (take 1 two_steps_srb) (q_ 5) 1 1).
  - inputs_shape.
  - inputs_shape.
  - repeat constructor; scalar_neq.
  - repeat constructor; scalar_neq.
  - reflexivity.
  - vm_compute; lia.
  - vm_compute; lia.
  - intros [| k] Hk; [by repeat split | lia].
Defined.

(** X12.  The balance of the whole horizon: with at least two age groups,
    for every [k ≤ n_steps] the total of population column [k] of the
    result plus all deaths of steps [0 .. k - 1] equals the total base
    population plus all infants and net migrants of steps
    [0 .. k - 1]. *)
Theorem ccmpp_cumulative_balance (basepop : vec) sxs fxs gxs (srbs : vec) span idx :
  valid_inputs basepop sxs fxs gxs srbs idx →
  (2 ≤ vsize basepop)%Z →
  Forall (fun r => r ≠ - (1)) srbs →
  ∃ proj, ccmpp basepop sxs fxs gxs srbs span idx = Ok proj ∧
    ∀ k, (k ≤ length (columns sxs))%nat →
      total (population proj) k
      + sum_upto k (fun j => vsum (column (deaths proj) j))
      = vsum basepop
        + sum_upto k (fun j =>
            at_ (infants proj) j + vsum (column (migrations proj) j)).
Proof.
  intros Hin Hn Hsrb.
  destruct (ccmpp_spec _ _ _ _ _ span idx Hin Hsrb)
    as (q & Hrun & Hq & Hsame & H0 & Hrec).
  exists q. split; [done |].
  destruct Hsame as (En & Es & Em & Eidx & Espan & Esx & Efx & Egx & Esrb).
  cbn [constructed n_ages n_steps n_fx fx_idx age_span sx fx gx srb] in *.
  induction k as [| k IH]; intros Hk.
  - rewrite !sum_upto_0. unfold total. rewrite H0. ring.
  - rewrite !sum_upto_S.
    assert (Z.of_nat k < n_steps q)%Z as Hkq by (rewrite Es; unfold mat_cols; lia).
    assert (total (population q) (S k) + vsum (column (deaths q) k)
            = total (population q) k + at_ (infants q) k
              + vsum (column (migrations q) k)) as Hstep.
    { rewrite (previous_total q k Hq Hkq). unfold total.
      destruct (recorded_recurrence q k Hq Hkq) as (-> & -> & _ & -> & ->);
        [apply Hrec; lia |].
      rewrite !vsum_tabulate. apply step_balance_with_migration. lia. }
    specialize (IH ltac:(lia)).
    replace (total (population q) (S k)
             + (sum_upto k (fun j => vsum (column (deaths q) j))
                + vsum (column (deaths q) k)))
      with (total (population q) (S k) + vsum (column (deaths q) k)
            + sum_upto k (fun j => vsum (column (deaths q) j))) by ring.
    rewrite Hstep.
    replace (total (population q) k + at_ (infants q) k
             + vsum (column (migrations q) k)
             + sum_upto k (fun j => vsum (column (deaths q) j)))
      with (total (population q) k
            + sum_upto k (fun j => vsum (column (deaths q) j))
            + (at_ (infants q) k + vsum (column (migrations q) k))) by ring.
    rewrite IH. ring.
Qed.

Lemma ccmpp_cumulative_balance_witness :
  ∃ proj, ccmpp two_steps_basepop two_steps_sx two_steps_fx two_steps_gx
            two_steps_srb (q_ 5) 1 = Ok proj ∧
    ∀ k, (k ≤ length (columns two_steps_sx))%nat →
      total (population proj) k
      + sum_upto k (fun j => vsum (column (deaths proj) j))
      = vsum two_steps_basepop
        + sum_upto k (fun j =>
            at_ (infants proj) j + vsum (column (migrations proj) j)).
Proof.
  apply (ccmpp_cumulative_balance two_steps_basepop two_steps_sx two_steps_fx
           two_steps_gx two_steps_srb (q_ 5) 1).
  - inputs_shape.
  - vm_compute; congruence.
  - repeat constructor; scalar_neq.
Defined.

Lemma table_later_columns c t r n :
  table t r n → (Z.of_nat c ≤ n)%Z → table (later_columns c t) r (n - Z.of_nat c).
Proof.
  intros (Hr & Hc & Hall) Hle. unfold table, later_columns, mat_rows, mat_cols in *.
  cbn [nrows columns]. rewrite length_drop. repeat split; [done | lia |].
  by apply Forall_drop.
Qed.

Lemma column_later_columns c t j : column (later_columns c t) j = column t (c + j).
Proof. unfold column, later_columns. cbn [columns]. by rewrite lookup_drop. Qed.

Lemma at_drop c (v : vec) j : at_ (drop c v) j = at_ v (c + j).
Proof. unfold at_. by rewrite lookup_drop. Qed.

(** X13.  A projection can be taken up again from any of its columns: the run
    of [ccmpp] from population column [c] of a first run, with the rate
    columns from [c] on, returns column [c + j] of the first run as its
    column [j], for the population and for deaths, births, migrations and
    infants. *)
Theorem ccmpp_restart (basepop : vec) sxs fxs gxs (srbs : vec) span idx (c : nat) :
  valid_inputs basepop sxs fxs gxs srbs idx →
  Forall (fun r => r ≠ - (1)) srbs →
  (c ≤ length (columns sxs))%nat →
  ∃ p q,
    ccmpp basepop sxs fxs gxs srbs span idx = Ok p ∧
    ccmpp (column (population p) c) (later_columns c sxs) (later_columns c fxs)
      (later_columns c gxs) (drop c srbs) span idx = Ok q ∧
    (∀ j, (c + j ≤ length (columns sxs))%nat →
       column (population q) j = column (population p) (c + j)) ∧
    (∀ j, (c + j < length (columns sxs))%nat →
       column (deaths q) j = column (deaths p) (c + j) ∧
       column (births q) j = column (births p) (c + j) ∧
       column (migrations q) j = column (migrations p) (c + j) ∧
       at_ (infants q) j = at_ (infants p) (c + j)).
Proof.
  intros Hin Hsrb Hc.
  destruct (ccmpp_spec _ _ _ _ _ span idx Hin Hsrb)
    as (p & Hrun & Hp & Hsame & H0 & Hrec).
  destruct Hsame as (En & Es & Em & Eidx & Espan & Esx & Efx & Egx & Esrb).
  cbn [constructed n_ages n_steps n_fx fx_idx age_span sx fx gx srb] in *.
  destruct (table_column _ _ _ c (shaped_population p Hp)) as [_ Hlen].
  { rewrite Es. unfold mat_cols. lia. }
  assert (vsize (column (population p) c) = vsize basepop) as Hsize.
  { unfold vsize. rewrite Hlen, En. unfold vsize. lia. }
  assert (valid_inputs (column (population p) c) (later_columns c sxs)
            (later_columns c fxs) (later_columns c gxs) (drop c srbs) idx) as Hin'.
  { destruct Hin as [Hages Hsx Hfx Hgx Hlsrb Hidx Hwin].
    assert (mat_cols (later_columns c sxs) = mat_cols sxs - Z.of_nat c)%Z as Hcols.
    { unfold mat_cols, later_columns. cbn [columns]. rewrite length_drop. lia. }
    split; rewrite ?Hsize, ?Hcols; try done.
    - apply table_later_columns; [done | unfold mat_cols; lia].
    - apply (table_later_columns c fxs (mat_rows fxs)); [done | unfold mat_cols; lia].
    - apply table_later_columns; [done | unfold mat_cols; lia].
    - unfold vsize, mat_cols in *. rewrite length_drop. lia. }
  destruct (ccmpp_spec _ _ _ _ _ span idx Hin' (Forall_drop _ _ _ Hsrb))
    as (q & Hrun' & Hq & Hsame' & H0' & Hrec').
  destruct Hsame' as (En' & Es' & Em' & Eidx' & Espan' & Esx' & Efx' & Egx' & Esrb').
  cbn [constructed n_ages n_steps n_fx fx_idx age_span sx fx gx srb] in *.
  exists p, q. split; [done |]. split; [done |].
  assert (length (columns (later_columns c sxs)) = (length (columns sxs) - c)%nat)
    as Hsteps by (unfold later_columns; cbn [columns]; apply length_drop).
  assert (∀ j, (c + j < length (columns sxs))%nat →
            column (population q) j = column (population p) (c + j) →
            column (population q) (S j) = column (population p) (c + S j) ∧
            column (deaths q) j = column (deaths p) (c + j) ∧
            column (births q) j = column (births p) (c + j) ∧
            column (migrations q) j = column (migrations p) (c + j) ∧
            at_ (infants q) j = at_ (infants p) (c + j)) as Hstep.
  { intros j Hj Hprev.
    destruct (recorded_recurrence q j Hq) as (-> & -> & -> & -> & ->);
      [rewrite Es'; unfold mat_cols; lia | apply Hrec'; lia |].
    replace (c + S j)%nat with (S (c + j)) by lia.
    destruct (recorded_recurrence p (c + j) Hp) as (-> & -> & -> & -> & ->);
      [rewrite Es; unfold mat_cols; lia | apply Hrec; lia |].
    rewrite En, En', Em, Em', Eidx, Eidx', Espan, Espan', Esx, Esx', Efx, Efx',
      Egx, Egx', Esrb, Esrb'.
    rewrite Hprev, !column_later_columns, at_drop, Hsize. done. }
  assert (∀ j, (c + j ≤ length (columns sxs))%nat →
            column (population q) j = column (population p) (c + j)) as Hpop.
  { induction j as [| j IH]; intros Hj.
    - by rewrite H0', Nat.add_0_r.
    - apply Hstep; [lia |]. apply IH. lia. }
  split; [done |]. intros j Hj. apply Hstep; [done |]. apply Hpop. lia.
Qed.

Lemma ccmpp_restart_witness :
  ∃ p q,
    ccmpp two_steps_basepop two_steps_sx two_steps_fx two_steps_gx two_steps_srb
      (q_ 5) 1 = Ok p ∧
    ccmpp (column (population p) 1) (later_columns 1 two_steps_sx)
      (later_columns 1 two_steps_fx) (later_columns 1 two_steps_gx)
      (drop 1 two_steps_srb) (q_ 5) 1 = Ok q ∧
    (∀ j, (1 + j ≤ length (columns two_steps_sx))%nat →
       column (population q) j = column (population p) (1 + j)) ∧
    (∀ j, (1 + j < length (columns two_steps_sx))%nat →
       column (deaths q) j = column (deaths p) (1 + j) ∧
       column (births q) j = column (births p) (1 + j) ∧
       column (migrations q) j = column (migrations p) (1 + j) ∧
       at_ (infants q) j = at_ (infants p) (1 + j)).
Proof.
  apply (ccmpp_restart two_steps_basepop two_steps_sx two_steps_fx two_steps_gx
           two_steps_srb (q_ 5) 1 1).
  - inputs_shape.
  - repeat constructor; scalar_neq.
  - vm_compute; lia.
Defined.

Lemma at_cases (v : vec) i : (length v ≤ i)%nat ∧ at_ v i = 0 ∨ (i < length v)%nat.
Proof.
  destruct (decide (i < length v)%nat); [by right | left].
  split; [lia |]. apply at_outside. lia.
Qed.

Lemma at_tabulate_linear n (a b : Qc) F G H i :
  (∀ j, H j = a * F j + b * G j) →
  at_ (tabulate n H) i = a * at_ (tabulate n F) i + b * at_ (tabulate n G) i.
Proof.
  intros HH. destruct (decide (i < n)%nat).
  - by rewrite !at_tabulate.
  - rewrite !at_outside by (rewrite length_tabulate; lia). ring.
Qed.

Lemma at_zip_with_linear (a b : Qc) (u v : vec) i :
  length v = length u →
  at_ (zip_with (fun x y => a * x + b * y) u v) i = a * at_ u i + b * at_ v i.
Proof.
  intros Hlen. unfold at_. rewrite lookup_zip_with.
  destruct (u !! i) as [x |] eqn:Hu; destruct (v !! i) as [y |] eqn:Hv; cbn.
  - done.
  - apply lookup_lt_Some in Hu. apply lookup_ge_None in Hv. lia.
  - apply lookup_lt_Some in Hv. apply lookup_ge_None in Hu. lia.
  - ring.
Qed.

Lemma valid_inputs_resize (b b' : vec) sxs fxs gxs (srbs : vec) idx :
  length b' = length b →
  valid_inputs b sxs fxs gxs srbs idx → valid_inputs b' sxs fxs gxs srbs idx.
Proof.
  intros Hlen [? ? ? ? ? ? ?].
  split; unfold vsize in *; rewrite ?Hlen; done.
Qed.

(** The recurrence is linear in the previous population column. *)
Section RecurrenceLinear.
Variables (n idx m : nat) (span r a b : Qc) (P Q C Sx Fx Gx : nat → Qc).
Hypothesis HC : ∀ i, C i = a * P i + b * Q i.

Lemma migrants_linear i :
  migrants_at C Gx i = a * migrants_at P Gx i + b * migrants_at Q Gx i.
Proof. unfold migrants_at. rewrite HC. ring. Qed.

Lemma exposed_linear i :
  exposed_at C Gx i = a * exposed_at P Gx i + b * exposed_at Q Gx i.
Proof. unfold exposed_at. rewrite migrants_linear, HC. ring. Qed.

Lemma died_linear j :
  died_at C Sx Gx j = a * died_at P Sx Gx j + b * died_at Q Sx Gx j.
Proof. unfold died_at. rewrite exposed_linear. ring. Qed.

Lemma shifted_linear i :
  shifted_at n C Sx Gx i = a * shifted_at n P Sx Gx i + b * shifted_at n Q Sx Gx i.
Proof.
  unfold shifted_at. case_decide; rewrite ?died_linear, exposed_linear; ring.
Qed.

Lemma aged_linear i :
  aged_at n C Sx Gx i = a * aged_at n P Sx Gx i + b * aged_at n Q Sx Gx i.
Proof.
  unfold aged_at, open_age_survivors.
  case_decide; rewrite shifted_linear, ?died_linear, ?exposed_linear; ring.
Qed.

Lemma births_linear i :
  births_at n idx span C Sx Fx Gx i
  = a * births_at n idx span P Sx Fx Gx i + b * births_at n idx span Q Sx Fx Gx i.
Proof. unfold births_at. rewrite exposed_linear, aged_linear. ring. Qed.

Lemma infants_linear :
  infants_of n idx m span r C Sx Fx Gx
  = a * infants_of n idx m span r P Sx Fx Gx + b * infants_of n idx m span r Q Sx Fx Gx.
Proof.
  unfold infants_of.
  rewrite (sum_upto_ext m _ _ (fun i _ => births_linear i)).
  rewrite sum_upto_plus, !sum_upto_scale. unfold Qcdiv. ring.
Qed.

Lemma deaths_linear j :
  deaths_at n idx m span r C Sx Fx Gx j
  = a * deaths_at n idx m span r P Sx Fx Gx j + b * deaths_at n idx m span r Q Sx Fx Gx j.
Proof.
  unfold deaths_at. case_decide; rewrite ?infants_linear, ?died_linear; ring.
Qed.

Lemma next_population_linear i :
  next_population_at n idx m span r C Sx Fx Gx i
  = a * next_population_at n idx m span r P Sx Fx Gx i
    + b * next_population_at n idx m span r Q Sx Fx Gx i.
Proof.
  unfold next_population_at.
  case_decide; rewrite ?infants_linear, ?deaths_linear, ?aged_linear, migrants_linear; ring.
Qed.
End RecurrenceLinear.

(** X14.  The projection is linear in the base population: for base
    populations [b1], [b2] and scalars [a], [b], every entry of every
    output table of the run from [a * b1 + b * b2] is the same
    combination of the entries of the runs from [b1] and from [b2]. *)
Theorem ccmpp_linear (basepop1 basepop2 : vec) sxs fxs gxs (srbs : vec) span idx
    (a b : Qc) :
  valid_inputs basepop1 sxs fxs gxs srbs idx →
  length basepop2 = length basepop1 →
  Forall (fun r => r ≠ - (1)) srbs →
  ∃ p1 p2 p3,
    ccmpp basepop1 sxs fxs gxs srbs span idx = Ok p1 ∧
    ccmpp basepop2 sxs fxs gxs srbs span idx = Ok p2 ∧
    ccmpp (zip_with (fun x y => a * x + b * y) basepop1 basepop2)
      sxs fxs gxs srbs span idx = Ok p3 ∧
    ∀ i k,
      entry (population p3) i k
        = a * entry (population p1) i k + b * entry (population p2) i k ∧
      entry (deaths p3) i k = a * entry (deaths p1) i k + b * entry (deaths p2) i k ∧
      entry (births p3) i k = a * entry (births p1) i k + b * entry (births p2) i k ∧
      entry (migrations p3) i k
        = a * entry (migrations p1) i k + b * entry (migrations p2) i k ∧
      at_ (infants p3) k = a * at_ (infants p1) k + b * at_ (infants p2) k.
Proof.
  intros Hin1 Hlen Hsrb.
  set (basepop3 := zip_with (fun x y => a * x + b * y) basepop1 basepop2).
  assert (length basepop3 = length basepop1) as Hlen3.
  { unfold basepop3. rewrite length_zip_with. lia. }
  pose proof (valid_inputs_resize _ _ _ _ _ _ _ Hlen Hin1) as Hin2.
  pose proof (valid_inputs_resize _ _ _ _ _ _ _ Hlen3 Hin1) as Hin3.
  destruct (ccmpp_spec _ _ _ _ _ span idx Hin1 Hsrb)
    as (q1 & Hrun1 & Hq1 & Hsame1 & H01 & Hrec1).
  destruct (ccmpp_spec _ _ _ _ _ span idx Hin2 Hsrb)
    as (q2 & Hrun2 & Hq2 & Hsame2 & H02 & Hrec2).
  destruct (ccmpp_spec _ _ _ _ _ span idx Hin3 Hsrb)
    as (q3 & Hrun3 & Hq3 & Hsame3 & H03 & Hrec3).
  exists q1, q2, q3. split; [done |]. split; [done |]. split; [done |].
  destruct Hsame1 as (En1 & Es1 & Em1 & Eidx1 & Espan1 & Esx1 & Efx1 & Egx1 & Esrb1).
  destruct Hsame2 as (En2 & Es2 & Em2 & Eidx2 & Espan2 & Esx2 & Efx2 & Egx2 & Esrb2).
  destruct Hsame3 as (En3 & Es3 & Em3 & Eidx3 & Espan3 & Esx3 & Efx3 & Egx3 & Esrb3).
  cbn [constructed n_ages n_steps n_fx fx_idx age_span sx fx gx srb] in *.
  unfold vsize in En1, En2, En3. rewrite Hlen in En2. rewrite Hlen3 in En3.
  assert (∀ k, (Z.of_nat k < mat_cols sxs)%Z →
            recorded q1 k ∧ recorded q2 k ∧ recorded q3 k) as Hrec.
  { intros k Hk. unfold mat_cols in Hk.
    split; [apply Hrec1 | split; [apply Hrec2 | apply Hrec3]]; lia. }
  assert (∀ k i, (Z.of_nat k ≤ mat_cols sxs)%Z →
            at_ (column (population q3) k) i
            = a * at_ (column (population q1) k) i
              + b * at_ (column (population q2) k) i) as Hpop.
  { induction k as [| k IH]; intros i Hk.
    - rewrite H01, H02, H03. by apply at_zip_with_linear.
    - destruct (Hrec k) as (R1 & R2 & R3); [lia |].
      destruct (recorded_recurrence q1 k Hq1) as (-> & _); [lia | done |].
      destruct (recorded_recurrence q2 k Hq2) as (-> & _); [lia | done |].
      destruct (recorded_recurrence q3 k Hq3) as (-> & _); [lia | done |].
      rewrite En1, En2, En3, Em1, Em2, Em3, Eidx1, Eidx2, Eidx3,
        Espan1, Espan2, Espan3, Esx1, Esx2, Esx3, Efx1, Efx2, Efx3,
        Egx1, Egx2, Egx3, Esrb1, Esrb2, Esrb3.
      apply at_tabulate_linear. intros j. apply next_population_linear.
      intros j'. apply IH. lia. }
  intros i k. unfold entry.
  destruct (decide (Z.of_nat k < mat_cols sxs)%Z) as [Hk | Hk].
  - destruct (Hrec k Hk) as (R1 & R2 & R3).
    destruct (recorded_recurrence q1 k Hq1) as (_ & -> & -> & -> & ->); [lia | done |].
    destruct (recorded_recurrence q2 k Hq2) as (_ & -> & -> & -> & ->); [lia | done |].
    destruct (recorded_recurrence q3 k Hq3) as (_ & -> & -> & -> & ->); [lia | done |].
    rewrite En1, En2, En3, Em1, Em2, Em3, Eidx1, Eidx2, Eidx3,
      Espan1, Espan2, Espan3, Esx1, Esx2, Esx3, Efx1, Efx2, Efx3,
      Egx1, Egx2, Egx3, Esrb1, Esrb2, Esrb3.
    assert (∀ j, at_ (column (population q3) k) j
                 = a * at_ (column (population q1) k) j
                   + b * at_ (column (population q2) k) j) as Hprev.
    { intros j. apply Hpop. lia. }
    split; [apply Hpop; lia |].
    split; [apply at_tabulate_linear; intros j; by apply deaths_linear |].
    split; [apply at_tabulate_linear; intros j; by apply births_linear |].
    split; [apply at_tabulate_linear; intros j; by apply migrants_linear |].
    by apply infants_linear.
  - fold (entry (deaths q1) i k) (entry (deaths q2) i k) (entry (deaths q3) i k)
      (entry (births q1) i k) (entry (births q2) i k) (entry (births q3) i k)
      (entry (migrations q1) i k) (entry (migrations q2) i k)
      (entry (migrations q3) i k).
    rewrite (entry_outside _ _ _ i k (shaped_deaths q1 Hq1)),
      (entry_outside _ _ _ i k (shaped_deaths q2 Hq2)),
      (entry_outside _ _ _ i k (shaped_deaths q3 Hq3)),
      (entry_outside _ _ _ i k (shaped_births q1 Hq1)),
      (entry_outside _ _ _ i k (shaped_births q2 Hq2)),
      (entry_outside _ _ _ i k (shaped_births q3 Hq3)),
      (entry_outside _ _ _ i k (shaped_migrations q1 Hq1)),
      (entry_outside _ _ _ i k (shaped_migrations q2 Hq2)),
      (entry_outside _ _ _ i k (shaped_migrations q3 Hq3)) by lia.
    rewrite !(at_outside (infants _))
      by (pose proof (shaped_infants q1 Hq1) as Hi1;
          pose proof (shaped_infants q2 Hq2) as Hi2;
          pose proof (shaped_infants q3 Hq3) as Hi3;
          unfold vsize in *; lia).
    split; [| repeat split; ring].
    destruct (decide (Z.of_nat k ≤ mat_cols sxs)%Z); [by apply Hpop |].
    fold (entry (population q1) i k) (entry (population q2) i k)
      (entry (population q3) i k).
    rewrite (entry_outside _ _ _ i k (shaped_population q1 Hq1)),
      (entry_outside _ _ _ i k (shaped_population q2 Hq2)),
      (entry_outside _ _ _ i k (shaped_population q3 Hq3)) by lia.
    ring.
Qed.

Lemma ccmpp_linear_witness :
  ∃ p1 p2 p3,
    ccmpp two_steps_basepop two_steps_sx two_steps_fx two_steps_gx
      two_steps_srb (q_ 5) 1 = Ok p1 ∧
    ccmpp two_steps_other two_steps_sx two_steps_fx two_steps_gx
      two_steps_srb (q_ 5) 1 = Ok p2 ∧
    ccmpp (zip_with (fun x y => q_ 2 * x + q_ 3 * y) two_steps_basepop two_steps_other)
      two_steps_sx two_steps_fx two_steps_gx two_steps_srb (q_ 5) 1 = Ok p3 ∧
    ∀ i k,
      entry (population p3) i k
        = q_ 2 * entry (population p1) i k + q_ 3 * entry (population p2) i k ∧
      entry (deaths p3) i k
        = q_ 2 * entry (deaths p1) i k + q_ 3 * entry (deaths p2) i k ∧
      entry (births p3) i k
        = q_ 2 * entry (births p1) i k + q_ 3 * entry (births p2) i k ∧
      entry (migrations p3) i k
        = q_ 2 * entry (migrations p1) i k + q_ 3 * entry (migrations p2) i k ∧
      at_ (infants p3) k = q_ 2 * at_ (infants p1) k + q_ 3 * at_ (infants p2) k.
Proof.
  apply (ccmpp_linear two_steps_basepop two_steps_other two_steps_sx two_steps_fx
           two_steps_gx two_steps_srb (q_ 5) 1 (q_ 2) (q_ 3)).
  - inputs_shape.
  - reflexivity.
  - repeat constructor; scalar_neq.
Defined.

Lemma at_nonneg (v : vec) i : Forall (fun x => 0 ≤ x) v → 0 ≤ at_ v i.
Proof.
  intros Hv. destruct (at_cases v i) as [[_ ->] | Hi]; [apply Qcle_refl |].
  by apply (at_Forall (fun x => 0 ≤ x)).
Qed.

Lemma at_tabulate_nonneg n F i : (∀ j, 0 ≤ F j) → 0 ≤ at_ (tabulate n F) i.
Proof.
  intros HF. destruct (at_cases (tabulate n F) i) as [[_ ->] | Hi]; [apply Qcle_refl |].
  rewrite length_tabulate in Hi. by rewrite at_tabulate.
Qed.

Lemma Qc_nonneg_mult (x y : Qc) : 0 ≤ x → 0 ≤ y → 0 ≤ x * y.
Proof.
  intros Hx Hy. rewrite <- (Qcmult_0_l y). by apply Qcmult_le_compat_r.
Qed.

Lemma Qc_nonneg_minus (x y : Qc) : y ≤ x → 0 ≤ x - y.
Proof. intros H. by apply Qcle_minus_iff in H. Qed.

Lemma Qc_nonneg_div (x y : Qc) : 0 ≤ x → 0 < y → 0 ≤ x / y.
Proof.
  intros Hx Hy. apply (Qcmult_lt_0_le_reg_r _ _ y Hy).
  rewrite Qcmult_0_l.
  replace (x / y * y) with x; [done |].
  field. intros ->. by apply Qclt_not_eq in Hy.
Qed.

Lemma half_nonneg : 0 ≤ half.
Proof. by vm_compute. Qed.

Lemma sum_upto_nonneg n F : (∀ i, (i < n)%nat → 0 ≤ F i) → 0 ≤ sum_upto n F.
Proof.
  induction n as [| n IH]; intros HF.
  - rewrite sum_upto_0. apply Qcle_refl.
  - rewrite sum_upto_S. apply Qcplus_nonneg_nonneg; [apply IH | apply HF]; auto with lia.
Qed.

(** The recurrence keeps counts non-negative. *)
Section RecurrenceNonNegative.
Variables (n idx m : nat) (span r : Qc) (Pop Sx Fx Gx : nat → Qc).
Hypothesis HPop : ∀ i, 0 ≤ Pop i.
Hypothesis HSx : ∀ i, 0 ≤ Sx i ≤ 1.
Hypothesis HFx : ∀ i, 0 ≤ Fx i.
Hypothesis HGx : ∀ i, 0 ≤ Gx i.
Hypothesis Hspan : 0 ≤ span.
Hypothesis Hr : 0 < 1 + r.

Lemma migrants_nonneg i : 0 ≤ migrants_at Pop Gx i.
Proof. by apply Qc_nonneg_mult. Qed.

Lemma exposed_nonneg i : 0 ≤ exposed_at Pop Gx i.
Proof.
  apply Qcplus_nonneg_nonneg; [done |].
  apply Qc_nonneg_mult; [apply half_nonneg | apply migrants_nonneg].
Qed.

Lemma died_nonneg j : 0 ≤ died_at Pop Sx Gx j.
Proof.
  apply Qc_nonneg_mult; [apply exposed_nonneg |].
  apply Qc_nonneg_minus, HSx.
Qed.

Lemma survivors_nonneg i j : 0 ≤ exposed_at Pop Gx i - exposed_at Pop Gx i * (1 - Sx j).
Proof.
  replace (exposed_at Pop Gx i - exposed_at Pop Gx i * (1 - Sx j))
    with (exposed_at Pop Gx i * Sx j) by ring.
  apply Qc_nonneg_mult; [apply exposed_nonneg | apply HSx].
Qed.

Lemma shifted_nonneg i : 0 ≤ shifted_at n Pop Sx Gx i.
Proof.
  unfold shifted_at. case_decide; [apply survivors_nonneg | apply exposed_nonneg].
Qed.

Lemma aged_nonneg i : 0 ≤ aged_at n Pop Sx Gx i.
Proof.
  unfold aged_at. case_decide; [| apply shifted_nonneg].
  apply Qcplus_nonneg_nonneg; [apply shifted_nonneg |].
  apply survivors_nonneg.
Qed.

Lemma births_nonneg i : 0 ≤ births_at n idx span Pop Sx Fx Gx i.
Proof.
  unfold births_at.
  apply Qcplus_nonneg_nonneg; repeat apply Qc_nonneg_mult;
    auto using half_nonneg, exposed_nonneg, aged_nonneg.
Qed.

Lemma infants_nonneg : 0 ≤ infants_of n idx m span r Pop Sx Fx Gx.
Proof.
  apply Qc_nonneg_div; [| done].
  apply sum_upto_nonneg. intros. apply births_nonneg.
Qed.

Lemma deaths_nonneg j : 0 ≤ deaths_at n idx m span r Pop Sx Fx Gx j.
Proof.
  unfold deaths_at. case_decide; [| apply died_nonneg].
  apply Qc_nonneg_mult; [apply infants_nonneg | apply Qc_nonneg_minus, HSx].
Qed.

Lemma next_population_nonneg i : 0 ≤ next_population_at n idx m span r Pop Sx Fx Gx i.
Proof.
  unfold next_population_at.
  apply Qcplus_nonneg_nonneg;
    [| apply Qc_nonneg_mult; [apply half_nonneg | apply migrants_nonneg]].
  case_decide; [| apply aged_nonneg].
  unfold deaths_at. rewrite decide_True by done.
  replace (infants_of n idx m span r Pop Sx Fx Gx
           - infants_of n idx m span r Pop Sx Fx Gx * (1 - Sx 0%nat))
    with (infants_of n idx m span r Pop Sx Fx Gx * Sx 0%nat) by ring.
  apply Qc_nonneg_mult; [apply infants_nonneg | apply HSx].
Qed.
End RecurrenceNonNegative.

(** X15.  Non-negative arguments give non-negative counts: when the base
    population, [fx], [gx] and [age_span] are not negative, every [sx]
    entry is between 0 and 1 and every [srb] entry is greater than -1,
    every entry of population, deaths, births, migrations and infants of
    the result is non-negative. *)
Theorem ccmpp_nonnegative (basepop : vec) sxs fxs gxs (srbs : vec) span idx :
  valid_inputs basepop sxs fxs gxs srbs idx →
  Forall (fun x => 0 ≤ x) basepop →
  (∀ i k, 0 ≤ entry sxs i k ≤ 1) →
  (∀ i k, 0 ≤ entry fxs i k) →
  (∀ i k, 0 ≤ entry gxs i k) →
  0 ≤ span →
  Forall (fun r => - (1) < r) srbs →
  ∃ proj, ccmpp basepop sxs fxs gxs srbs span idx = Ok proj ∧
    ∀ i k, 0 ≤ entry (population proj) i k ∧ 0 ≤ entry (deaths proj) i k ∧
           0 ≤ entry (births proj) i k ∧ 0 ≤ entry (migrations proj) i k ∧
           0 ≤ at_ (infants proj) k.
Proof.
  intros Hin Hpop Hsx Hfx Hgx Hspan Hsrb.
  assert (Forall (fun r => r ≠ - (1)) srbs) as Hsrb'.
  { eapply Forall_impl; [exact Hsrb |]. intros r. apply srb_above_minus_one. }
  destruct (ccmpp_spec _ _ _ _ _ span idx Hin Hsrb')
    as (q & Hrun & Hq & Hsame & H0 & Hrec).
  exists q. split; [done |].
  destruct Hsame as (En & Es & Em & Eidx & Espan & Esx & Efx & Egx & Esrb).
  cbn [constructed n_ages n_steps n_fx fx_idx age_span sx fx gx srb] in *.
  assert (∀ k, (Z.of_nat k < n_steps q)%Z → 0 < 1 + at_ (srb q) k) as Hr.
  { intros k Hk. rewrite Esrb.
    assert (- (1) < at_ srbs k) as Hlt.
    { apply (at_Forall (fun r => - (1) < r)); [done |].
      pose proof (valid_srb _ _ _ _ _ _ Hin) as Hlen. unfold vsize in Hlen. lia. }
    apply (proj1 (Qcplus_lt_mono_l _ _ 1)) in Hlt.
    by replace (1 + - (1)) with 0 in Hlt by ring. }
  assert (∀ k j, 0 ≤ at_ (column (sx q) k) j ≤ 1) as Hsxq
    by (rewrite Esx; intros; apply Hsx).
  assert (∀ k j, 0 ≤ at_ (column (fx q) k) j) as Hfxq
    by (rewrite Efx; intros; apply Hfx).
  assert (∀ k j, 0 ≤ at_ (column (gx q) k) j) as Hgxq
    by (rewrite Egx; intros; apply Hgx).
  rewrite <- Espan in Hspan.
  assert (∀ k i, (Z.of_nat k ≤ n_steps q)%Z → 0 ≤ entry (population q) i k) as Hpopq.
  { induction k as [| k IH]; intros i Hk; unfold entry.
    - rewrite H0. by apply at_nonneg.
    - destruct (recorded_recurrence q k Hq) as (-> & _); [lia | apply Hrec |].
      { rewrite Es in Hk. unfold mat_cols in Hk. lia. }
      apply at_tabulate_nonneg. intros j.
      apply next_population_nonneg; auto; [| apply Hr; lia].
      intros j'. apply IH. lia. }
  intros i k.
  destruct (decide (Z.of_nat k < n_steps q)%Z) as [Hk | Hk].
  - destruct (recorded_recurrence q k Hq Hk) as (_ & Rd & Rb & Rm & Ri).
    { apply Hrec. rewrite Es in Hk. unfold mat_cols in Hk. lia. }
    assert (∀ j, 0 ≤ at_ (column (population q) k) j) as Hprev.
    { intros j. apply Hpopq. lia. }
    unfold entry at 2 3 4. rewrite Rd, Rb, Rm, Ri.
    split; [apply Hpopq; lia |].
    assert (0 < 1 + at_ (srb q) k) by auto.
    split; [apply at_tabulate_nonneg; intros j; apply deaths_nonneg; auto |].
    split; [apply at_tabulate_nonneg; intros j; apply births_nonneg; auto |].
    split; [apply at_tabulate_nonneg; intros j; apply migrants_nonneg; auto |].
    apply infants_nonneg; auto.
  - rewrite (entry_outside _ _ _ i k (shaped_deaths q Hq)) by lia.
    rewrite (entry_outside _ _ _ i k (shaped_births q Hq)) by lia.
    rewrite (entry_outside _ _ _ i k (shaped_migrations q Hq)) by lia.
    rewrite (at_outside (infants q))
      by (pose proof (shaped_infants q Hq) as Hi; unfold vsize in Hi; lia).
    split; [| by repeat split].
    destruct (decide (Z.of_nat k ≤ n_steps q)%Z); [by apply Hpopq |].
    rewrite (entry_outside _ _ _ i k (shaped_population q Hq)) by lia. done.
Qed.

Lemma ccmpp_nonnegative_witness :
  ∃ proj, ccmpp two_steps_basepop two_steps_sx two_steps_fx two_steps_gx
            two_steps_srb (q_ 5) 1 = Ok proj ∧
    ∀ i k, 0 ≤ entry (population proj) i k ∧ 0 ≤ entry (deaths proj) i k ∧
           0 ≤ entry (births proj) i k ∧ 0 ≤ entry (migrations proj) i k ∧
           0 ≤ at_ (infants proj) k.
Proof.
  apply (ccmpp_nonnegative two_steps_basepop two_steps_sx two_steps_fx two_steps_gx
           two_steps_srb (q_ 5) 1).
  - inputs_shape.
  - repeat constructor; scalar_le.
  - entries_le.
  - entries_le.
  - entries_le.
  - scalar_le.
  - repeat constructor; vm_compute; reflexivity.
Defined.

(** ** The Leslie-matrix builder: its domain *)

Lemma srb_denominator_inv (r : Qc) : 1 + r ≠ 0 → r ≠ - (1).
Proof. intros Hr ->. apply Hr. ring. Qed.

Lemma vcoeff_out_of_range (v : vec) i :
  ¬ (0 ≤ i < vsize v)%Z → vcoeff v i = Err IndexOutOfRange.
Proof. intros Hi. unfold vcoeff. by rewrite in_range_false. Qed.

Lemma make_leslie_matrix_div0 (sxv fxv : vec) srb span idx :
  (1 ≤ vsize sxv)%Z → 1 + srb = 0 →
  make_leslie_matrix sxv fxv srb span idx = Err DivisionByZero.
Proof.
  intros Hsx Hr. unfold make_leslie_matrix.
  rewrite (vcoeff_at sxv 0) by lia. rewrite bind_Ok.
  unfold sdiv. by rewrite decide_True.
Qed.

(** X16.  The domain of the builder: it returns a matrix exactly when [sx] has
    at least three entries (two age groups), [1 ≤ fx_idx], the fertility
    block ends inside the matrix ([fx_idx + n_fx ≤ n_ages]) and
    [srb ≠ -1]; and it ends in a division by zero exactly when [sx] is
    not empty and [srb = -1]. *)
Theorem leslie_matrix_domain (sxv fxv : vec) srb span idx :
  ((∃ L, make_leslie_matrix sxv fxv srb span idx = Ok L) ↔
     (3 ≤ vsize sxv)%Z ∧ (1 ≤ idx)%Z ∧ (idx + vsize fxv ≤ vsize sxv - 1)%Z ∧
     srb ≠ - (1)) ∧
  (make_leslie_matrix sxv fxv srb span idx = Err DivisionByZero ↔
     (1 ≤ vsize sxv)%Z ∧ srb = - (1)).
Proof.
  split; split.
  - intros (L & HL).
    destruct (make_leslie_matrix_inv _ _ _ _ _ _ HL) as (Hdim & Hidx & Hwin & Hr).
    repeat split; try lia. by apply srb_denominator_inv.
  - intros (Hdim & Hidx & Hwin & Hr).
    destruct (make_leslie_matrix_runs sxv fxv srb span idx) as (L & HL & _);
      try lia; [by apply srb_denominator |].
    by exists L.
  - intros Hdiv. split.
    + destruct (decide (1 ≤ vsize sxv)%Z) as [| Hempty]; [done |].
      unfold make_leslie_matrix in Hdiv.
      rewrite (vcoeff_out_of_range sxv 0) in Hdiv by lia. discriminate Hdiv.
    + destruct (decide (srb = - (1))) as [| Hr]; [done |].
      by destruct (no_div0_make_leslie_matrix sxv fxv srb span idx
                     (srb_denominator _ Hr)).
  - intros (Hsx & ->). apply make_leslie_matrix_div0; [done | ring].
Qed.

(** ** The matrix form: its columns and its domain *)

Lemma length_leslie_next sxv fxv gxv r span idx prev :
  length (leslie_next sxv fxv gxv r span idx prev) = length prev.
Proof. unfold leslie_next. apply length_tabulate. Qed.

Lemma leslie_loop_recurrence sxs fxs gxs (srbs : vec) span idx n ns m c : ∀ k M,
  table sxs (n + 1) ns → table fxs m ns → table gxs n ns → vsize srbs = ns →
  table M n (ns + 1) → (Z.of_nat (k + c) ≤ ns)%Z →
  (2 ≤ n)%Z → (1 ≤ idx)%Z → (0 ≤ m)%Z → (idx + m ≤ n)%Z →
  (∀ j, (k ≤ j < k + c)%nat → 1 + at_ srbs j ≠ 0) →
  ∃ M', for_each (seqZ (Z.of_nat k) (Z.of_nat c))
          (leslie_step sxs fxs gxs srbs span idx) M = Ok M' ∧
    table M' n (ns + 1) ∧
    (∀ j, (j ≤ k)%nat → column M' j = column M j) ∧
    (∀ j, (k ≤ j < k + c)%nat →
       column M' (S j)
       = leslie_next (column sxs j) (column fxs j) (column gxs j) (at_ srbs j)
           span idx (column M' j)).
Proof.
  induction c as [| c IH]; intros k M Hsx Hfx Hgx Hsrb HM Hk Hn Hidx Hm Hwin Hr.
  { exists M. split; [done |]. split; [done |]. split; [done |].
    intros j Hj. lia. }
  rewrite seqZ_cons by lia. cbn [for_each].
  rewrite (leslie_step_runs _ _ _ _ _ _ _ _ n ns m); try done; try lia;
    [| apply Hr; lia].
  rewrite bind_Ok.
  replace (Z.succ (Z.of_nat k)) with (Z.of_nat (S k)) by lia.
  replace (Z.pred (Z.of_nat (S c))) with (Z.of_nat c) by lia.
  set (M1 := leslie_stepped sxs fxs gxs srbs span idx k M).
  pose proof (table_column _ _ _ k HM ltac:(lia)) as [_ Lprev].
  pose proof (table_cols_length _ _ _ HM) as Lcols.
  assert (table M1 n (ns + 1)) as HM1.
  { apply table_set_col; [done |].
    unfold vsize. rewrite length_leslie_next. lia. }
  destruct (IH (S k) M1) as (M' & Hrun & HM' & Hlow & Hrec); try done; try lia.
  { intros j Hj. apply Hr. lia. }
  exists M'. split; [done |]. split; [done |]. split.
  - intros j Hj. rewrite Hlow by lia. apply column_set_col_ne. lia.
  - intros j Hj. destruct (decide (j = k)) as [-> | Hne]; [| apply Hrec; lia].
    rewrite !Hlow by lia. unfold M1, leslie_stepped.
    rewrite column_set_col_eq by lia. by rewrite column_set_col_ne by lia.
Qed.

Lemma ccmpp_leslie_spec (basepop : vec) sxs fxs gxs (srbs : vec) span idx :
  valid_inputs basepop sxs fxs gxs srbs idx →
  (2 ≤ vsize basepop)%Z → (1 ≤ idx)%Z →
  Forall (fun r => r ≠ - (1)) srbs →
  ∃ M, ccmpp_leslie basepop sxs fxs gxs srbs span idx = Ok M ∧
    table M (vsize basepop) (mat_cols sxs + 1) ∧
    column M 0 = basepop ∧
    ∀ k, (k < length (columns sxs))%nat →
      column M (S k)
      = leslie_next (column sxs k) (column fxs k) (column gxs k) (at_ srbs k)
          span idx (column M k).
Proof.
  intros [Hages Hsx Hfx Hgx Hsrb Hidx0 Hwin] Hn Hidx Hr.
  unfold ccmpp_leslie. cbv zeta.
  rewrite new_matrix_runs by (unfold vsize, mat_cols; lia). rewrite bind_Ok.
  change 0%Z with (Z.of_nat 0) at 1.
  rewrite (set_col_table _ (vsize basepop) (mat_cols sxs + 1) 0)
    by (try apply table_new; unfold vsize, mat_cols; lia).
  rewrite bind_Ok.
  set (M0 := Matrix _ _).
  assert (table M0 (vsize basepop) (mat_cols sxs + 1)) as HM0.
  { apply (table_set_col (Matrix _ (replicate _ _))); [| done].
    apply table_new; unfold vsize, mat_cols; lia. }
  unfold mat_cols at 1.
  destruct (leslie_loop_recurrence sxs fxs gxs srbs span idx (vsize basepop)
              (mat_cols sxs) (mat_rows fxs) (length (columns sxs)) 0 M0)
    as (M' & Hrun & HM' & Hlow & Hrec); try done.
  - unfold mat_rows. lia.
  - intros j Hj. apply srb_denominator, at_Forall; [done |].
    unfold vsize, mat_cols in Hsrb. lia.
  - exists M'. split; [exact Hrun |]. split; [done |]. split.
    + rewrite Hlow by lia. unfold M0, column. cbn [columns].
      rewrite list_lookup_insert_eq; [done |].
      rewrite length_replicate. unfold mat_cols. lia.
    + intros k Hk. apply Hrec. lia.
Qed.

(** The rows of a matrix-form step, the open age group fertile or not. *)
Section MatrixRows.
Variables (n idx m : nat) (span r : Qc) (sxv fxv gxv prev : vec).
Hypothesis Hsx : length sxv = S n.
Hypothesis Hfx : length fxv = m.
Hypothesis Hprev : length prev = n.
Hypothesis Hn : (2 ≤ n)%nat.
Hypothesis Hidx : (1 ≤ idx)%nat.
Hypothesis Hwin : (idx + m ≤ n)%nat.

Local Abbreviation Pop := (at_ prev).
Local Abbreviation Sx := (at_ sxv).
Local Abbreviation Fx := (at_ fxv).
Local Abbreviation Gx := (at_ gxv).
Local Abbreviation w := (exposed_at Pop Gx).
Local Abbreviation mig := (migrants_at Pop Gx).

Lemma leslie_next_top :
  at_ (leslie_next sxv fxv gxv r span (Z.of_nat idx) prev) 0
  = fert_k sxv r span
    * sum_upto m (fun i =>
        Fx i * Sx (idx + i)%nat * w (idx + i - 1)%nat + Fx i * w (idx + i)%nat)
    + half * mig 0%nat.
Proof.
  unfold leslie_next. rewrite Hprev, at_tabulate by lia.
  by rewrite (leslie_row_fertility n idx m).
Qed.

Lemma leslie_next_aging i :
  (1 ≤ i < n)%nat →
  at_ (leslie_next sxv fxv gxv r span (Z.of_nat idx) prev) i
  = Sx i * w (i - 1)%nat
    + (if decide (i = n - 1)%nat then Sx n * w (n - 1)%nat else 0)
    + half * mig i.
Proof.
  intros Hi. unfold leslie_next. rewrite Hprev, at_tabulate by lia.
  by rewrite (leslie_row_aging n idx m).
Qed.

Lemma next_population_aging i :
  (1 ≤ i < n)%nat →
  next_population_at n idx m span r Pop Sx Fx Gx i
  = Sx i * w (i - 1)%nat
    + (if decide (i = n - 1)%nat then Sx n * w (n - 1)%nat else 0)
    + half * mig i.
Proof.
  intros Hi. destruct (decide (i = n - 1)%nat) as [-> | Hlast].
  - rewrite next_population_oldest by lia.
    rewrite !deaths_later by lia. unfold died_at.
    replace (n - 1 - 1)%nat with (n - 2)%nat by lia. ring.
  - rewrite next_population_middle by lia.
    rewrite deaths_later by lia. unfold died_at. ring.
Qed.

(** The births of the direct step: what the top row of the Leslie matrix
    accounts for, and the births to the survivors who stay in the open
    age group. *)
Lemma births_with_open_group i :
  (i < m)%nat →
  births_at n idx span Pop Sx Fx Gx i
  = half * span
    * (Fx i * Sx (idx + i)%nat * w (idx + i - 1)%nat + Fx i * w (idx + i)%nat)
    + (if decide (i = m - 1 ∧ idx + m = n)%nat
       then half * span * Fx i * (Sx n * w (n - 1)%nat) else 0).
Proof.
  intros Hi. unfold births_at, aged_at, shifted_at, open_age_survivors, died_at.
  rewrite (decide_True (P := (1 ≤ idx + i ≤ n - 1)%nat)) by lia.
  destruct (decide (idx + i = n - 1)%nat) as [Hopen | Hbelow].
  - rewrite decide_True by lia. rewrite Hopen. ring.
  - rewrite decide_False by lia. ring.
Qed.

Lemma infants_with_open_group :
  1 + r ≠ 0 →
  infants_of n idx m span r Pop Sx Fx Gx * Sx 0%nat
  = fert_k sxv r span
    * sum_upto m (fun i =>
        Fx i * Sx (idx + i)%nat * w (idx + i - 1)%nat + Fx i * w (idx + i)%nat)
    + (if decide (1 ≤ m ∧ idx + m = n)%nat
       then fert_k sxv r span * (Fx (m - 1)%nat * (Sx n * w (n - 1)%nat)) else 0).
Proof.
  intros Hr. unfold infants_of.
  rewrite (sum_upto_ext m _ _ births_with_open_group).
  rewrite sum_upto_plus, sum_upto_scale.
  assert (sum_upto m (fun i =>
            if decide (i = m - 1 ∧ idx + m = n)%nat
            then half * span * Fx i * (Sx n * w (n - 1)%nat) else 0)
          = if decide (1 ≤ m ∧ idx + m = n)%nat
            then half * span * Fx (m - 1)%nat * (Sx n * w (n - 1)%nat) else 0) as ->.
  { case_decide as Hopen.
    - rewrite <- (sum_upto_single m (m - 1)
                   (fun i => half * span * Fx i * (Sx n * w (n - 1)%nat))) by lia.
      apply sum_upto_ext. intros i Hi.
      destruct (decide (i = m - 1)%nat).
      + by rewrite decide_True by lia.
      + by rewrite decide_False by lia.
    - apply sum_upto_zero. intros i Hi. by rewrite decide_False by lia. }
  unfold fert_k. case_decide; field; done.
Qed.
End MatrixRows.

Lemma leslie_next_idx sxv fxv gxv r span idx prev :
  (0 ≤ idx)%Z →
  leslie_next sxv fxv gxv r span idx prev
  = leslie_next sxv fxv gxv r span (Z.of_nat (Z.to_nat idx)) prev.
Proof. intros. by rewrite Z2Nat.id. Qed.

(** X17.  The columns of the matrix form: on arguments of validated shapes
    with at least two age groups, [1 ≤ fx_idx] and no [srb] entry -1,
    [ccmpp_leslie] returns an [n_ages × (n_steps + 1)] table whose
    column 0 is the base population and whose column [k + 1] is, with
    [w] column [k] plus half its migrants: at age 0 the factor
    [sx[0] * 0.5 * age_span / (1 + srb)] times the sum over the fertile
    ages of [fx[i] * sx[a] * w[a - 1] + fx[i] * w[a]] ([a = fx_idx + i]);
    at ages [1 .. n_ages - 1] the survivors [sx[i] * w[i - 1]], plus
    [sx[n_ages] * w[n_ages - 1]] in the open age group; and half the
    migrants at every age. *)
Theorem ccmpp_leslie_columns (basepop : vec) sxs fxs gxs (srbs : vec) span idx :
  valid_inputs basepop sxs fxs gxs srbs idx →
  (2 ≤ vsize basepop)%Z → (1 ≤ idx)%Z →
  Forall (fun r => r ≠ - (1)) srbs →
  ∃ M, ccmpp_leslie basepop sxs fxs gxs srbs span idx = Ok M ∧
    table M (vsize basepop) (mat_cols sxs + 1) ∧
    column M 0 = basepop ∧
    ∀ k, (k < length (columns sxs))%nat →
      let n := length basepop in
      let a := Z.to_nat idx in
      let mig i := entry M i k * entry gxs i k in
      let w i := entry M i k + half * mig i in
      entry M 0 (S k)
      = entry sxs 0 k * half * span / (1 + at_ srbs k)
        * sum_upto (nrows fxs) (fun i =>
            entry fxs i k * entry sxs (a + i) k * w (a + i - 1)%nat
            + entry fxs i k * w (a + i)%nat)
        + half * mig 0%nat ∧
      ∀ i, (1 ≤ i < n)%nat →
        entry M i (S k)
        = entry sxs i k * w (i - 1)%nat
          + (if decide (i = n - 1)%nat then entry sxs n k * w (n - 1)%nat else 0)
          + half * mig i.
Proof.
  intros Hin Hn Hidx Hsrb.
  destruct (ccmpp_leslie_spec _ _ _ _ _ span idx Hin Hn Hidx Hsrb)
    as (M & Hrun & HM & H0 & Hrec).
  exists M. split; [done |]. split; [done |]. split; [done |].
  intros k Hk. cbv zeta.
  destruct Hin as [Hages Hsx Hfx Hgx Hlen Hidx0 Hwin].
  assert (Z.of_nat k < mat_cols sxs)%Z as Hk' by (unfold mat_cols; lia).
  pose proof (table_column _ _ _ k Hsx Hk') as [_ Lsx].
  pose proof (table_column _ _ _ k Hfx Hk') as [_ Lfx].
  pose proof (table_column _ _ _ k HM ltac:(lia)) as [_ Lprev].
  unfold vsize, mat_rows in *. rewrite Nat2Z.id in Lfx, Lprev.
  unfold entry. rewrite (Hrec k Hk). rewrite leslie_next_idx by lia.
  split.
  - rewrite (leslie_next_top (length basepop) (Z.to_nat idx) (nrows fxs)); (done || lia).
  - intros i Hi.
    rewrite (leslie_next_aging (length basepop) (Z.to_nat idx) (nrows fxs));
      (done || lia).
Qed.

Lemma ccmpp_leslie_columns_witness :
  ∃ M, ccmpp_leslie two_steps_basepop two_steps_sx two_steps_fx two_steps_gx
         two_steps_srb (q_ 5) 1 = Ok M ∧
    table M (vsize two_steps_basepop) (mat_cols two_steps_sx + 1) ∧
    column M 0 = two_steps_basepop ∧
    ∀ k, (k < length (columns two_steps_sx))%nat →
      let n := length two_steps_basepop in
      let a := Z.to_nat 1 in
      let mig i := entry M i k * entry two_steps_gx i k in
      let w i := entry M i k + half * mig i in
      entry M 0 (S k)
      = entry two_steps_sx 0 k * half * q_ 5 / (1 + at_ two_steps_srb k)
        * sum_upto (nrows two_steps_fx) (fun i =>
            entry two_steps_fx i k * entry two_steps_sx (a + i) k * w (a + i - 1)%nat
            + entry two_steps_fx i k * w (a + i)%nat)
        + half * mig 0%nat ∧
      ∀ i, (1 ≤ i < n)%nat →
        entry M i (S k)
        = entry two_steps_sx i k * w (i - 1)%nat
          + (if decide (i = n - 1)%nat
             then entry two_steps_sx n k * w (n - 1)%nat else 0)
          + half * mig i.
Proof.
  apply (ccmpp_leslie_columns two_steps_basepop two_steps_sx two_steps_fx
           two_steps_gx two_steps_srb (q_ 5) 1).
  - inputs_shape.
  - vm_compute; congruence.
  - lia.
  - repeat constructor; scalar_neq.
Defined.

Lemma for_each_body_runs {St} (l : list Z) (body : Z → St → result St) s s' :
  for_each l body s = Ok s' → ∀ i, i ∈ l → ∃ t t', body i t = Ok t'.
Proof.
  revert s. induction l as [| j l IH]; intros s Hrun i Hi; cbn [for_each] in Hrun.
  - by apply elem_of_nil in Hi.
  - apply bind_Ok_inv in Hrun as (s1 & H1 & Hrest).
    apply elem_of_cons in Hi as [-> | Hi]; [by exists s, s1 |].
    by apply (IH s1).
Qed.

Lemma leslie_step_inv sxs fxs gxs (srbs : vec) span idx step M M' :
  leslie_step sxs fxs gxs srbs span idx step M = Ok M' →
  ∃ sx_col fx_col,
    col sxs step = Ok sx_col ∧ col fxs step = Ok fx_col ∧
    (0 ≤ step < vsize srbs)%Z ∧
    (2 ≤ vsize sx_col - 1)%Z ∧ (1 ≤ idx)%Z ∧ at_ srbs (Z.to_nat step) ≠ - (1).
Proof.
  intros H. unfold leslie_step in H. invert_binds H.
  match goal with H : make_leslie_matrix _ _ _ _ _ = Ok _ |- _ =>
    apply make_leslie_matrix_inv in H as (Hdim & Hidx & _ & Hr) end.
  match goal with H : vcoeff srbs _ = Ok _ |- _ =>
    apply vcoeff_inv in H as (Hstep & ->) end.
  eexists _, _. repeat split; try done; try lia. by apply srb_denominator_inv.
Qed.

(** X18.  The domain of the matrix form: on arguments of validated shapes
    with at least one step, [ccmpp_leslie] returns a table exactly when
    there are at least two age groups, [1 ≤ fx_idx] and no [srb] entry is
    -1; it returns nothing for a single age group or for
    [fx_idx = 0]. *)
Theorem ccmpp_leslie_domain (basepop : vec) sxs fxs gxs (srbs : vec) span idx :
  valid_inputs basepop sxs fxs gxs srbs idx →
  (1 ≤ length (columns sxs))%nat →
  (∃ M, ccmpp_leslie basepop sxs fxs gxs srbs span idx = Ok M) ↔
  (2 ≤ vsize basepop)%Z ∧ (1 ≤ idx)%Z ∧ Forall (fun r => r ≠ - (1)) srbs.
Proof.
  intros Hin Hsteps. split.
  - intros (M & HM). unfold ccmpp_leslie in HM. invert_binds HM.
    pose proof (for_each_body_runs _ _ _ _ HM) as Hbody.
    destruct Hin as [Hages Hsx Hfx Hgx Hsrb Hidx0 Hwin].
    assert (∀ j, (j < length (columns sxs))%nat →
              (2 ≤ vsize basepop)%Z ∧ (1 ≤ idx)%Z ∧ at_ srbs j ≠ - (1)) as Hstep.
    { intros j Hj.
      destruct (Hbody (Z.of_nat j)) as (t & t' & Ht).
      { apply elem_of_seqZ. unfold mat_cols. lia. }
      apply leslie_step_inv in Ht
        as (sx_col & fx_col & Hcol & _ & _ & Hdim & Hidx & Hr).
      rewrite (col_table _ _ _ j Hsx) in Hcol by (unfold mat_cols; lia).
      injection Hcol as <-.
      destruct (table_column _ _ _ j Hsx) as [_ Hlen]; [unfold mat_cols; lia |].
      rewrite Nat2Z.id in Hr. unfold vsize in *. split; [lia | done]. }
    destruct (Hstep 0%nat) as (Hn & Hidx & _); [lia |].
    split; [done |]. split; [done |].
    apply Forall_lookup. intros j r Hj.
    destruct (Hstep j) as (_ & _ & Hr).
    { apply lookup_lt_Some in Hj. unfold vsize, mat_cols in Hsrb. lia. }
    unfold at_ in Hr. by rewrite Hj in Hr.
  - intros (Hn & Hidx & Hr).
    destruct (ccmpp_leslie_spec _ _ _ _ _ span idx Hin Hn Hidx Hr) as (M & HM & _).
    by exists M.
Qed.

Lemma ccmpp_leslie_domain_witness :
  (∃ M, ccmpp_leslie two_steps_basepop two_steps_sx two_steps_fx two_steps_gx
          two_steps_srb (q_ 5) 1 = Ok M) ↔
  (2 ≤ vsize two_steps_basepop)%Z ∧ (1 ≤ 1)%Z ∧
  Forall (fun r => r ≠ - (1)) two_steps_srb.
Proof.
  apply (ccmpp_leslie_domain two_steps_basepop two_steps_sx two_steps_fx
           two_steps_gx two_steps_srb (q_ 5) 1).
  - inputs_shape.
  - vm_compute; lia.
Defined.

(** X19.  One step of the two forms from the same population column: both
    complete and give the same population at every age above 0; at age 0
    the direct step exceeds the matrix form by
    [sx[0] * 0.5 * age_span / (1 + srb) * fx[n_fx - 1] * sx[n_ages] * w[n_ages - 1]]
    when the open age group is fertile ([n_fx ≥ 1] and
    [fx_idx + n_fx = n_ages]), the surviving births to those who stay in
    the open age group, and by nothing otherwise. *)
Theorem paths_one_step p k M :
  shaped p → (2 ≤ n_ages p)%Z → (1 ≤ fx_idx p)%Z → (Z.of_nat k < n_steps p)%Z →
  at_ (srb p) k ≠ - (1) →
  table M (n_ages p) (n_steps p + 1) → column M k = column (population p) k →
  ∃ p' M',
    step_projection p (Z.of_nat k) = Ok p' ∧
    leslie_step (sx p) (fx p) (gx p) (srb p) (age_span p) (fx_idx p) (Z.of_nat k) M
      = Ok M' ∧
    (∀ i, (1 ≤ i)%nat → entry (population p') i (S k) = entry M' i (S k)) ∧
    let n := Z.to_nat (n_ages p) in
    let m := Z.to_nat (n_fx p) in
    let w := entry (population p) (n - 1) k
             + half * (entry (population p) (n - 1) k * entry (gx p) (n - 1) k) in
    entry (population p') 0 (S k)
    = entry M' 0 (S k)
      + (if decide (1 ≤ n_fx p ∧ fx_idx p + n_fx p = n_ages p)%Z
         then entry (sx p) 0 k * half * age_span p / (1 + at_ (srb p) k)
              * (entry (fx p) (m - 1) k * (entry (sx p) n k * w))
         else 0).
Proof.
  intros Hp Hn Hidx Hk Hr HM Hprev.
  pose proof (shaped_n_fx p Hp) as Hm. pose proof (shaped_window p Hp) as Hwin.
  pose proof (table_column _ _ _ k (shaped_sx p Hp) Hk) as [_ Lsx].
  pose proof (table_column _ _ _ k (shaped_fx p Hp) Hk) as [_ Lfx].
  pose proof (table_column _ _ _ k (shaped_population p Hp) ltac:(lia)) as [_ Lprev].
  replace (Z.to_nat (n_ages p + 1)) with (S (Z.to_nat (n_ages p))) in Lsx by lia.
  exists (stepped p k), (leslie_stepped (sx p) (fx p) (gx p) (srb p) (age_span p)
                           (fx_idx p) k M).
  split; [apply step_projection_runs; auto using srb_denominator |].
  split.
  { apply (leslie_step_runs _ _ _ _ _ _ _ _ (n_ages p) (n_steps p) (n_fx p));
      try apply Hp; auto using srb_denominator. }
  cbv zeta. unfold entry.
  rewrite (stepped_population p k Hp Hk).
  unfold leslie_stepped.
  rewrite column_set_col_eq by (rewrite (table_cols_length _ _ _ HM); lia).
  rewrite Hprev. rewrite leslie_next_idx by lia.
  split.
  - intros i Hi. destruct (decide (i < Z.to_nat (n_ages p))%nat) as [Hlt | Hge].
    + rewrite at_tabulate by done.
      rewrite (leslie_next_aging (Z.to_nat (n_ages p)) (Z.to_nat (fx_idx p))
                 (Z.to_nat (n_fx p))) by (done || lia).
      apply next_population_aging; lia.
    + rewrite !at_outside; [done | |].
      * rewrite length_leslie_next. lia.
      * rewrite length_tabulate. lia.
  - rewrite at_tabulate by lia.
    rewrite (leslie_next_top (Z.to_nat (n_ages p)) (Z.to_nat (fx_idx p))
               (Z.to_nat (n_fx p))) by (done || lia).
    rewrite next_population_youngest, deaths_infant.
    replace (infants_of _ _ _ _ _ _ _ _ _ - infants_of _ _ _ _ _ _ _ _ _ * (1 - _))
      with (infants_of (Z.to_nat (n_ages p)) (Z.to_nat (fx_idx p)) (Z.to_nat (n_fx p))
              (age_span p) (at_ (srb p) k) (at_ (column (population p) k))
              (at_ (column (sx p) k)) (at_ (column (fx p) k)) (at_ (column (gx p) k))
            * at_ (column (sx p) k) 0) by ring.
    rewrite (infants_with_open_group _ _ _ _ _ (column (sx p) k))
      by (auto using srb_denominator; lia).
    unfold fert_k, exposed_at, migrants_at.
    destruct (decide (1 ≤ n_fx p ∧ fx_idx p + n_fx p = n_ages p)%Z).
    + rewrite decide_True by lia. ring.
    + rewrite decide_False by lia. ring.
Qed.

Lemma paths_one_step_witness :
  ∃ p' M',
    step_projection sample_fertile_open (Z.of_nat 0) = Ok p' ∧
    leslie_step (sx sample_fertile_open) (fx sample_fertile_open)
      (gx sample_fertile_open) (srb sample_fertile_open)
      (age_span sample_fertile_open) (fx_idx sample_fertile_open) (Z.of_nat 0)
      (population sample_fertile_open) = Ok M' ∧
    (∀ i, (1 ≤ i)%nat → entry (population p') i 1 = entry M' i 1) ∧
    let w := entry (population sample_fertile_open) 2 0
             + half * (entry (population sample_fertile_open) 2 0
                       * entry (gx sample_fertile_open) 2 0) in
    entry (population p') 0 1
    = entry M' 0 1
      + (if decide (1 ≤ n_fx sample_fertile_open
                    ∧ fx_idx sample_fertile_open + n_fx sample_fertile_open
                      = n_ages sample_fertile_open)%Z
         then entry (sx sample_fertile_open) 0 0 * half * age_span sample_fertile_open
              / (1 + at_ (srb sample_fertile_open) 0)
              * (entry (fx sample_fertile_open) 0 0
                 * (entry (sx sample_fertile_open) 3 0 * w))
         else 0).
Proof.
  apply (paths_one_step sample_fertile_open 0 (population sample_fertile_open)).
  - container_shape.
  - vm_compute; congruence.
  - vm_compute; congruence.
  - reflexivity.
  - scalar_neq.
  - table_shape.
  - reflexivity.
Defined.

(** ** A horizon without steps *)

(** X20.  A horizon without steps: when [sx] has no column, [ccmpp_leslie]
    returns the table whose only column is the base population and
    [ccmpp] a container with that population table and no column of
    deaths, births, migrations or infants, whatever [fx], [gx], [srb] and
    [fx_idx] are (neither loop body runs, so nothing is checked). *)
Theorem empty_horizon (basepop : vec) sxs fxs gxs (srbs : vec) span idx :
  columns sxs = [] →
  ccmpp_leslie basepop sxs fxs gxs srbs span idx
    = Ok (Matrix (length basepop) [basepop]) ∧
  ∃ proj, ccmpp basepop sxs fxs gxs srbs span idx = Ok proj ∧
    population proj = Matrix (length basepop) [basepop] ∧
    columns (deaths proj) = [] ∧ columns (births proj) = [] ∧
    columns (migrations proj) = [] ∧ infants proj = [].
Proof.
  intros Hsx. unfold ccmpp_leslie, ccmpp, mat_cols. rewrite Hsx. cbn [length].
  split.
  - rewrite new_matrix_runs by (unfold vsize; lia). rewrite bind_Ok.
    unfold set_col, in_range, mat_cols. cbn [columns nrows].
    rewrite length_replicate.
    rewrite !bool_decide_eq_true_2 by (unfold vsize; lia).
    rewrite bind_Ok. unfold vsize. rewrite Nat2Z.id. reflexivity.
  - rewrite new_projection_runs by (unfold mat_rows; lia). rewrite bind_Ok.
    eexists. split; [reflexivity |]. unfold constructed.
    cbn [population deaths births migrations infants columns].
    unfold vsize. rewrite Nat2Z.id. done.
Qed.

Lemma empty_horizon_witness :
  ccmpp_leslie two_steps_basepop (no_steps 4) (no_steps 1) (no_steps 3) [] (q_ 5) 1
    = Ok (Matrix (length two_steps_basepop) [two_steps_basepop]) ∧
  ∃ proj, ccmpp two_steps_basepop (no_steps 4) (no_steps 1) (no_steps 3) [] (q_ 5) 1
            = Ok proj ∧
    population proj = Matrix (length two_steps_basepop) [two_steps_basepop] ∧
    columns (deaths proj) = [] ∧ columns (births proj) = [] ∧
    columns (migrations proj) = [] ∧ infants proj = [].
Proof.
  apply (empty_horizon two_steps_basepop (no_steps 4) (no_steps 1) (no_steps 3) []
           (q_ 5) 1).
  reflexivity.
Defined.

(** ** The two forms below the open age group *)

(** X21.  The two forms agree when the open age group is not fertile: for
    arguments of consistent shapes with every [srb] entry greater than
    -1, at least two age groups, [1 ≤ fx_idx] and a fertile window that
    stops short of the open age group
    ([fx_idx + n_fx - 1 < n_ages - 1]), [ccmpp_leslie] and [ccmpp] both
    complete and return the same population table; in particular the
    total population of every column is the same. *)
Theorem paths_agree_below_open_group (basepop : vec) sxs fxs gxs (srbs : vec) span idx :
  valid_inputs basepop sxs fxs gxs srbs idx →
  (2 ≤ vsize basepop)%Z → (1 ≤ idx)%Z →
  (idx + mat_rows fxs - 1 < vsize basepop - 1)%Z →
  Forall (fun r => - (1) < r) srbs →
  ∃ by_matrix direct,
    ccmpp_leslie basepop sxs fxs gxs srbs span idx = Ok by_matrix ∧
    ccmpp basepop sxs fxs gxs srbs span idx = Ok direct ∧
    columns by_matrix = columns (population direct) ∧
    ∀ k, total by_matrix k = total (population direct) k.
Proof.
  intros Hin Hn Hidx Hwin Hsrb.
  assert (Forall (fun r => r ≠ - (1)) srbs) as Hsrb'.
  { eapply Forall_impl; [exact Hsrb |]. intros r. apply srb_above_minus_one. }
  pose proof (shaped_constructed _ _ _ _ _ idx span Hin) as Hp0.
  set (p0 := constructed _ _ _ _ _ _ _ _ _ _) in Hp0.
  destruct (leslie_loop (length (columns sxs)) 0 p0 (population p0))
    as (M' & HM' & Hcols); try done;
    try (unfold p0, constructed, mat_cols; cbn [n_steps n_ages fx_idx n_fx]; lia).
  - intros j Hj. unfold p0, constructed. cbn [srb].
    apply srb_denominator, at_Forall; [done |].
    pose proof (valid_srb _ _ _ _ _ _ Hin) as Hlen.
    unfold vsize, mat_cols in Hlen. lia.
  - exists M', (advanced (length (columns sxs)) 0 p0).
    split; [| split; [by apply ccmpp_runs | split; [done |]]].
    + unfold ccmpp_leslie. cbv zeta.
      rewrite new_matrix_runs by (unfold vsize, mat_cols; lia). rewrite bind_Ok.
      change 0%Z with (Z.of_nat 0) at 1.
      rewrite (set_col_table _ (vsize basepop) (mat_cols sxs + 1) 0)
        by (try apply table_new; unfold vsize, mat_cols; lia).
      rewrite bind_Ok. exact HM'.
    + intros k. unfold total, column. by rewrite Hcols.
Qed.

Lemma paths_agree_below_open_group_witness :
  ∃ by_matrix direct,
    ccmpp_leslie two_steps_basepop two_steps_sx two_steps_fx two_steps_gx
      two_steps_srb (q_ 5) 1 = Ok by_matrix ∧
    ccmpp two_steps_basepop two_steps_sx two_steps_fx two_steps_gx
      two_steps_srb (q_ 5) 1 = Ok direct ∧
    columns by_matrix = columns (population direct) ∧
    ∀ k, total by_matrix k = total (population direct) k.
Proof.
  apply (paths_agree_below_open_group two_steps_basepop two_steps_sx two_steps_fx
           two_steps_gx two_steps_srb (q_ 5) 1).
  - inputs_shape.
  - vm_compute; congruence.
  - lia.
  - vm_compute; reflexivity.
  - repeat constructor.
Defined.
